(** * A chess opponent: static evaluator and alpha-beta searcher

    Shallow embedding of [services/evaluation.ts] (the static evaluator) and
    [services/chessAI.ts] (move ordering, minimax with alpha-beta pruning and
    [getBestMove]).  The rules engine ([chess.js]) is an external collaborator:
    it appears here as an interface ([RulesEngine]) whose contract is stated
    as explicit laws. *)

From Stdlib Require Import ZArith QArith Qround Qabs Qpower Lqa String Ascii Bool
  Lia Sorted.
From stdpp Require Import base tactics option list.

Local Open Scope Z_scope.

(** ** Data model *)

(** [PieceSymbol] of chess.js: 'p' | 'n' | 'b' | 'r' | 'q' | 'k'. *)
Inductive PieceSymbol := Pawn | Knight | Bishop | Rook | Queen | King.

(** [Color] of chess.js: 'w' | 'b'. *)
Inductive Color := White | Black.

Definition PieceSymbol_eqb (x y : PieceSymbol) : bool :=
  match x, y with
  | Pawn, Pawn | Knight, Knight | Bishop, Bishop
  | Rook, Rook | Queen, Queen | King, King => true
  | _, _ => false
  end.

Definition Color_eqb (x y : Color) : bool :=
  match x, y with
  | White, White | Black, Black => true
  | _, _ => false
  end.

(** An occupied entry of [game.board()]: [{ type, color }]. *)
Record Piece := mkPiece { type : PieceSymbol; color : Color }.

(** [game.board()]: rows of squares, [null] for an empty square.  Row 0 is the
    first row of the array. *)
Abbreviation Board := (list (list (option Piece))).

Definition wf_board (board : Board) : Prop :=
  length board = 8%nat /\ Forall (fun row => length row = 8%nat) board.

(** [board[r][c]].  A read outside the array is a failure ([None]): JavaScript
    throws on a missing row and yields [undefined] on a missing column; the
    evaluator guards every read, which is what the totality results show. *)
Definition board_at (board : Board) (r c : Z) : option (option Piece) :=
  if (0 <=? r) && (0 <=? c)
  then row ← board !! Z.to_nat r; row !! Z.to_nat c
  else None.

(** Left-to-right loop with an accumulator, in the failure monad. *)
Fixpoint foldlM {A B : Type} (f : B -> A -> option B) (acc : B) (l : list A)
  : option B :=
  match l with
  | [] => Some acc
  | x :: rest => acc' ← f acc x; foldlM f acc' rest
  end.

(** ** evaluation.ts *)

Module Evaluation.

Definition PIECE_VALUES (t : PieceSymbol) : Z :=
  match t with
  | Pawn => 100 | Knight => 320 | Bishop => 330
  | Rook => 500 | Queen => 900 | King => 20000
  end.

Definition BISHOP_PAIR_BONUS : Z := 50.
Definition ROOK_OPEN_FILE_BONUS : Z := 25.
Definition ROOK_SEMI_OPEN_FILE_BONUS : Z := 10.
Definition KING_SHIELD_BONUS : Z := 20.
Definition KING_OPEN_FILE_PENALTY : Z := 25.
Definition MOBILITY_WEIGHT : Z := 5.

Definition PAWN_PST : list Z :=
  [ 0;  0;  0;  0;  0;  0;  0;  0;
    50; 50; 50; 50; 50; 50; 50; 50;
    10; 10; 20; 30; 30; 20; 10; 10;
    5;  5; 10; 25; 25; 10;  5;  5;
    0;  0;  0; 20; 20;  0;  0;  0;
    5; -5;-10;  0;  0;-10; -5;  5;
    5; 10; 10;-20;-20; 10; 10;  5;
    0;  0;  0;  0;  0;  0;  0;  0 ].

Definition KNIGHT_PST : list Z :=
  [ -50;-40;-30;-30;-30;-30;-40;-50;
    -40;-20;  0;  0;  0;  0;-20;-40;
    -30;  0; 10; 15; 15; 10;  0;-30;
    -30;  5; 15; 20; 20; 15;  5;-30;
    -30;  0; 15; 20; 20; 15;  0;-30;
    -30;  5; 10; 15; 15; 10;  5;-30;
    -40;-20;  0;  5;  5;  0;-20;-40;
    -50;-40;-30;-30;-30;-30;-40;-50 ].

Definition BISHOP_PST : list Z :=
  [ -20;-10;-10;-10;-10;-10;-10;-20;
    -10;  0;  0;  0;  0;  0;  0;-10;
    -10;  0;  5; 10; 10;  5;  0;-10;
    -10;  5;  5; 10; 10;  5;  5;-10;
    -10;  0; 10; 10; 10; 10;  0;-10;
    -10; 10; 10; 10; 10; 10; 10;-10;
    -10;  5;  0;  0;  0;  0;  5;-10;
    -20;-10;-10;-10;-10;-10;-10;-20 ].

Definition ROOK_PST : list Z :=
  [ 0;  0;  0;  0;  0;  0;  0;  0;
    5; 10; 10; 10; 10; 10; 10;  5;
    -5;  0;  0;  0;  0;  0;  0; -5;
    -5;  0;  0;  0;  0;  0;  0; -5;
    -5;  0;  0;  0;  0;  0;  0; -5;
    -5;  0;  0;  0;  0;  0;  0; -5;
    -5;  0;  0;  0;  0;  0;  0; -5;
    0;  0;  0;  5;  5;  0;  0;  0 ].

Definition QUEEN_PST : list Z :=
  [ -20;-10;-10; -5; -5;-10;-10;-20;
    -10;  0;  0;  0;  0;  0;  0;-10;
    -10;  0;  5;  5;  5;  5;  0;-10;
    -5;  0;  5;  5;  5;  5;  0; -5;
    0;  0;  5;  5;  5;  5;  0; -5;
    -10;  5;  5;  5;  5;  5;  0;-10;
    -10;  0;  5;  0;  0;  0;  0;-10;
    -20;-10;-10; -5; -5;-10;-10;-20 ].

Definition KING_PST : list Z :=
  [ -30;-40;-40;-50;-50;-40;-40;-30;
    -30;-40;-40;-50;-50;-40;-40;-30;
    -30;-40;-40;-50;-50;-40;-40;-30;
    -30;-40;-40;-50;-50;-40;-40;-30;
    -20;-30;-30;-40;-40;-30;-30;-20;
    -10;-20;-20;-20;-20;-20;-20;-10;
     20; 20;  0;  0;  0;  0; 20; 20;
     20; 30; 10;  0;  0; 10; 30; 20 ].

Definition PSTS (t : PieceSymbol) : list Z :=
  match t with
  | Pawn => PAWN_PST | Knight => KNIGHT_PST | Bishop => BISHOP_PST
  | Rook => ROOK_PST | Queen => QUEEN_PST | King => KING_PST
  end.

Definition isValidSquare (r c : Z) : bool :=
  (0 <=? r) && (r <? 8) && (0 <=? c) && (c <? 8).

Definition knightDirs : list (Z * Z) :=
  [(2,1); (2,-1); (-2,1); (-2,-1); (1,2); (1,-2); (-1,2); (-1,-2)].
Definition rookDirs : list (Z * Z) := [(1,0); (-1,0); (0,1); (0,-1)].
Definition bishopDirs : list (Z * Z) := [(1,1); (1,-1); (-1,1); (-1,-1)].

(** The [while (isValidSquare(nr, nc))] loop of a sliding piece, for one
    direction.  [fuel] bounds the number of iterations; running out of it is a
    failure, which [slide_total] below shows never happens on a board. *)
Fixpoint slide (fuel : nat) (board : Board) (color0 : Color)
    (nr nc dr dc : Z) (moves : Z) : option Z :=
  match fuel with
  | O => None
  | S fuel' =>
      if isValidSquare nr nc then
        target ← board_at board nr nc;
        match target with
        | None => slide fuel' board color0 (nr + dr) (nc + dc) dr dc (moves + 1)
        | Some t =>
            if Color_eqb (color t) color0 then Some moves else Some (moves + 1)
        end
      else Some moves
  end.

(** One knight offset: the [!isSliding] branch of the loop body. *)
Definition hop (board : Board) (color0 : Color) (nr nc : Z) (moves : Z)
  : option Z :=
  if isValidSquare nr nc then
    target ← board_at board nr nc;
    match target with
    | None => Some (moves + 1)
    | Some t => if Color_eqb (color t) color0 then Some moves else Some (moves + 1)
    end
  else Some moves.

Definition dirsOf (t : PieceSymbol) : option (list (Z * Z)) :=
  match t with
  | Knight => Some knightDirs
  | Rook => Some rookDirs
  | Bishop => Some bishopDirs
  | Queen => Some (rookDirs ++ bishopDirs)
  | _ => None
  end.

Definition getPieceMobility (board : Board) (r c : Z) (t : PieceSymbol)
    (color0 : Color) : option Z :=
  match dirsOf t with
  | None => Some 0
  | Some dirs =>
      let isSliding := negb (PieceSymbol_eqb t Knight) in
      foldlM (fun moves '(dr, dc) =>
                let nr := r + dr in
                let nc := c + dc in
                if isSliding then slide 8 board color0 nr nc dr dc moves
                else hop board color0 nr nc moves)
             0 dirs
  end.

Definition evaluateKingSafety (board : Board) (r c : Z) (isWhite : bool)
  : option Z :=
  let isBackRank := if isWhite then r =? 7 else r =? 0 in
  if isBackRank then
    let shieldRank := if isWhite then r - 1 else r + 1 in
    foldlM (fun score f =>
              if (0 <=? f) && (f <? 8) then
                if isValidSquare shieldRank f then
                  piece ← board_at board shieldRank f;
                  match piece with
                  | Some pc =>
                      if PieceSymbol_eqb (type pc) Pawn
                         && Color_eqb (color pc) (if isWhite then White else Black)
                      then Some (score + KING_SHIELD_BONUS)
                      else Some score
                  | None => Some (score - KING_OPEN_FILE_PENALTY)
                  end
                else Some score
              else Some score)
           0 [c - 1; c; c + 1]
  else Some 0.

(** The local variables of [evaluateBoard] that the first pass updates. *)
Record Trackers := mkTrackers {
  totalEvaluation : Z;
  whiteKingPos : Z * Z;
  blackKingPos : Z * Z;
  whiteBishopCount : Z;
  blackBishopCount : Z;
  whitePawnsPerFile : list Z;
  blackPawnsPerFile : list Z
}.

Definition initTrackers : Trackers :=
  {| totalEvaluation := 0;
     whiteKingPos := (-1, -1);
     blackKingPos := (-1, -1);
     whiteBishopCount := 0;
     blackBishopCount := 0;
     whitePawnsPerFile := replicate 8 0;
     blackPawnsPerFile := replicate 8 0 |}.

(** The squares in the order of the two nested [for] loops. *)
Definition squares : list (Z * Z) :=
  r ← [0; 1; 2; 3; 4; 5; 6; 7]; c ← [0; 1; 2; 3; 4; 5; 6; 7]; [(r, c)].

(** [arr[c]++] on a per-file counter array. *)
Definition incrAt (arr : list Z) (c : Z) : option (list Z) :=
  if 0 <=? c then
    x ← arr !! Z.to_nat c; Some (<[Z.to_nat c := x + 1]> arr)
  else None.

(** [arr[i]], a read of a numeric array; outside the array it is a failure
    (JavaScript yields [undefined], which turns the score into [NaN]). *)
Definition readAt (arr : list Z) (i : Z) : option Z :=
  if 0 <=? i then arr !! Z.to_nat i else None.

(** Body of the first pass, at square [(r, c)]. *)
Definition visit (board : Board) (t : Trackers) (sq : Z * Z)
  : option Trackers :=
  let '(r, c) := sq in
  sqv ← board_at board r c;
  match sqv with
  | None => Some t
  | Some piece =>
      let isWhite := Color_eqb (color piece) White in
      let sign := if isWhite then 1 else -1 in
      let squareIndex := r * 8 + c in
      let total1 := totalEvaluation t + PIECE_VALUES (type piece) * sign in
      (* [PSTS] has a table for every piece type: the guard on it holds *)
      pstVal ← (if isWhite
                then readAt (PSTS (type piece)) squareIndex
                else readAt (PSTS (type piece)) (63 - squareIndex));
      let total2 := total1 + pstVal * sign in
      total3 ← (if negb (PieceSymbol_eqb (type piece) Pawn)
                   && negb (PieceSymbol_eqb (type piece) King)
                then mobility ← getPieceMobility board r c (type piece) (color piece);
                     Some (total2 + mobility * MOBILITY_WEIGHT * sign)
                else Some total2);
      match type piece with
      | King =>
          if isWhite
          then Some {| totalEvaluation := total3;
                       whiteKingPos := (r, c);
                       blackKingPos := blackKingPos t;
                       whiteBishopCount := whiteBishopCount t;
                       blackBishopCount := blackBishopCount t;
                       whitePawnsPerFile := whitePawnsPerFile t;
                       blackPawnsPerFile := blackPawnsPerFile t |}
          else Some {| totalEvaluation := total3;
                       whiteKingPos := whiteKingPos t;
                       blackKingPos := (r, c);
                       whiteBishopCount := whiteBishopCount t;
                       blackBishopCount := blackBishopCount t;
                       whitePawnsPerFile := whitePawnsPerFile t;
                       blackPawnsPerFile := blackPawnsPerFile t |}
      | Bishop =>
          if isWhite
          then Some {| totalEvaluation := total3;
                       whiteKingPos := whiteKingPos t;
                       blackKingPos := blackKingPos t;
                       whiteBishopCount := whiteBishopCount t + 1;
                       blackBishopCount := blackBishopCount t;
                       whitePawnsPerFile := whitePawnsPerFile t;
                       blackPawnsPerFile := blackPawnsPerFile t |}
          else Some {| totalEvaluation := total3;
                       whiteKingPos := whiteKingPos t;
                       blackKingPos := blackKingPos t;
                       whiteBishopCount := whiteBishopCount t;
                       blackBishopCount := blackBishopCount t + 1;
                       whitePawnsPerFile := whitePawnsPerFile t;
                       blackPawnsPerFile := blackPawnsPerFile t |}
      | Pawn =>
          if isWhite
          then arr ← incrAt (whitePawnsPerFile t) c;
               Some {| totalEvaluation := total3;
                       whiteKingPos := whiteKingPos t;
                       blackKingPos := blackKingPos t;
                       whiteBishopCount := whiteBishopCount t;
                       blackBishopCount := blackBishopCount t;
                       whitePawnsPerFile := arr;
                       blackPawnsPerFile := blackPawnsPerFile t |}
          else arr ← incrAt (blackPawnsPerFile t) c;
               Some {| totalEvaluation := total3;
                       whiteKingPos := whiteKingPos t;
                       blackKingPos := blackKingPos t;
                       whiteBishopCount := whiteBishopCount t;
                       blackBishopCount := blackBishopCount t;
                       whitePawnsPerFile := whitePawnsPerFile t;
                       blackPawnsPerFile := arr |}
      | _ =>
          Some {| totalEvaluation := total3;
                  whiteKingPos := whiteKingPos t;
                  blackKingPos := blackKingPos t;
                  whiteBishopCount := whiteBishopCount t;
                  blackBishopCount := blackBishopCount t;
                  whitePawnsPerFile := whitePawnsPerFile t;
                  blackPawnsPerFile := blackPawnsPerFile t |}
      end
  end.

(** Body of the second pass (rooks on open files), at square [(r, c)]. *)
Definition visitRook (board : Board) (wpf bpf : list Z) (total : Z)
    (sq : Z * Z) : option Z :=
  let '(r, c) := sq in
  sqv ← board_at board r c;
  match sqv with
  | Some piece =>
      if PieceSymbol_eqb (type piece) Rook then
        let isWhite := Color_eqb (color piece) White in
        myPawns ← (if isWhite then readAt wpf c else readAt bpf c);
        oppPawns ← (if isWhite then readAt bpf c else readAt wpf c);
        if myPawns =? 0 then
          let bonus := if oppPawns =? 0 then ROOK_OPEN_FILE_BONUS
                       else ROOK_SEMI_OPEN_FILE_BONUS in
          Some (total + (if isWhite then bonus else - bonus))
        else Some total
      else Some total
  | None => Some total
  end.

Definition evaluateBoard (board : Board) : option Z :=
  t ← foldlM (visit board) initTrackers squares;
  total4 ← foldlM (visitRook board (whitePawnsPerFile t) (blackPawnsPerFile t))
                  (totalEvaluation t) squares;
  let total5 := if 2 <=? whiteBishopCount t then total4 + BISHOP_PAIR_BONUS
                else total4 in
  let total5' := if 2 <=? blackBishopCount t then total5 - BISHOP_PAIR_BONUS
                 else total5 in
  total6 ← (if negb (fst (whiteKingPos t) =? -1)
            then ks ← evaluateKingSafety board (fst (whiteKingPos t))
                                        (snd (whiteKingPos t)) true;
                 Some (total5' + ks)
            else Some total5');
  if negb (fst (blackKingPos t) =? -1)
  then ks ← evaluateKingSafety board (fst (blackKingPos t))
                              (snd (blackKingPos t)) false;
       Some (total6 - ks)
  else Some total6.

End Evaluation.

(** [board[r][c]] as a total read: an empty square also outside the board. *)
Definition pieceAt (board : Board) (r c : Z) : option Piece :=
  default None (board_at board r c).

(** ** The terms of the evaluation

    The six contributions the evaluator adds up, each written as a sum over
    the squares of the board, independently of the loops that compute them. *)
Module Terms.
Import Evaluation.

Definition sign (col : Color) : Z :=
  match col with White => 1 | Black => -1 end.

Definition sumZ (l : list Z) : Z := foldr Z.add 0 l.

(** The sum of [f r c piece] over the occupied squares of [l]. *)
Definition sumOver (board : Board) (f : Z -> Z -> Piece -> Z)
    (l : list (Z * Z)) : Z :=
  sumZ (map (fun '(r, c) =>
               match pieceAt board r c with
               | Some pc => f r c pc
               | None => 0
               end) l).

Definition materialAt (r c : Z) (pc : Piece) : Z :=
  PIECE_VALUES (type pc) * sign (color pc).

Definition pstAt (r c : Z) (pc : Piece) : Z :=
  let i := r * 8 + c in
  nth (Z.to_nat (match color pc with White => i | Black => 63 - i end))
      (PSTS (type pc)) 0
  * sign (color pc).

(** The [n] squares from [(nr, nc)] on in direction [(dr, dc)]. *)
Fixpoint rayFrom (n : nat) (nr nc dr dc : Z) : list (Z * Z) :=
  match n with
  | O => []
  | S n' => (nr, nc) :: rayFrom n' (nr + dr) (nc + dc) dr dc
  end.

(** Along a ray: every empty square up to the first occupied square or the
    edge of the board, and that occupied square too if an enemy holds it. *)
Fixpoint rayCount (board : Board) (color0 : Color) (sqs : list (Z * Z)) : Z :=
  match sqs with
  | [] => 0
  | (nr, nc) :: rest =>
      if isValidSquare nr nc then
        match pieceAt board nr nc with
        | None => 1 + rayCount board color0 rest
        | Some t => if Color_eqb (color t) color0 then 0 else 1
        end
      else 0
  end.

(** A knight destination counts when it is on the board and no friendly
    piece stands on it. *)
Definition hopCount (board : Board) (color0 : Color) (sq : Z * Z) : Z :=
  let '(nr, nc) := sq in
  if isValidSquare nr nc then
    match pieceAt board nr nc with
    | Some t => if Color_eqb (color t) color0 then 0 else 1
    | None => 1
    end
  else 0.

Definition slidingCount (board : Board) (color0 : Color) (r c : Z)
    (dirs : list (Z * Z)) : Z :=
  sumZ (map (fun '(dr, dc) =>
               rayCount board color0 (rayFrom 7 (r + dr) (c + dc) dr dc)) dirs).

(** The number of squares the piece of type [t] on [(r, c)] reaches. *)
Definition reach (board : Board) (r c : Z) (t : PieceSymbol) (color0 : Color)
  : Z :=
  match t with
  | Knight =>
      sumZ (map (fun '(dr, dc) => hopCount board color0 (r + dr, c + dc))
                knightDirs)
  | Bishop => slidingCount board color0 r c bishopDirs
  | Rook => slidingCount board color0 r c rookDirs
  | Queen => slidingCount board color0 r c (rookDirs ++ bishopDirs)
  | Pawn | King => 0
  end.

Definition mobilityAt (board : Board) (r c : Z) (pc : Piece) : Z :=
  reach board r c (type pc) (color pc) * MOBILITY_WEIGHT * sign (color pc).

Definition isPieceAt (board : Board) (t : PieceSymbol) (col : Color)
    (r c : Z) : bool :=
  match pieceAt board r c with
  | Some pc => PieceSymbol_eqb (type pc) t && Color_eqb (color pc) col
  | None => false
  end.

(** The number of squares of [l] on which a [t] of colour [col] stands. *)
Definition countOver (board : Board) (t : PieceSymbol) (col : Color)
    (l : list (Z * Z)) : Z :=
  sumZ (map (fun '(r, c) => if isPieceAt board t col r c then 1 else 0) l).

Definition pawnsOnFile (board : Board) (col : Color) (file : Z)
    (l : list (Z * Z)) : Z :=
  countOver board Pawn col (List.filter (fun '(r, c) => c =? file) l).

(** The bonus of a rook on [(r, c)], given the pawns counted over [l]. *)
Definition rookAt (board : Board) (l : list (Z * Z)) (r c : Z) (pc : Piece)
  : Z :=
  match type pc with
  | Rook =>
      let other := match color pc with White => Black | Black => White end in
      if pawnsOnFile board (color pc) c l =? 0 then
        (if pawnsOnFile board other c l =? 0 then ROOK_OPEN_FILE_BONUS
         else ROOK_SEMI_OPEN_FILE_BONUS) * sign (color pc)
      else 0
  | _ => 0
  end.

(** The last square of [l], in scan order, holding a king of [col]. *)
Fixpoint lastKing (board : Board) (col : Color) (l : list (Z * Z))
  : option (Z * Z) :=
  match l with
  | [] => None
  | (r, c) :: rest =>
      match lastKing board col rest with
      | Some sq => Some sq
      | None => if isPieceAt board King col r c then Some (r, c) else None
      end
  end.

(** The pawn shield of a king of [col] on [(r, c)]: nothing unless the king
    is on row 7 (White) or row 0 (Black); otherwise, over the files
    [c - 1 .. c + 1] that exist, 20 for a pawn of [col] on the next row
    towards the centre and -25 for an empty square there. *)
Definition shieldAt (board : Board) (col : Color) (row f : Z) : Z :=
  if (0 <=? f) && (f <? 8) then
    match pieceAt board row f with
    | Some pc =>
        if PieceSymbol_eqb (type pc) Pawn && Color_eqb (color pc) col
        then KING_SHIELD_BONUS else 0
    | None => - KING_OPEN_FILE_PENALTY
    end
  else 0.

Definition shield (board : Board) (col : Color) (r c : Z) : Z :=
  match col with
  | White =>
      if r =? 7 then sumZ (map (shieldAt board White 6) [c - 1; c; c + 1])
      else 0
  | Black =>
      if r =? 0 then sumZ (map (shieldAt board Black 1) [c - 1; c; c + 1])
      else 0
  end.

Definition material (board : Board) : Z := sumOver board materialAt squares.
Definition pst (board : Board) : Z := sumOver board pstAt squares.
Definition mobility (board : Board) : Z :=
  sumOver board (mobilityAt board) squares.
Definition rookFiles (board : Board) : Z :=
  sumOver board (rookAt board squares) squares.
Definition bishopPair (board : Board) : Z :=
  (if 2 <=? countOver board Bishop White squares then BISHOP_PAIR_BONUS else 0)
  - (if 2 <=? countOver board Bishop Black squares then BISHOP_PAIR_BONUS else 0).
Definition kingSafety (board : Board) (col : Color) : Z :=
  match lastKing board col squares with
  | Some (r, c) => shield board col r c
  | None => 0
  end.

(** Ranks of chess for the rows of [game.board()]: row 0 is rank 8 (where
    the black pieces start, the side the piece-square tables give to Black)
    and row 7 is rank 1. *)
Definition rankOf (r : Z) : Z := 8 - r.

(** The king-safety term as the specification words it: computed when the
    king is on rank 8 for White and on rank 1 for Black, over the squares one
    rank towards the centre. *)
Definition shield_as_specified (board : Board) (col : Color) (r c : Z) : Z :=
  match col with
  | White =>
      if rankOf r =? 8
      then sumZ (map (shieldAt board White (r + 1)) [c - 1; c; c + 1])
      else 0
  | Black =>
      if rankOf r =? 1
      then sumZ (map (shieldAt board Black (r - 1)) [c - 1; c; c + 1])
      else 0
  end.

Definition hasKing (board : Board) (col : Color) : bool :=
  existsb (fun '(r, c) => isPieceAt board King col r c) squares.

(** The directions of the sliding pieces: one step at most on each axis,
    and not the null step. *)
Definition slidingDir (d : Z * Z) : Prop :=
  -1 <= fst d <= 1 /\ -1 <= snd d <= 1 /\ (fst d <> 0 \/ snd d <> 0).

(** The per-file pawn counters after a run of the first pass over [l]. *)
Definition files_rel (board : Board) (col : Color) (l : list (Z * Z))
    (arr arr' : list Z) : Prop :=
  length arr' = length arr
  /\ forall f x, readAt arr f = Some x ->
                readAt arr' f = Some (x + pawnsOnFile board col f l).

(** How the trackers after a run of the first pass over [l] relate to the
    trackers before it. *)
Definition pass1_rel (board : Board) (l : list (Z * Z)) (t t' : Trackers)
  : Prop :=
  totalEvaluation t'
  = totalEvaluation t + (sumOver board materialAt l + sumOver board pstAt l
                         + sumOver board (mobilityAt board) l)
  /\ whiteKingPos t' = default (whiteKingPos t) (lastKing board White l)
  /\ blackKingPos t' = default (blackKingPos t) (lastKing board Black l)
  /\ whiteBishopCount t' = whiteBishopCount t + countOver board Bishop White l
  /\ blackBishopCount t' = blackBishopCount t + countOver board Bishop Black l
  /\ files_rel board White l (whitePawnsPerFile t) (whitePawnsPerFile t')
  /\ files_rel board Black l (blackPawnsPerFile t) (blackPawnsPerFile t').

End Terms.

(** The initial position, as [game.board()] returns it. *)
Definition W (t : PieceSymbol) : option Piece := Some (mkPiece t White).
Definition Bl (t : PieceSymbol) : option Piece := Some (mkPiece t Black).
Definition emptyRow : list (option Piece) := replicate 8 None.
Definition backRow (f : PieceSymbol -> option Piece) : list (option Piece) :=
  [f Rook; f Knight; f Bishop; f Queen; f King; f Bishop; f Knight; f Rook].
Definition startBoard : Board :=
  [backRow Bl; replicate 8 (Bl Pawn); emptyRow; emptyRow;
   emptyRow; emptyRow; replicate 8 (W Pawn); backRow W].


(** ** chessAI.ts *)

(** Scores of the search: JavaScript numbers that are either an integer
    produced by the evaluator or one of the two infinities of the window. *)
Inductive num := NegInf | Fin (z : Z) | PosInf.

Definition num_leb (x y : num) : bool :=
  match x, y with
  | NegInf, _ => true
  | _, PosInf => true
  | Fin a, Fin b => a <=? b
  | _, _ => false
  end.

Definition num_ltb (x y : num) : bool := negb (num_leb y x).

(** [Math.max] and [Math.min]. *)
Definition num_max (x y : num) : num := if num_leb x y then y else x.
Definition num_min (x y : num) : num := if num_leb x y then x else y.

(** A score that is not one of the infinities. *)
Definition finite (v : num) : Prop := exists z, v = Fin z.

(** [x] brought into the window [[alpha, beta]]. *)
Definition clamp (alpha beta x : num) : num := num_max alpha (num_min beta x).

(** A verbose move of chess.js, with the fields the searcher reads and the
    ones that identify the move. *)
Record Move := mkMove {
  from : string;
  to : string;
  piece : PieceSymbol;
  captured : option PieceSymbol;
  promotion : option PieceSymbol;
  flags : string;
  san : string
}.

Inductive Difficulty := Easy | Medium | Hard.

(** [s.includes(needle)]. *)
Fixpoint includes (s needle : string) : bool :=
  String.prefix needle s ||
  match s with
  | EmptyString => false
  | String _ s' => includes s' needle
  end.

(** [v || 0] on a number. *)
Definition orZero (v : Z) : Z := if v =? 0 then 0 else v.

Definition PIECE_VALUES (t : PieceSymbol) : Z :=
  match t with
  | Pawn => 100 | Knight => 320 | Bishop => 330
  | Rook => 500 | Queen => 900 | King => 20000
  end.

Definition getMoveScore (move : Move) : Z :=
  let score := 0 in
  let score :=
    match captured move with
    | Some victim =>
        let victimValue := orZero (PIECE_VALUES victim) in
        let aggressorValue := orZero (PIECE_VALUES (piece move)) in
        score + (10000 + victimValue * 10 - aggressorValue)
    | None => score
    end in
  let score :=
    match promotion move with
    | Some pr => if PieceSymbol_eqb pr Queen then score + 9000 else score + 4000
    | None => score
    end in
  let score :=
    if includes (san move) "+" || includes (san move) "#"
    then score + 2000 else score in
  let score :=
    if includes (flags move) "k" || includes (flags move) "q"
    then score + 500 else score in
  score.

(** [moves.sort((a, b) => getMoveScore(b) - getMoveScore(a))]: the sort of
    JavaScript is stable, so the result is the descending order in which moves
    of equal score keep their generation order; insertion from the right
    computes exactly that list. *)
Fixpoint insertMove (m : Move) (l : list Move) : list Move :=
  match l with
  | [] => [m]
  | x :: rest =>
      if getMoveScore x <=? getMoveScore m then m :: l
      else x :: insertMove m rest
  end.

Definition sortMoves (l : list Move) : list Move := foldr insertMove [] l.

(** The four terms of the move-ordering score, as the specification lists
    them. *)
Definition captureTerm (m : Move) : Z :=
  match captured m with
  | Some victim => 10000 + 10 * PIECE_VALUES victim - PIECE_VALUES (piece m)
  | None => 0
  end.

Definition promotionTerm (m : Move) : Z :=
  match promotion m with
  | Some Queen => 9000
  | Some _ => 4000
  | None => 0
  end.

Definition hasCheckMarker (m : Move) : bool :=
  includes (san m) "+" || includes (san m) "#".

Definition isCastle (m : Move) : bool :=
  includes (flags m) "k" || includes (flags m) "q".

Definition checkTerm (m : Move) : Z := if hasCheckMarker m then 2000 else 0.
Definition castleTerm (m : Move) : Z := if isCastle m then 500 else 0.

(** What the rules engine guarantees of a generated move: only a pawn
    promotes and only a king castles. *)
Definition wf_move (m : Move) : Prop :=
  (promotion m <> None -> piece m = Pawn)
  /\ (isCastle m = true -> piece m = King).

(** Descending order of the move-ordering score. *)
Definition descending (l : list Move) : Prop :=
  StronglySorted (fun x y => getMoveScore y <= getMoveScore x) l.

(** The rules engine, as the searcher uses it.  [game_move] is [game.move(m)]
    ([None] when chess.js throws on a move it rejects), [game_undo] is
    [game.undo()], [game_moves] is [game.moves({ verbose: true })]. *)
Class RulesEngine := {
  Chess : Type;
  game_moves : Chess -> list Move;
  game_move : Chess -> Move -> option Chess;
  game_undo : Chess -> Chess;
  game_isGameOver : Chess -> bool;
  game_turn : Chess -> Color;
  game_board : Chess -> Board
}.

(** ** Numbers

    A JavaScript number is a binary64 value.  The scores of the evaluator
    and of the move ordering are integers far below [2 ^ 53], on which the
    arithmetic of the code is exact.  The one operation of the searcher that
    rounds is the product [Math.random() * possibleMoves.length]: it is the
    exact product rounded to the nearest binary64 value, the one of even
    significand when two are as near. *)

Definition pow2 (e : Z) : Q := (2 ^ e)%Q.

(** [floor (log2 x)] for [0 < x]. *)
Definition Qlog2 (x : Q) : Z :=
  let d := Z.log2 (Qnum x) - Z.log2 (Zpos (Qden x)) in
  if Qle_bool (pow2 d) x then d else d - 1.

(** The nearest integer, the even one of the two when [y] lies half-way. *)
Definition roundEven (y : Q) : Z :=
  let f := Qfloor y in
  match (y - inject_Z f ?= 1 # 2)%Q with
  | Lt => f
  | Gt => f + 1
  | Eq => if Z.even f then f else f + 1
  end.

(** Rounding to binary64: 53 significant bits, the quantum never below
    [2 ^ -1074] (subnormal numbers); [None] is an infinity, the result of
    rounding a magnitude of [2 ^ 1024 - 2 ^ 970] or more. *)
Definition toDouble (x : Q) : option Q :=
  if Qeq_bool x 0 then Some 0%Q
  else
    let e := Qlog2 (Qabs x) in
    let q := Z.max (e - 52) (-1074) in
    let r := (inject_Z (roundEven (x / pow2 q)) * pow2 q)%Q in
    if Qle_bool (pow2 1024) (Qabs r) then None else Some r.

(** The finite binary64 values: [m * 2 ^ e] with a significand below
    [2 ^ 53] in magnitude and an exponent of the format. *)
Definition isDouble (x : Q) : Prop :=
  exists m e : Z,
    Z.abs m < 2 ^ 53 /\ -1074 <= e <= 971 /\ (x == inject_Z m * pow2 e)%Q.

Record MinimaxResult := mkResult { bestMove : option Move; bestScore : num }.

Section Searcher.
Context {E : RulesEngine}.

(** The base case of [minimax]. *)
Definition leaf (game : Chess) : option (MinimaxResult * Chess) :=
  s ← Evaluation.evaluateBoard (game_board game);
  Some ({| bestMove := None; bestScore := Fin s |}, game).

(** The [for] loop of the maximizing branch; [rec] is the recursive call. *)
Fixpoint loopMax
    (rec : Chess -> num -> num -> bool -> option (MinimaxResult * Chess))
    (ms : list Move) (game : Chess) (alpha beta maxEval : num)
    (best : option Move) : option (MinimaxResult * Chess) :=
  match ms with
  | [] => Some ({| bestMove := best; bestScore := maxEval |}, game)
  | m :: rest =>
      game1 ← game_move game m;
      '(res, game2) ← rec game1 alpha beta false;
      let game3 := game_undo game2 in
      let s := bestScore res in
      let maxEval' := if num_ltb maxEval s then s else maxEval in
      let best' := if num_ltb maxEval s then Some m else best in
      let alpha' := num_max alpha s in
      if num_leb beta alpha'
      then Some ({| bestMove := best'; bestScore := maxEval' |}, game3)
      else loopMax rec rest game3 alpha' beta maxEval' best'
  end.

(** The [for] loop of the minimizing branch. *)
Fixpoint loopMin
    (rec : Chess -> num -> num -> bool -> option (MinimaxResult * Chess))
    (ms : list Move) (game : Chess) (alpha beta minEval : num)
    (best : option Move) : option (MinimaxResult * Chess) :=
  match ms with
  | [] => Some ({| bestMove := best; bestScore := minEval |}, game)
  | m :: rest =>
      game1 ← game_move game m;
      '(res, game2) ← rec game1 alpha beta true;
      let game3 := game_undo game2 in
      let s := bestScore res in
      let minEval' := if num_ltb s minEval then s else minEval in
      let best' := if num_ltb s minEval then Some m else best in
      let beta' := num_min beta s in
      if num_leb beta' alpha
      then Some ({| bestMove := best'; bestScore := minEval' |}, game3)
      else loopMin rec rest game3 alpha beta' minEval' best'
  end.

Fixpoint minimax (depth : nat) (game : Chess) (alpha beta : num)
    (isMaximizingPlayer : bool) : option (MinimaxResult * Chess) :=
  match depth with
  | O => leaf game
  | S depth' =>
      if game_isGameOver game then leaf game
      else
        let moves := sortMoves (game_moves game) in
        if isMaximizingPlayer
        then loopMax (minimax depth') moves game alpha beta NegInf None
        else loopMin (minimax depth') moves game alpha beta PosInf None
  end.

(** [possibleMoves[i]]; [None] is [undefined]. *)
Definition moveAt (l : list Move) (i : Z) : option Move :=
  if 0 <=? i then l !! Z.to_nat i else None.

Definition depthOf (difficulty : Difficulty) : nat :=
  match difficulty with Medium => 2 | _ => 3 end.

(** [random] is the value [Math.random()] returns when it is called: a
    binary64 number of [0, 1), given by its exact value.  [randomIndex] is
    [None] when the rounded product is an infinity, which [Math.floor] keeps
    and at which the array has no element.  The result pairs the returned
    move ([None] for [null] or [undefined]) with the state of [game] on
    return; the outer [None] is an exception. *)
Definition getBestMove (random : Q) (game : Chess) (difficulty : Difficulty)
  : option (option Move * Chess) :=
  let possibleMoves := game_moves game in
  if (length possibleMoves =? 0)%nat then Some (None, game)
  else
    match difficulty with
    | Easy =>
        let randomIndex :=
          Qfloor
            <$> toDouble (random * inject_Z (Z.of_nat (length possibleMoves))) in
        Some (randomIndex ≫= moveAt possibleMoves, game)
    | _ =>
        let depth := depthOf difficulty in
        let isMaximizingPlayer := Color_eqb (game_turn game) White in
        '(res, game') ← minimax depth game NegInf PosInf isMaximizingPlayer;
        Some (match bestMove res with
              | Some m => Some m
              | None => possibleMoves !! 0%nat
              end, game')
    end.

End Searcher.

(** ** Reference semantics of the search

    What the claims compare the searcher with: the value of the game tree
    of a given depth, computed without any pruning, over the same move
    generator and evaluator. *)
Section SearchSpec.
Context {E : RulesEngine}.

Definition staticValue (game : Chess) : option num :=
  s ← Evaluation.evaluateBoard (game_board game); Some (Fin s).

Definition maximum (vs : list num) : num := foldr num_max NegInf vs.
Definition minimum (vs : list num) : num := foldr num_min PosInf vs.

(** Exhaustive minimax: every legal move of every node down to [depth] is
    explored, in generation order; the maximizer takes the largest child
    value and the minimizer the smallest. *)
Fixpoint exhaustive (depth : nat) (game : Chess) (isMaximizingPlayer : bool)
  : option num :=
  match depth with
  | O => staticValue game
  | S depth' =>
      if game_isGameOver game then staticValue game
      else
        vs ← mapM (fun m => game' ← game_move game m;
                            exhaustive depth' game' (negb isMaximizingPlayer))
                  (game_moves game);
        Some (if isMaximizingPlayer then maximum vs else minimum vs)
  end.

(** The exhaustive value of the position a move leads to, [depth] plies deep,
    when [isMaximizingPlayer] is the side that makes the move. *)
Definition childValue (depth : nat) (game : Chess) (isMaximizingPlayer : bool)
    (m : Move) : option num :=
  game' ← game_move game m; exhaustive depth game' (negb isMaximizingPlayer).

(** The first candidate of strictly largest value, scanning left to right
    from a current best. *)
Fixpoint pickMax (cands : list (Move * num)) (maxEval : num)
    (best : option Move) : MinimaxResult :=
  match cands with
  | [] => mkResult best maxEval
  | (m, v) :: rest =>
      if num_ltb maxEval v then pickMax rest v (Some m)
      else pickMax rest maxEval best
  end.

Fixpoint pickMin (cands : list (Move * num)) (minEval : num)
    (best : option Move) : MinimaxResult :=
  match cands with
  | [] => mkResult best minEval
  | (m, v) :: rest =>
      if num_ltb v minEval then pickMin rest v (Some m)
      else pickMin rest minEval best
  end.

(** The choice at the root as the claims describe it: among the moves in
    search order, the first one whose exhaustive value is the best. *)
Definition rootChoice (depth : nat) (game : Chess) (isMaximizingPlayer : bool)
  : option MinimaxResult :=
  let ms := sortMoves (game_moves game) in
  vs ← mapM (childValue depth game isMaximizingPlayer) ms;
  Some (if isMaximizingPlayer then pickMax (zip ms vs) NegInf None
        else pickMin (zip ms vs) PosInf None).

(** What holds of [minimax] at depth [d], for every window that is not
    empty: it returns, the position is restored, and the score agrees with
    the exhaustive value once both are brought into the window. *)
Definition sound_at (d : nat) : Prop :=
  forall (g : Chess) (a b : num) (mx : bool),
    num_ltb a b = true ->
    exists r v,
      minimax d g a b mx = Some (r, g)
      /\ exhaustive d g mx = Some v
      /\ clamp a b (bestScore r) = clamp a b v.

(** [minimax] at depth [d] returns and leaves the position as it found
    it, whatever the window. *)
Definition restores_at (d : nat) : Prop :=
  forall (g : Chess) (a b : num) (mx : bool),
    exists r, minimax d g a b mx = Some (r, g).

End SearchSpec.

(** The contract of the rules engine the searcher relies on: a move of the
    legal-move list is accepted and [undo] then restores the position; the
    board view is an 8x8 array. *)
Class EngineLaws (E : RulesEngine) : Prop := {
  move_undo : forall (g : Chess) (m : Move),
    m ∈ game_moves g -> exists g', game_move g m = Some g' /\ game_undo g' = g;
  board_wf : forall g : Chess, wf_board (game_board g)
}.

(** A position without legal moves is over (checkmate or stalemate). *)
Definition NoMovesIsOver (E : RulesEngine) : Prop :=
  forall g : Chess, game_isGameOver g = false -> game_moves g <> [].

(** ** A small rules engine

    An instance of [RulesEngine] on which the searcher can be run: the moves
    of chess without castling and en passant, with the draw by insufficient
    material.  It stands in for chess.js in the examples; none of the
    general results depends on it. *)
Module MiniChess.

Definition rows8 : list Z := [0; 1; 2; 3; 4; 5; 6; 7].

(** The 8x8 view of any raw board, as [board()] builds it afresh. *)
Definition normalize (raw : Board) : Board :=
  map (fun r => map (fun c => pieceAt raw r c) rows8) rows8.

Definition setAt (b : Board) (r c : Z) (v : option Piece) : Board :=
  alter (fun row => <[Z.to_nat c := v]> row) (Z.to_nat r) b.

Definition opp (s : Color) : Color :=
  match s with White => Black | Black => White end.

Definition onBoard : Z -> Z -> bool := Evaluation.isValidSquare.

Definition ownAt (b : Board) (s : Color) (r c : Z) : bool :=
  match pieceAt b r c with
  | Some t => Color_eqb (color t) s
  | None => false
  end.

Definition enemyAt (b : Board) (s : Color) (r c : Z) : bool :=
  ownAt b (opp s) r c.

Definition emptyAt (b : Board) (r c : Z) : bool :=
  match pieceAt b r c with Some _ => false | None => true end.

Fixpoint rayTargets (fuel : nat) (b : Board) (s : Color) (nr nc dr dc : Z)
  : list (Z * Z) :=
  match fuel with
  | O => []
  | S fuel' =>
      if onBoard nr nc then
        if emptyAt b nr nc
        then (nr, nc) :: rayTargets fuel' b s (nr + dr) (nc + dc) dr dc
        else if enemyAt b s nr nc then [(nr, nc)] else []
      else []
  end.

Definition stepTargets (b : Board) (s : Color) (r c : Z)
    (dirs : list (Z * Z)) : list (Z * Z) :=
  List.filter (fun '(nr, nc) => onBoard nr nc && negb (ownAt b s nr nc))
              (map (fun '(dr, dc) => (r + dr, c + dc)) dirs).

Definition slideTargets (b : Board) (s : Color) (r c : Z)
    (dirs : list (Z * Z)) : list (Z * Z) :=
  flat_map (fun '(dr, dc) => rayTargets 7 b s (r + dr) (c + dc) dr dc) dirs.

Definition pawnTargets (b : Board) (s : Color) (r c : Z) : list (Z * Z) :=
  let d := match s with White => -1 | Black => 1 end in
  let startRow := match s with White => 6 | Black => 1 end in
  let pushes :=
    if onBoard (r + d) c && emptyAt b (r + d) c then
      (r + d, c) ::
      (if (r =? startRow) && emptyAt b (r + 2 * d) c
       then [(r + 2 * d, c)] else [])
    else [] in
  let captures :=
    List.filter (fun '(nr, nc) => onBoard nr nc && enemyAt b s nr nc)
                [(r + d, c - 1); (r + d, c + 1)] in
  pushes ++ captures.

Definition kingDirs : list (Z * Z) :=
  Evaluation.rookDirs ++ Evaluation.bishopDirs.

Definition targets (b : Board) (s : Color) (r c : Z) (t : PieceSymbol)
  : list (Z * Z) :=
  match t with
  | Pawn => pawnTargets b s r c
  | Knight => stepTargets b s r c Evaluation.knightDirs
  | Bishop => slideTargets b s r c Evaluation.bishopDirs
  | Rook => slideTargets b s r c Evaluation.rookDirs
  | Queen => slideTargets b s r c kingDirs
  | King => stepTargets b s r c kingDirs
  end.

(** A move in coordinates. *)
Record Mv := mkMv { fr : Z; fc : Z; tr : Z; tc : Z; promo : option PieceSymbol }.

Definition mvsOf (b : Board) (s : Color) (sq : Z * Z) : list Mv :=
  let '(r, c) := sq in
  match pieceAt b r c with
  | Some pc =>
      if Color_eqb (color pc) s then
        flat_map (fun '(nr, nc) =>
                    if PieceSymbol_eqb (type pc) Pawn
                       && ((nr =? 0) || (nr =? 7))
                    then map (fun pr => mkMv r c nr nc (Some pr))
                             [Queen; Rook; Bishop; Knight]
                    else [mkMv r c nr nc None])
                 (targets b s r c (type pc))
      else []
  | None => []
  end.

Definition pseudoMoves (b : Board) (s : Color) : list Mv :=
  flat_map (mvsOf b s) Evaluation.squares.

Definition kingSquare (b : Board) (s : Color) : option (Z * Z) :=
  List.find (fun '(r, c) =>
               match pieceAt b r c with
               | Some pc => PieceSymbol_eqb (type pc) King && Color_eqb (color pc) s
               | None => false
               end) Evaluation.squares.

Definition inCheck (b : Board) (s : Color) : bool :=
  match kingSquare b s with
  | Some (kr, kc) =>
      existsb (fun mv => (tr mv =? kr) && (tc mv =? kc)) (pseudoMoves b (opp s))
  | None => false
  end.

Definition applyMv (b : Board) (mv : Mv) : Board :=
  let moved :=
    match pieceAt b (fr mv) (fc mv), promo mv with
    | Some pc, Some pr => Some (mkPiece pr (color pc))
    | pc, _ => pc
    end in
  setAt (setAt b (fr mv) (fc mv) None) (tr mv) (tc mv) moved.

Definition legalMvs (b : Board) (s : Color) : list Mv :=
  List.filter (fun mv => negb (inCheck (applyMv b mv) s)) (pseudoMoves b s).

Definition squareName (r c : Z) : string :=
  String (ascii_of_nat (97 + Z.to_nat c))
         (String (ascii_of_nat (48 + Z.to_nat (8 - r))) EmptyString).

Definition letter (t : PieceSymbol) : string :=
  match t with
  | Pawn => EmptyString | Knight => "N"%string | Bishop => "B"%string
  | Rook => "R"%string | Queen => "Q"%string | King => "K"%string
  end.

Definition typeAt (b : Board) (r c : Z) : PieceSymbol :=
  match pieceAt b r c with Some pc => type pc | None => Pawn end.

(** The verbose move of a coordinate move: captured piece, flags and a
    notation with the check and mate markers. *)
Definition toMove (b : Board) (s : Color) (mv : Mv) : Move :=
  let t := typeAt b (fr mv) (fc mv) in
  let cap := option_map type (pieceAt b (tr mv) (tc mv)) in
  let b' := applyMv b mv in
  let mark :=
    if inCheck b' (opp s)
    then match legalMvs b' (opp s) with [] => "#"%string | _ => "+"%string end
    else EmptyString in
  let takes :=
    match cap with
    | Some _ =>
        (match t with
         | Pawn => String (ascii_of_nat (97 + Z.to_nat (fc mv))) EmptyString
         | _ => EmptyString
         end ++ "x"%string)%string
    | None => EmptyString
    end in
  let prom :=
    match promo mv with
    | Some pr => ("="%string ++ letter pr)%string
    | None => EmptyString
    end in
  let big := PieceSymbol_eqb t Pawn && (Z.abs (tr mv - fr mv) =? 2) in
  let kind :=
    match cap with
    | Some _ => "c"%string
    | None => if big then "b"%string else "n"%string
    end in
  {| from := squareName (fr mv) (fc mv);
     to := squareName (tr mv) (tc mv);
     piece := t;
     captured := cap;
     promotion := promo mv;
     flags := (kind ++ match promo mv with
                       | Some _ => "p"%string
                       | None => EmptyString
                       end)%string;
     san := (letter t ++ takes ++ squareName (tr mv) (tc mv) ++ prom ++ mark)%string |}.

Record State := mkState {
  cur : Board;
  side : Color;
  hist : list (Board * Color)
}.

Definition view (g : State) : Board := normalize (cur g).

Definition moves (g : State) : list Move :=
  map (toMove (view g) (side g)) (legalMvs (view g) (side g)).

Definition optPiece_eqb (x y : option PieceSymbol) : bool :=
  match x, y with
  | Some a, Some b => PieceSymbol_eqb a b
  | None, None => true
  | _, _ => false
  end.

(** chess.js looks a move object up by source, destination and promotion. *)
Definition sameMove (m : Move) (mv : Mv) : bool :=
  String.eqb (from m) (squareName (fr mv) (fc mv))
  && String.eqb (to m) (squareName (tr mv) (tc mv))
  && optPiece_eqb (promotion m) (promo mv).

Definition move (g : State) (m : Move) : option State :=
  match List.find (sameMove m) (legalMvs (view g) (side g)) with
  | Some mv =>
      Some {| cur := applyMv (view g) mv;
              side := opp (side g);
              hist := (cur g, side g) :: hist g |}
  | None => None
  end.

Definition undo (g : State) : State :=
  match hist g with
  | (b, s) :: h => {| cur := b; side := s; hist := h |}
  | [] => g
  end.

Definition insufficientMaterial (b : Board) : bool :=
  let others :=
    List.filter (fun '(r, c) =>
                   match pieceAt b r c with
                   | Some pc => negb (PieceSymbol_eqb (type pc) King)
                   | None => false
                   end) Evaluation.squares in
  match others with
  | [] => true
  | [(r, c)] =>
      match typeAt b r c with Knight | Bishop => true | _ => false end
  | _ => false
  end.

Definition isCheckmate (g : State) : bool :=
  inCheck (view g) (side g) &&
  match legalMvs (view g) (side g) with [] => true | _ => false end.

Definition isGameOver (g : State) : bool :=
  match legalMvs (view g) (side g) with
  | [] => true
  | _ => insufficientMaterial (view g)
  end.

#[export] Instance engine : RulesEngine := {|
  Chess := State;
  game_moves := moves;
  game_move := move;
  game_undo := undo;
  game_isGameOver := isGameOver;
  game_turn := side;
  game_board := view
|}.

Definition start : State := mkState startBoard White [].

Fixpoint perft (d : nat) (g : State) : nat :=
  match d with
  | O => 1%nat
  | S d' =>
      foldr (fun m acc =>
               (match move g m with Some g' => perft d' g' | None => 0 end + acc)%nat)
            0%nat (moves g)
  end.

End MiniChess.

(** ** Positions used in the examples *)

Definition emptyBoard : Board := replicate 8 emptyRow.

Definition place (l : list (Z * Z * option Piece)) : Board :=
  foldr (fun '(r, c, pc) b => MiniChess.setAt b r c pc) emptyBoard l.

(** White: Kf7, g6.  Black: Kh8, Nh7.  White to move: g7 is mate, gxh7
    wins the knight. *)
Definition mateOrKnight : MiniChess.State :=
  MiniChess.mkState
    (place [(1, 5, W King); (2, 6, W Pawn); (0, 7, Bl King); (1, 7, Bl Knight)])
    White [].

(** White: Ke1.  Black: Ke8.  White to move: a draw by insufficient
    material in which the king still has moves. *)
Definition bareKings : MiniChess.State :=
  MiniChess.mkState (place [(7, 4, W King); (0, 4, Bl King)]) White [].

(** White: Kg1, Ra1, pawns f2, g2, h2.  Black: Kg8, Re8, Na7, pawns f7, g7,
    h7.  White to move: Rxa7 wins the knight and leaves the back rank to
    Re1 mate. *)
Definition backRankTrap : MiniChess.State :=
  MiniChess.mkState
    (place [(7, 6, W King); (6, 5, W Pawn); (6, 6, W Pawn); (6, 7, W Pawn);
            (7, 0, W Rook);
            (0, 6, Bl King); (1, 5, Bl Pawn); (1, 6, Bl Pawn); (1, 7, Bl Pawn);
            (0, 4, Bl Rook); (1, 0, Bl Knight)])
    White [].

(** A pawn taking a queen, and a queen taking a pawn with check. *)
Definition pawnTakesQueen : Move :=
  mkMove "e4"%string "d5"%string Pawn (Some Queen) None "c"%string "exd5"%string.
Definition queenTakesPawn : Move :=
  mkMove "d1"%string "d7"%string Queen (Some Pawn) None "c"%string "Qxd7+"%string.


(** White: Ra1, Nb1, pawn a2.  Black: Ra8.  The rook on a1 reaches nothing
    (own pieces next to it), the knight on b1 reaches a3, c3 and d2, the rook
    on a8 reaches the seven squares of rank 8 and the file down to a2. *)
Definition mobilityBoard : Board :=
  place [(7, 0, W Rook); (7, 1, W Knight); (6, 0, W Pawn); (0, 0, Bl Rook)].


(** A board without white king: Black Ke8 with pawns d7, e7, f7; White Ra1. *)
Definition noWhiteKing : Board :=
  place [(0, 4, Bl King); (1, 3, Bl Pawn); (1, 4, Bl Pawn); (1, 5, Bl Pawn);
         (7, 0, W Rook)].

(** ** The board seen from the other side

    Colours exchanged and the board turned by half a turn: the square
    [(r, c)] of the result holds what [(7 - r, 7 - c)] held, in the other
    colour. *)
Definition swapColor (col : Color) : Color :=
  match col with White => Black | Black => White end.

Definition swapPiece (pc : Piece) : Piece :=
  mkPiece (type pc) (swapColor (color pc)).

Definition flipBoard (board : Board) : Board :=
  reverse (map (fun row => reverse (map (fmap swapPiece) row)) board).

(** ** Lines of play of the search *)

Section Lines.
Context {E : RulesEngine}.

(** [horizon d g first g']: a line of legal moves leads from [g] to [g'],
    where the search stops: at depth 0 or at a finished game.  [first] is
    the first move of the line, if it has one. *)
Inductive horizon : nat -> Chess -> option Move -> Chess -> Prop :=
  | horizon_leaf (d : nat) (g : Chess) :
      d = 0%nat \/ game_isGameOver g = true -> horizon d g None g
  | horizon_step (d : nat) (g g1 g' : Chess) (m : Move) (next : option Move) :
      game_isGameOver g = false ->
      m ∈ game_moves g ->
      game_move g m = Some g1 ->
      horizon d g1 next g' ->
      horizon (S d) g (Some m) g'.

End Lines.

(** ** components/MoveHistory.tsx *)

Module MoveHistory.

(** An element of [movePairs]; [white] is [None] for [undefined]. *)
Record MovePair := mkPair {
  white : option string;
  black : string;
  number : Z
}.

(** [s || ''] for [s] a string or [undefined]. *)
Definition orEmpty (s : option string) : string :=
  match s with
  | Some s' => if String.eqb s' EmptyString then EmptyString else s'
  | None => EmptyString
  end.

(** The loop [for (let i = 0; i < history.length; i += 2)]; [fuel] bounds
    the number of tests of the loop condition. *)
Fixpoint movePairsLoop (fuel : nat) (history : list string) (i : nat)
    (movePairs : list MovePair) : option (list MovePair) :=
  match fuel with
  | O => None
  | S fuel' =>
      if (i <? length history)%nat then
        movePairsLoop fuel' history (i + 2)
          (movePairs ++ [ {| white := history !! i;
                             black := orEmpty (history !! (i + 1)%nat);
                             number := Z.of_nat i / 2 + 1 |} ])
      else Some movePairs
  end.

Definition movePairs (history : list string) : option (list MovePair) :=
  movePairsLoop (S (length history)) history 0 [].

(** The cells of a row of the table that hold a move. *)
Definition cells (p : MovePair) : list string :=
  match white p with Some w => [w] | None => [] end
  ++ (if String.eqb (black p) EmptyString then [] else [black p]).

End MoveHistory.

(** ** App.tsx: the effect that plays the computer's move *)

Inductive AiAction :=
  | Idle                (* the effect returns without starting the search *)
  | Play (m : Move)     (* [g.move(bestMove)] on a copy of the game *)
  | Skip.               (* [bestMove] was [null] *)

Section AiEffect.
Context {E : RulesEngine}.
Variable game_isDraw : Chess -> bool.

(** The decision of the effect and of its timer: [pendingPromotion] is
    [true] when a promotion choice is open.  The result pairs the action with
    the state of [game] after the call of [getBestMove]. *)
Definition aiMoveEffect (random : Q) (game : Chess) (difficulty : Difficulty)
    (playerColor : Color) (pendingPromotion : bool)
  : option (AiAction * Chess) :=
  if game_isGameOver game || game_isDraw game || pendingPromotion
  then Some (Idle, game)
  else if negb (Color_eqb (game_turn game) playerColor) then
    '(bestMove, game') ← getBestMove random game difficulty;
    Some (match bestMove with Some m => Play m | None => Skip end, game')
  else Some (Idle, game).

End AiEffect.

(** ** Positions the searcher cannot tell apart *)

Section Agreement.
Context {E : RulesEngine}.

(** Two positions agree to depth [d] when the rules engine reports the same
    board, turn, game-over status and legal moves for both, and so again
    after each legal move, [d] moves deep. *)
Fixpoint agree (d : nat) (g1 g2 : Chess) : Prop :=
  game_board g1 = game_board g2
  /\ game_turn g1 = game_turn g2
  /\ game_isGameOver g1 = game_isGameOver g2
  /\ game_moves g1 = game_moves g2
  /\ match d with
     | O => True
     | S d' =>
         forall m g1' g2',
           m ∈ game_moves g1 ->
           game_move g1 m = Some g1' -> game_move g2 m = Some g2' ->
           agree d' g1' g2'
     end.

End Agreement.

(** ** The small rules engine with the half-move clock

    chess.js keeps, beside the board, the turn and the history of moves, the
    number of half-moves since the last capture or pawn move; a position
    loaded from FEN brings its own.  A game whose clock has reached 100 is
    drawn, hence over. *)
Module ClockChess.

Record State := mkState {
  pos : MiniChess.State;
  halfMoves : Z;
  clocks : list Z      (* the clocks of the positions that [undo] restores *)
}.

Definition moves (g : State) : list Move := MiniChess.moves (pos g).

Definition resets (m : Move) : bool :=
  PieceSymbol_eqb (piece m) Pawn
  || match captured m with Some _ => true | None => false end.

Definition move (g : State) (m : Move) : option State :=
  p ← MiniChess.move (pos g) m;
  Some {| pos := p;
          halfMoves := if resets m then 0 else halfMoves g + 1;
          clocks := halfMoves g :: clocks g |}.

Definition undo (g : State) : State :=
  match clocks g with
  | c :: cs => {| pos := MiniChess.undo (pos g); halfMoves := c; clocks := cs |}
  | [] => g
  end.

Definition isGameOver (g : State) : bool :=
  MiniChess.isGameOver (pos g) || (100 <=? halfMoves g).

(** [game.history()]: the positions the moves made so far were played from. *)
Definition history (g : State) : list (Board * Color) := MiniChess.hist (pos g).

Definition engine : RulesEngine := {|
  Chess := State;
  game_moves := moves;
  game_move := move;
  game_undo := undo;
  game_isGameOver := isGameOver;
  game_turn := fun g => MiniChess.side (pos g);
  game_board := fun g => MiniChess.view (pos g)
|}.

End ClockChess.

(** The position [mateOrKnight] as loaded from FEN with a half-move clock. *)
Definition withClock (halfMoves : Z) : ClockChess.State :=
  ClockChess.mkState mateOrKnight halfMoves [].

(** * Proofs *)

(** ** The evaluator: reads and loops *)

Section Eval.
Import Evaluation Terms.

Lemma isValidSquare_spec (r c : Z) :
  isValidSquare r c = true <-> 0 <= r < 8 /\ 0 <= c < 8.
Proof. unfold isValidSquare. lia. Qed.

Lemma board_at_valid (board : Board) (r c : Z) :
  wf_board board -> isValidSquare r c = true ->
  board_at board r c = Some (pieceAt board r c).
Proof.
  intros [Hlen Hrows] Hv. apply isValidSquare_spec in Hv.
  unfold pieceAt, board_at.
  destruct ((0 <=? r) && (0 <=? c)) eqn:Hb; [|lia].
  destruct (lookup_lt_is_Some_2 board (Z.to_nat r)) as [row Hrow]; [lia|].
  rewrite Hrow. cbn [mbind option_bind].
  assert (length row = 8%nat) as Hr.
  { rewrite Forall_forall in Hrows. apply Hrows.
    eapply list_elem_of_lookup_2. exact Hrow. }
  destruct (lookup_lt_is_Some_2 row (Z.to_nat c)) as [x Hx]; [lia|].
  rewrite Hx. reflexivity.
Qed.

Lemma foldlM_add {A : Type} (step : Z -> A -> option Z) (f : A -> Z)
    (l : list A) :
  (forall x acc, x ∈ l -> step acc x = Some (acc + f x)) ->
  forall acc, foldlM step acc l = Some (acc + sumZ (map f l)).
Proof.
  induction l as [|x l IH]; intros Hstep acc; cbn [foldlM map sumZ foldr].
  - f_equal. lia.
  - rewrite Hstep by left. cbn [mbind option_bind].
    fold (sumZ (map f l)). rewrite IH by (intros; apply Hstep; by right).
    f_equal. lia.
Qed.

(** The loop of a sliding piece stops within its fuel and counts what
    [rayCount] counts. *)
Lemma slide_rayCount (board : Board) (color0 : Color) (dr dc : Z) :
  wf_board board ->
  forall (n fuel : nat) (nr nc moves : Z),
    (n < fuel)%nat ->
    isValidSquare (nr + Z.of_nat n * dr) (nc + Z.of_nat n * dc) = false ->
    slide fuel board color0 nr nc dr dc moves
    = Some (moves + rayCount board color0 (rayFrom n nr nc dr dc)).
Proof.
  intros Hwf. induction n as [|n IH]; intros fuel nr nc moves Hlt Hout.
  - destruct fuel as [|fuel]; [lia|]. cbn [slide rayFrom rayCount].
    replace (nr + Z.of_nat 0 * dr) with nr in Hout by lia.
    replace (nc + Z.of_nat 0 * dc) with nc in Hout by lia.
    rewrite Hout. f_equal. lia.
  - destruct fuel as [|fuel]; [lia|]. cbn [slide rayFrom rayCount].
    destruct (isValidSquare nr nc) eqn:Hv; [|f_equal; lia].
    rewrite board_at_valid by done. cbn [mbind option_bind].
    destruct (pieceAt board nr nc) as [t|].
    + destruct (Color_eqb (color t) color0); f_equal; lia.
    + rewrite IH; [f_equal; lia|lia|].
      rewrite <- Hout. f_equal; lia.
Qed.

Lemma slide_total (board : Board) (color0 : Color) (r c dr dc moves : Z) :
  wf_board board -> isValidSquare r c = true -> slidingDir (dr, dc) ->
  slide 8 board color0 (r + dr) (c + dc) dr dc moves
  = Some (moves + rayCount board color0 (rayFrom 7 (r + dr) (c + dc) dr dc)).
Proof.
  intros Hwf Hv (Hr & Hc & Hne). cbn [fst snd] in *.
  apply slide_rayCount; [done|lia|].
  apply isValidSquare_spec in Hv.
  destruct (isValidSquare _ _) eqn:Hv'; [|done].
  apply isValidSquare_spec in Hv'. lia.
Qed.

Lemma hop_hopCount (board : Board) (color0 : Color) (nr nc moves : Z) :
  wf_board board ->
  hop board color0 nr nc moves = Some (moves + hopCount board color0 (nr, nc)).
Proof.
  intros Hwf. unfold hop, hopCount.
  destruct (isValidSquare nr nc) eqn:Hv; [|f_equal; lia].
  rewrite board_at_valid by done. cbn [mbind option_bind].
  destruct (pieceAt board nr nc) as [t|]; [|done].
  destruct (Color_eqb (color t) color0); f_equal; lia.
Qed.

Lemma slidingDir_rook d : d ∈ rookDirs -> slidingDir d.
Proof.
  unfold rookDirs. rewrite !elem_of_cons, elem_of_nil.
  intros [->|[->|[->|[->|[]]]]]; unfold slidingDir; cbn; lia.
Qed.

Lemma slidingDir_bishop d : d ∈ bishopDirs -> slidingDir d.
Proof.
  unfold bishopDirs. rewrite !elem_of_cons, elem_of_nil.
  intros [->|[->|[->|[->|[]]]]]; unfold slidingDir; cbn; lia.
Qed.

Lemma sliding_fold (board : Board) (color0 : Color) (r c : Z)
    (dirs : list (Z * Z)) :
  wf_board board -> isValidSquare r c = true ->
  (forall d, d ∈ dirs -> slidingDir d) ->
  foldlM (fun moves '(dr, dc) =>
            slide 8 board color0 (r + dr) (c + dc) dr dc moves) 0 dirs
  = Some (slidingCount board color0 r c dirs).
Proof.
  intros Hwf Hv Hd. unfold slidingCount.
  rewrite (foldlM_add _ (fun '(dr, dc) =>
     rayCount board color0 (rayFrom 7 (r + dr) (c + dc) dr dc))); [done|].
  intros [dr dc] acc Hin. apply slide_total; auto.
Qed.

(** [getPieceMobility] returns, and what it returns is [reach]. *)
Lemma getPieceMobility_reach (board : Board) (r c : Z) (t : PieceSymbol)
    (color0 : Color) :
  wf_board board -> isValidSquare r c = true ->
  getPieceMobility board r c t color0 = Some (reach board r c t color0).
Proof.
  intros Hwf Hv. unfold getPieceMobility, reach.
  destruct t; cbn [dirsOf PieceSymbol_eqb negb]; try reflexivity.
  - rewrite (foldlM_add _ (fun '(dr, dc) =>
       hopCount board color0 (r + dr, c + dc))); [done|].
    intros [dr dc] acc _. apply hop_hopCount; done.
  - apply sliding_fold; auto using slidingDir_bishop.
  - apply sliding_fold; auto using slidingDir_rook.
  - apply sliding_fold; [done..|].
    intros d [?|?]%elem_of_app; auto using slidingDir_rook, slidingDir_bishop.
Qed.

Lemma shield_fold (board : Board) (col : Color) (row c : Z) :
  wf_board board -> 0 <= row < 8 ->
  foldlM (fun score f =>
            if (0 <=? f) && (f <? 8) then
              if isValidSquare row f then
                piece ← board_at board row f;
                match piece with
                | Some pc =>
                    if PieceSymbol_eqb (type pc) Pawn && Color_eqb (color pc) col
                    then Some (score + KING_SHIELD_BONUS)
                    else Some score
                | None => Some (score - KING_OPEN_FILE_PENALTY)
                end
              else Some score
            else Some score)
         0 [c - 1; c; c + 1]
  = Some (sumZ (map (shieldAt board col row) [c - 1; c; c + 1])).
Proof.
  intros Hwf Hrow. rewrite (foldlM_add _ (shieldAt board col row)); [done|].
  intros f acc _. unfold shieldAt.
  destruct ((0 <=? f) && (f <? 8)) eqn:Hf; [|f_equal; lia].
  assert (isValidSquare row f = true) as Hv by (apply isValidSquare_spec; lia).
  rewrite Hv, board_at_valid by done. cbn [mbind option_bind].
  destruct (pieceAt board row f) as [pc|]; [|f_equal; lia].
  destruct (PieceSymbol_eqb (type pc) Pawn && Color_eqb (color pc) col);
    f_equal; lia.
Qed.

(** [evaluateKingSafety] returns, for any king square, the pawn shield. *)
Lemma evaluateKingSafety_shield (board : Board) (r c : Z) (isWhite : bool) :
  wf_board board ->
  evaluateKingSafety board r c isWhite
  = Some (shield board (if isWhite then White else Black) r c).
Proof.
  intros Hwf. unfold evaluateKingSafety, shield.
  destruct isWhite.
  - destruct (Z.eqb_spec r 7) as [->|]; [|done].
    change (7 - 1) with 6. apply shield_fold; [done|lia].
  - destruct (Z.eqb_spec r 0) as [->|]; [|done].
    change (0 + 1) with 1. apply shield_fold; [done|lia].
Qed.

(** *** The first pass *)

Lemma readAt_nth (arr : list Z) (i : Z) :
  0 <= i < Z.of_nat (length arr) ->
  readAt arr i = Some (nth (Z.to_nat i) arr 0).
Proof.
  intros Hi. unfold readAt. destruct (0 <=? i) eqn:H0; [|lia].
  destruct (lookup_lt_is_Some_2 arr (Z.to_nat i)) as [x Hx]; [lia|].
  rewrite Hx. f_equal. symmetry. apply nth_lookup_Some with (d := 0) in Hx.
  exact Hx.
Qed.

Lemma PSTS_length (t : PieceSymbol) : length (PSTS t) = 64%nat.
Proof. destruct t; reflexivity. Qed.

Lemma sumOver_cons board f sq l :
  sumOver board f (sq :: l) = sumOver board f [sq] + sumOver board f l.
Proof. unfold sumOver, sumZ. cbn [map foldr]. lia. Qed.

Lemma countOver_cons board t col sq l :
  countOver board t col (sq :: l)
  = countOver board t col [sq] + countOver board t col l.
Proof. unfold countOver, sumZ. cbn [map foldr]. lia. Qed.

Lemma pawnsOnFile_cons board col f sq l :
  pawnsOnFile board col f (sq :: l)
  = pawnsOnFile board col f [sq] + pawnsOnFile board col f l.
Proof.
  unfold pawnsOnFile. destruct sq as [r c]. cbn [List.filter].
  destruct (c =? f); [apply countOver_cons|].
  unfold countOver, sumZ. cbn [map foldr]. lia.
Qed.

Lemma lastKing_cons board col sq l :
  lastKing board col (sq :: l)
  = match lastKing board col l with
    | Some p => Some p
    | None => lastKing board col [sq]
    end.
Proof. destruct sq as [r c]. cbn [lastKing]. by destruct (lastKing board col l). Qed.

Lemma files_rel_nil board col arr : files_rel board col [] arr arr.
Proof.
  split; [done|]. intros f x ->. f_equal.
  unfold pawnsOnFile, countOver, sumZ. cbn. lia.
Qed.

Lemma files_rel_trans board col sq l arr arr1 arr2 :
  files_rel board col [sq] arr arr1 -> files_rel board col l arr1 arr2 ->
  files_rel board col (sq :: l) arr arr2.
Proof.
  intros [Hl1 H1] [Hl2 H2]. split; [congruence|].
  intros f x Hx. rewrite (H2 f _ (H1 f x Hx)), (pawnsOnFile_cons _ _ _ sq l).
  f_equal. lia.
Qed.

Lemma pass1_rel_nil board t : pass1_rel board [] t t.
Proof.
  unfold pass1_rel. cbn [lastKing default].
  unfold sumOver, countOver, sumZ. cbn [map foldr].
  split_and!; try lia; auto using files_rel_nil.
Qed.

Lemma pass1_rel_trans board sq l t t1 t2 :
  pass1_rel board [sq] t t1 -> pass1_rel board l t1 t2 ->
  pass1_rel board (sq :: l) t t2.
Proof.
  intros (Ht & Hwk & Hbk & Hwb & Hbb & Hwf & Hbf)
         (Ht' & Hwk' & Hbk' & Hwb' & Hbb' & Hwf' & Hbf').
  unfold pass1_rel.
  rewrite !(sumOver_cons _ _ sq l), !(countOver_cons _ _ _ sq l),
    !(lastKing_cons _ _ sq l).
  split_and!; eauto using files_rel_trans; try lia.
  - rewrite Hwk', Hwk. by destruct (lastKing board White l).
  - rewrite Hbk', Hbk. by destruct (lastKing board Black l).
Qed.

Lemma sumOver_single board f r c :
  sumOver board f [(r, c)]
  = match pieceAt board r c with Some pc => f r c pc | None => 0 end.
Proof. unfold sumOver, sumZ. cbn [map foldr]. lia. Qed.

Lemma countOver_single board t col r c :
  countOver board t col [(r, c)] = if isPieceAt board t col r c then 1 else 0.
Proof. unfold countOver, sumZ. cbn [map foldr]. lia. Qed.

Lemma pawnsOnFile_single board col f r c :
  pawnsOnFile board col f [(r, c)]
  = if (c =? f) && isPieceAt board Pawn col r c then 1 else 0.
Proof.
  unfold pawnsOnFile. cbn [List.filter]. destruct (c =? f); cbn [andb].
  - apply countOver_single.
  - reflexivity.
Qed.

Lemma files_rel_same board col r c arr :
  isPieceAt board Pawn col r c = false -> files_rel board col [(r, c)] arr arr.
Proof.
  intros Hp. split; [done|]. intros f x ->.
  rewrite pawnsOnFile_single, Hp, andb_false_r. f_equal. lia.
Qed.

Lemma files_rel_incr board col r c arr :
  isPieceAt board Pawn col r c = true -> 0 <= c < Z.of_nat (length arr) ->
  exists arr', incrAt arr c = Some arr' /\ files_rel board col [(r, c)] arr arr'.
Proof.
  intros Hp Hc. unfold incrAt. destruct (0 <=? c) eqn:H0; [|lia].
  destruct (lookup_lt_is_Some_2 arr (Z.to_nat c)) as [x Hx]; [lia|].
  rewrite Hx. cbn [mbind option_bind]. eexists. split; [reflexivity|].
  split; [apply length_insert|].
  intros f y Hy. rewrite pawnsOnFile_single, Hp, andb_true_r.
  unfold readAt in *. destruct (0 <=? f) eqn:Hf; [|done].
  destruct (Z.eqb_spec c f) as [->|Hne].
  - rewrite list_lookup_insert_eq by lia. congruence.
  - rewrite list_lookup_insert_ne by lia. rewrite Hy. f_equal. lia.
Qed.

Lemma isPieceAt_Some board r c pc t col :
  pieceAt board r c = Some pc ->
  isPieceAt board t col r c
  = PieceSymbol_eqb (type pc) t && Color_eqb (color pc) col.
Proof. intros H. unfold isPieceAt. by rewrite H. Qed.

Lemma isPieceAt_None board r c t col :
  pieceAt board r c = None -> isPieceAt board t col r c = false.
Proof. intros H. unfold isPieceAt. by rewrite H. Qed.

(** One iteration of the first pass, on a square of the board. *)
Lemma visit_rel (board : Board) (t : Trackers) (r c : Z) :
  wf_board board -> isValidSquare r c = true ->
  length (whitePawnsPerFile t) = 8%nat ->
  length (blackPawnsPerFile t) = 8%nat ->
  exists t1, visit board t (r, c) = Some t1 /\ pass1_rel board [(r, c)] t t1.
Proof.
  intros Hwf Hv Hlw Hlb. pose proof Hv as Hb. apply isValidSquare_spec in Hb.
  unfold visit. rewrite board_at_valid by done. cbn [mbind option_bind].
  unfold pass1_rel. cbn [lastKing].
  rewrite !sumOver_single, !countOver_single.
  destruct (pieceAt board r c) as [pc|] eqn:Hpc.
  2:{ exists t. rewrite !(isPieceAt_None _ _ _ _ _ Hpc). cbn [default].
      split_and!; try done; try lia;
        apply files_rel_same, isPieceAt_None; done. }
  rewrite !(isPieceAt_Some _ _ _ _ _ _ Hpc).
  cbv zeta. rewrite getPieceMobility_reach by done.
  assert (Hpst : forall i, 0 <= i < 64 ->
            readAt (PSTS (type pc)) i = Some (nth (Z.to_nat i) (PSTS (type pc)) 0)).
  { intros i Hi. apply readAt_nth. rewrite PSTS_length. lia. }
  rewrite !Hpst by lia.
  assert (Hw : forall arr, length arr = 8%nat ->
            isPieceAt board Pawn White r c = true ->
            exists arr', incrAt arr c = Some arr'
                         /\ files_rel board White [(r, c)] arr arr').
  { intros arr Hl Hp. apply files_rel_incr; [done|lia]. }
  assert (Hbl : forall arr, length arr = 8%nat ->
            isPieceAt board Pawn Black r c = true ->
            exists arr', incrAt arr c = Some arr'
                         /\ files_rel board Black [(r, c)] arr arr').
  { intros arr Hl Hp. apply files_rel_incr; [done|lia]. }
  assert (HsameW : forall arr, isPieceAt board Pawn White r c = false ->
            files_rel board White [(r, c)] arr arr)
    by (intros; by apply files_rel_same).
  assert (HsameB : forall arr, isPieceAt board Pawn Black r c = false ->
            files_rel board Black [(r, c)] arr arr)
    by (intros; by apply files_rel_same).
  rewrite (isPieceAt_Some _ _ _ _ Pawn White Hpc) in Hw, HsameW.
  rewrite (isPieceAt_Some _ _ _ _ Pawn Black Hpc) in Hbl, HsameB.
  destruct pc as [ty col]. cbn [type color] in *.
  unfold materialAt, pstAt, mobilityAt, reach, sign, MOBILITY_WEIGHT.
  cbn [type color].
  destruct ty, col;
    cbn [PieceSymbol_eqb Color_eqb negb andb mbind option_bind default
         PIECE_VALUES] in *;
    try (destruct (Hw _ Hlw eq_refl) as (arr' & -> & Harr));
    try (destruct (Hbl _ Hlb eq_refl) as (arr' & -> & Harr));
    cbn [mbind option_bind];
    (eexists; split; [reflexivity|]);
    cbn [totalEvaluation whiteKingPos blackKingPos whiteBishopCount
         blackBishopCount whitePawnsPerFile blackPawnsPerFile];
    split_and!; try done; try lia; 
      try (apply HsameW; reflexivity); try (apply HsameB; reflexivity).
Qed.

Lemma pass1_ok (board : Board) (l : list (Z * Z)) :
  wf_board board ->
  Forall (fun sq => isValidSquare (fst sq) (snd sq) = true) l ->
  forall t,
    length (whitePawnsPerFile t) = 8%nat ->
    length (blackPawnsPerFile t) = 8%nat ->
    exists t', foldlM (visit board) t l = Some t' /\ pass1_rel board l t t'.
Proof.
  intros Hwf. induction 1 as [|[r c] l Hv _ IH]; intros t Hlw Hlb.
  - exists t. split; [done|apply pass1_rel_nil].
  - cbn [fst snd] in Hv.
    destruct (visit_rel board t r c Hwf Hv Hlw Hlb) as (t1 & Hvis & Hrel1).
    pose proof Hrel1 as (_ & _ & _ & _ & _ & [Hl1 _] & [Hl2 _]).
    destruct (IH t1) as (t' & Hfold & Hrel); [congruence..|].
    exists t'. cbn [foldlM]. rewrite Hvis. cbn [mbind option_bind].
    split; [done|]. eapply pass1_rel_trans; done.
Qed.

Lemma squares_valid :
  Forall (fun sq => isValidSquare (fst sq) (snd sq) = true) squares.
Proof. vm_compute. repeat constructor. Qed.

(** *** The second pass *)

Lemma visitRook_rookAt (board : Board) (wpf bpf : list Z) (l : list (Z * Z))
    (total r c : Z) :
  wf_board board -> isValidSquare r c = true ->
  readAt wpf c = Some (pawnsOnFile board White c l) ->
  readAt bpf c = Some (pawnsOnFile board Black c l) ->
  visitRook board wpf bpf total (r, c)
  = Some (total + match pieceAt board r c with
                  | Some pc => rookAt board l r c pc
                  | None => 0
                  end).
Proof.
  intros Hwf Hv Hw Hb. unfold visitRook.
  rewrite board_at_valid by done. cbn [mbind option_bind].
  destruct (pieceAt board r c) as [[ty col]|]; [|f_equal; lia].
  unfold rookAt. cbn [type color].
  destruct ty; cbn [PieceSymbol_eqb]; try (f_equal; lia).
  destruct col; cbn [Color_eqb]; rewrite Hw, Hb; cbn [mbind option_bind];
    unfold sign;
    repeat match goal with |- context [?x =? 0] => destruct (x =? 0) end;
    f_equal; lia.
Qed.

(** ** The evaluation is the sum of its six terms *)

Lemma lastKing_elem board col l sq :
  lastKing board col l = Some sq -> sq ∈ l.
Proof.
  induction l as [|[r c] l IH]; cbn [lastKing]; [done|].
  destruct (lastKing board col l) as [p|].
  - intros [= <-]. right. by apply IH.
  - destruct (isPieceAt board King col r c); [|done].
    intros [= <-]. left.
Qed.

Lemma readAt_zeros (f : Z) :
  0 <= f < 8 -> readAt (replicate 8 0) f = Some 0.
Proof.
  intros Hf. rewrite readAt_nth by (rewrite length_replicate; lia).
  f_equal. apply nth_lookup_Some with (i := Z.to_nat f).
  apply lookup_replicate_2. lia.
Qed.

Theorem evaluateBoard_terms (board : Board) :
  wf_board board ->
  evaluateBoard board
  = Some (material board + pst board + mobility board + rookFiles board
          + bishopPair board
          + kingSafety board White - kingSafety board Black).
Proof.
  intros Hwf. unfold evaluateBoard.
  destruct (pass1_ok board squares Hwf squares_valid initTrackers eq_refl eq_refl)
    as (t & -> & Ht & Hwk & Hbk & Hwb & Hbb & [Hlw Hfw] & [Hlb Hfb]).
  cbn [mbind option_bind].
  cbn [initTrackers totalEvaluation whiteKingPos blackKingPos whiteBishopCount
       blackBishopCount whitePawnsPerFile blackPawnsPerFile] in *.
  rewrite (foldlM_add _ (fun sq =>
     match pieceAt board (fst sq) (snd sq) with
     | Some pc => rookAt board squares (fst sq) (snd sq) pc
     | None => 0
     end)).
  2:{ intros [r c] acc Hin. cbn [fst snd].
      pose proof squares_valid as Hall. rewrite Forall_forall in Hall.
      specialize (Hall _ Hin). cbn [fst snd] in Hall.
      pose proof Hall as Hb. apply isValidSquare_spec in Hb.
      apply visitRook_rookAt; [done..| |].
      - rewrite (Hfw c 0) by (apply readAt_zeros; lia). f_equal; lia.
      - rewrite (Hfb c 0) by (apply readAt_zeros; lia). f_equal; lia. }
  cbn [mbind option_bind].
  assert (Hrook : sumZ (map (fun sq =>
     match pieceAt board (fst sq) (snd sq) with
     | Some pc => rookAt board squares (fst sq) (snd sq) pc
     | None => 0
     end) squares) = rookFiles board).
  { unfold rookFiles, sumOver. apply (f_equal sumZ), map_ext. by intros [r c]. }
  rewrite Hrook, Hwb, Hbb, Ht.
  unfold kingSafety, bishopPair, material, pst, mobility.
  assert (Hking : forall col sq, lastKing board col squares = Some sq ->
                    (fst sq =? -1) = false).
  { intros col sq Hsq%lastKing_elem.
    pose proof squares_valid as Hall. rewrite Forall_forall in Hall.
    specialize (Hall _ Hsq). apply isValidSquare_spec in Hall. lia. }
  destruct (lastKing board White squares) as [[wr wc]|] eqn:HW;
    destruct (lastKing board Black squares) as [[br bc]|] eqn:HB;
    cbn [default from_option id] in Hwk, Hbk; rewrite Hwk, Hbk;
    cbn [fst snd];
    try (pose proof (Hking White _ HW) as KW; cbn [fst] in KW; rewrite KW);
    try (pose proof (Hking Black _ HB) as KB; cbn [fst] in KB; rewrite KB);
    cbn [negb Z.eqb Pos.eqb fst snd];
    rewrite ?evaluateKingSafety_shield by done; cbn [mbind option_bind];
    destruct (2 <=? 0 + countOver board Bishop White squares) eqn:H1;
    destruct (2 <=? 0 + countOver board Bishop Black squares) eqn:H2;
    rewrite ?Z.add_0_l in H1, H2; rewrite ?H1, ?H2; f_equal; lia.
Qed.

End Eval.

(** ** The order on scores *)

(** Case analysis on the scores in sight, then linear arithmetic. *)
Ltac num_crush :=
  intros;
  repeat match goal with x : num |- _ => destruct x end;
  unfold clamp, num_max, num_min, num_ltb, num_leb in *; simpl in *;
  repeat match goal with
         | H : context [?a <=? ?b] |- _ => destruct (Z.leb_spec a b); simpl in H
         | |- context [?a <=? ?b] => destruct (Z.leb_spec a b); simpl
         end;
  try congruence; try lia; try (f_equal; lia);
  try (simplify_eq; first [lia | f_equal; lia | split; first [lia | f_equal; lia]]).

Lemma clamp_full (x : num) : clamp NegInf PosInf x = x.
Proof. num_crush. Qed.

Lemma update_max (m0 s : num) : (if num_ltb m0 s then s else m0) = num_max m0 s.
Proof. num_crush. Qed.

Lemma update_min (m0 s : num) : (if num_ltb s m0 then s else m0) = num_min m0 s.
Proof. num_crush. Qed.

Lemma num_max_assoc (x y z : num) :
  num_max x (num_max y z) = num_max (num_max x y) z.
Proof. num_crush. Qed.

Lemma num_max_comm (x y : num) : num_max x y = num_max y x.
Proof. num_crush. Qed.

Lemma num_min_assoc (x y z : num) :
  num_min x (num_min y z) = num_min (num_min x y) z.
Proof. num_crush. Qed.

Lemma num_min_comm (x y : num) : num_min x y = num_min y x.
Proof. num_crush. Qed.

Lemma num_leb_max_l (m0 s R : num) :
  num_leb (num_max m0 s) R = true -> num_leb m0 R = true /\ num_leb s R = true.
Proof. num_crush. Qed.

Lemma num_leb_min_l (m0 s R : num) :
  num_leb R (num_min m0 s) = true -> num_leb R m0 = true /\ num_leb R s = true.
Proof. num_crush. Qed.

Lemma num_leb_max_mono (m0 a s : num) :
  num_leb m0 a = true -> num_leb (num_max m0 s) (num_max a s) = true.
Proof. num_crush. Qed.

Lemma num_leb_min_mono (m0 b s : num) :
  num_leb b m0 = true -> num_leb (num_min b s) (num_min m0 s) = true.
Proof. num_crush. Qed.

Lemma num_max_NegInf_r (x : num) : num_max x NegInf = x.
Proof. num_crush. Qed.

Lemma num_min_PosInf_r (x : num) : num_min x PosInf = x.
Proof. num_crush. Qed.

Lemma num_max_PosInf_r (x : num) : num_max x PosInf = PosInf.
Proof. num_crush. Qed.

Lemma num_min_NegInf_r (x : num) : num_min x NegInf = NegInf.
Proof. num_crush. Qed.

Lemma num_leb_refl (x : num) : num_leb x x = true.
Proof. num_crush. Qed.

Lemma num_leb_max_self (m0 s : num) : num_leb m0 (num_max m0 s) = true.
Proof. num_crush. Qed.

Lemma num_leb_min_self (m0 s : num) : num_leb (num_min m0 s) m0 = true.
Proof. num_crush. Qed.

(** Within a window that is not empty the two ways of clamping agree. *)
Lemma clamp_dual (a b x : num) :
  num_ltb a b = true -> clamp a b x = num_min b (num_max a x).
Proof. num_crush. Qed.

(** *** The maximizing loop, one iteration *)

Lemma max_done (a b m0 : num) :
  num_leb m0 a = true -> clamp a b m0 = clamp a b NegInf.
Proof. num_crush. Qed.

Lemma clamp_max (a b x y : num) :
  clamp a b (num_max x y) = num_max (clamp a b x) (num_min b y).
Proof. num_crush. Qed.

Lemma clamp_absorb (a b m0 s : num) :
  num_leb m0 a = true -> clamp a b (num_max m0 s) = clamp a b s.
Proof. num_crush. Qed.

Lemma max_cut_aux (a b s V : num) :
  num_leb b (num_max a s) = true ->
  num_max (clamp a b s) (num_min b V) = clamp a b s.
Proof. num_crush. Qed.

Lemma max_next_aux (a b s X : num) :
  num_leb b (num_max a s) = false ->
  num_max (clamp a b s) (num_min b X) = clamp (num_max a s) b X.
Proof. num_crush. Qed.

Lemma max_next_aux2 (a b s R : num) :
  num_leb b (num_max a s) = false -> num_leb s R = true ->
  clamp (num_max a s) b R = clamp a b R.
Proof. num_crush. Qed.

Lemma max_window (a b s : num) :
  num_leb b (num_max a s) = false -> num_ltb (num_max a s) b = true.
Proof. num_crush. Qed.

(** *** The minimizing loop, one iteration *)

Lemma min_done (a b m0 : num) :
  num_ltb a b = true -> num_leb b m0 = true -> clamp a b m0 = clamp a b PosInf.
Proof. num_crush. Qed.

Lemma clamp_min (a b x y : num) :
  num_ltb a b = true ->
  clamp a b (num_min x y) = num_min (clamp a b x) (num_max a y).
Proof. num_crush. Qed.

Lemma clamp_absorb_min (a b m0 s : num) :
  num_leb b m0 = true -> clamp a b (num_min m0 s) = clamp a b s.
Proof. num_crush. Qed.

Lemma min_cut_aux (a b s V : num) :
  num_ltb a b = true ->
  num_leb (num_min b s) a = true ->
  num_min (clamp a b s) (num_max a V) = clamp a b s.
Proof. num_crush. Qed.

Lemma min_next_aux (a b s X : num) :
  num_ltb a b = true ->
  num_leb (num_min b s) a = false ->
  num_min (clamp a b s) (num_max a X) = clamp a (num_min b s) X.
Proof. num_crush. Qed.

Lemma min_next_aux2 (a b s R : num) :
  num_leb (num_min b s) a = false -> num_leb R s = true ->
  clamp a (num_min b s) R = clamp a b R.
Proof. num_crush. Qed.

Lemma min_window (a b s : num) :
  num_leb (num_min b s) a = false -> num_ltb a (num_min b s) = true.
Proof. num_crush. Qed.

(** ** Move ordering *)

Lemma insertMove_Permutation (m : Move) (l : list Move) :
  insertMove m l ≡ₚ m :: l.
Proof.
  induction l as [|x l IH]; cbn [insertMove]; [done|].
  destruct (getMoveScore x <=? getMoveScore m); [done|].
  rewrite IH. apply Permutation_swap.
Qed.

Lemma sortMoves_Permutation (l : list Move) : sortMoves l ≡ₚ l.
Proof.
  induction l as [|x l IH]; cbn [sortMoves foldr]; [done|].
  fold (sortMoves l). rewrite insertMove_Permutation, IH. done.
Qed.

(** ** Alpha-beta search against exhaustive minimax *)

Section SearchCorrect.
Context {E : RulesEngine} {L : EngineLaws E}.

Lemma leaf_static (g : Chess) :
  exists z,
    Evaluation.evaluateBoard (game_board g) = Some z
    /\ leaf g = Some (mkResult None (Fin z), g)
    /\ staticValue g = Some (Fin z).
Proof.
  pose proof (evaluateBoard_terms (game_board g) (board_wf g)) as Hev.
  unfold leaf, staticValue. rewrite Hev. eexists. done.
Qed.

Lemma loopMax_sound (d : nat) (g : Chess) (b : num) :
  sound_at d ->
  forall ms, (forall m, m ∈ ms -> m ∈ game_moves g) ->
  forall a m0 best,
    num_ltb a b = true -> num_leb m0 a = true ->
    exists r vs,
      loopMax (minimax d) ms g a b m0 best = Some (r, g)
      /\ mapM (childValue d g true) ms = Some vs
      /\ clamp a b (bestScore r) = clamp a b (maximum vs)
      /\ num_leb m0 (bestScore r) = true.
Proof.
  intros Hd. induction ms as [|m rest IH]; intros Hin a m0 best Hab Hm0.
  - exists (mkResult best m0), []. simpl. split_and!; auto using num_leb_refl, max_done.
  - destruct (move_undo g m) as (g1 & Hmv & Hun); [apply Hin; left|].
    destruct (Hd g1 a b false Hab) as (r1 & v1 & Hrec & Hex & Hcl).
    assert (Hin' : forall m', m' ∈ rest -> m' ∈ game_moves g)
      by (intros; apply Hin; right; done).
    assert (Hcv : childValue d g true m = Some v1)
      by (unfold childValue; rewrite Hmv; simpl; exact Hex).
    cbn [loopMax]. rewrite Hmv. cbn [mbind option_bind]. rewrite Hrec.
    cbn [mbind option_bind]. rewrite Hun. rewrite !update_max.
    destruct (num_leb b (num_max a (bestScore r1))) eqn:Hcut.
    + destruct (IH Hin' a m0 best Hab Hm0) as (_ & vs & _ & Hvs & _).
      eexists _, (v1 :: vs). split; [reflexivity|].
      split; [cbn [mapM]; rewrite Hcv, Hvs; reflexivity|].
      cbn [bestScore maximum foldr]. split.
      * rewrite clamp_absorb by done. rewrite clamp_max, <- Hcl.
        symmetry. apply max_cut_aux; done.
      * apply num_leb_max_self.
    + destruct (IH Hin' (num_max a (bestScore r1)) (num_max m0 (bestScore r1))
                   (if num_ltb m0 (bestScore r1) then Some m else best))
        as (r & vs & Hloop & Hvs & Hclr & Hle).
      { apply max_window; done. }
      { apply num_leb_max_mono; done. }
      apply num_leb_max_l in Hle as [Hle1 Hle2].
      exists r, (v1 :: vs). split; [exact Hloop|].
      split; [cbn [mapM]; rewrite Hcv, Hvs; reflexivity|].
      split; [|done].
      cbn [maximum foldr]. fold (maximum vs).
      rewrite clamp_max, <- Hcl, max_next_aux by done.
      rewrite <- Hclr. symmetry. apply max_next_aux2; done.
Qed.

Lemma loopMin_sound (d : nat) (g : Chess) (a : num) :
  sound_at d ->
  forall ms, (forall m, m ∈ ms -> m ∈ game_moves g) ->
  forall b m0 best,
    num_ltb a b = true -> num_leb b m0 = true ->
    exists r vs,
      loopMin (minimax d) ms g a b m0 best = Some (r, g)
      /\ mapM (childValue d g false) ms = Some vs
      /\ clamp a b (bestScore r) = clamp a b (minimum vs)
      /\ num_leb (bestScore r) m0 = true.
Proof.
  intros Hd. induction ms as [|m rest IH]; intros Hin b m0 best Hab Hm0.
  - exists (mkResult best m0), []. simpl.
    split_and!; auto using num_leb_refl, min_done.
  - destruct (move_undo g m) as (g1 & Hmv & Hun); [apply Hin; left|].
    destruct (Hd g1 a b true Hab) as (r1 & v1 & Hrec & Hex & Hcl).
    assert (Hin' : forall m', m' ∈ rest -> m' ∈ game_moves g)
      by (intros; apply Hin; right; done).
    assert (Hcv : childValue d g false m = Some v1)
      by (unfold childValue; rewrite Hmv; simpl; exact Hex).
    cbn [loopMin]. rewrite Hmv. cbn [mbind option_bind]. rewrite Hrec.
    cbn [mbind option_bind]. rewrite Hun. rewrite !update_min.
    destruct (num_leb (num_min b (bestScore r1)) a) eqn:Hcut.
    + destruct (IH Hin' b m0 best Hab Hm0) as (_ & vs & _ & Hvs & _).
      eexists _, (v1 :: vs). split; [reflexivity|].
      split; [cbn [mapM]; rewrite Hcv, Hvs; reflexivity|].
      cbn [bestScore minimum foldr]. split.
      * rewrite clamp_absorb_min by done. rewrite clamp_min, <- Hcl by done.
        symmetry. apply min_cut_aux; done.
      * apply num_leb_min_self.
    + destruct (IH Hin' (num_min b (bestScore r1)) (num_min m0 (bestScore r1))
                   (if num_ltb (bestScore r1) m0 then Some m else best))
        as (r & vs & Hloop & Hvs & Hclr & Hle).
      { apply min_window; done. }
      { apply num_leb_min_mono; done. }
      apply num_leb_min_l in Hle as [Hle1 Hle2].
      exists r, (v1 :: vs). split; [exact Hloop|].
      split; [cbn [mapM]; rewrite Hcv, Hvs; reflexivity|].
      split; [|done].
      cbn [minimum foldr]. fold (minimum vs).
      rewrite clamp_min, <- Hcl, min_next_aux by done.
      rewrite <- Hclr. symmetry. apply min_next_aux2; done.
Qed.

(** The exhaustive value does not depend on the order of the moves. *)
Lemma mapM_Permutation {A B : Type} (f : A -> option B) (l l' : list A) :
  l ≡ₚ l' ->
  forall vs, mapM f l = Some vs -> exists vs', mapM f l' = Some vs' /\ vs ≡ₚ vs'.
Proof.
  induction 1 as [|x l l' Hp IH|x y l|l l' l'' _ IH1 _ IH2]; intros vs Hvs.
  - exists vs. done.
  - simpl in *. destruct (f x) as [y|]; [|done]. simpl in *.
    destruct (mapM f l) as [k|] eqn:Hk; [|done].
    destruct (IH k eq_refl) as (k' & -> & Hkk'). simpl in *.
    injection Hvs as <-. exists (y :: k'). split; [done|]. by apply perm_skip.
  - simpl in *. destruct (f y) as [vy|]; [|done].
    destruct (f x) as [vx|]; [|done]. simpl in *.
    destruct (mapM f l) as [k|]; [|done]. simpl in *. injection Hvs as <-.
    exists (vx :: vy :: k). split; [done|]. apply perm_swap.
  - destruct (IH1 vs Hvs) as (vs' & Hvs' & Hp1).
    destruct (IH2 vs' Hvs') as (vs'' & Hvs'' & Hp2).
    exists vs''. split; [done|]. by etrans.
Qed.

Lemma maximum_Permutation (vs vs' : list num) :
  vs ≡ₚ vs' -> maximum vs = maximum vs'.
Proof.
  induction 1 as [|x l l' _ IH|x y l|l l' l'' _ IH1 _ IH2];
    cbn [maximum foldr]; [done| |by rewrite !num_max_assoc, (num_max_comm y x)|].
  - fold (maximum l) (maximum l'). by rewrite IH.
  - by rewrite IH1.
Qed.

Lemma minimum_Permutation (vs vs' : list num) :
  vs ≡ₚ vs' -> minimum vs = minimum vs'.
Proof.
  induction 1 as [|x l l' _ IH|x y l|l l' l'' _ IH1 _ IH2];
    cbn [minimum foldr]; [done| |by rewrite !num_min_assoc, (num_min_comm y x)|].
  - fold (minimum l) (minimum l'). by rewrite IH.
  - by rewrite IH1.
Qed.

Lemma exhaustive_unfold (d : nat) (g : Chess) (mx : bool) :
  exhaustive (S d) g mx =
  if game_isGameOver g then staticValue g
  else vs ← mapM (childValue d g mx) (game_moves g);
       Some (if mx then maximum vs else minimum vs).
Proof. reflexivity. Qed.

Lemma minimax_sound (d : nat) : sound_at d.
Proof.
  induction d as [|d IH]; intros g a b mx Hab.
  - destruct (leaf_static g) as (z & _ & Hl & Hs).
    exists (mkResult None (Fin z)), (Fin z). cbn [minimax exhaustive]. done.
  - rewrite exhaustive_unfold. cbn [minimax].
    destruct (game_isGameOver g).
    { destruct (leaf_static g) as (z & _ & Hl & Hs).
      exists (mkResult None (Fin z)), (Fin z). done. }
    pose proof (sortMoves_Permutation (game_moves g)) as Hp.
    assert (Hin : forall m, m ∈ sortMoves (game_moves g) -> m ∈ game_moves g)
      by (intros m; rewrite Hp; done).
    destruct mx.
    + destruct (loopMax_sound d g b IH _ Hin a NegInf None Hab eq_refl)
        as (r & vs & Hloop & Hvs & Hcl & _).
      destruct (mapM_Permutation _ _ _ Hp vs Hvs) as (vs' & Hvs' & Hpv).
      exists r, (maximum vs'). rewrite Hvs'. split_and!; [done..|].
      rewrite <- (maximum_Permutation _ _ Hpv). done.
    + assert (Hb : num_leb b PosInf = true) by (destruct b; done).
      destruct (loopMin_sound d g a IH _ Hin b PosInf None Hab Hb)
        as (r & vs & Hloop & Hvs & Hcl & _).
      destruct (mapM_Permutation _ _ _ Hp vs Hvs) as (vs' & Hvs' & Hpv).
      exists r, (minimum vs'). rewrite Hvs'. split_and!; [done..|].
      rewrite <- (minimum_Permutation _ _ Hpv). done.
Qed.

(** *** The loops at the root

    With the window [(maxEval, +Infinity)] of the root a child's score and
    its exhaustive value compare alike with the running best, so the loop
    is the plain scan for the first best move. *)

Lemma root_max_eq (m0 s v : num) :
  clamp m0 PosInf s = clamp m0 PosInf v ->
  num_ltb m0 s = num_ltb m0 v /\ num_max m0 s = num_max m0 v.
Proof. num_crush. Qed.

Lemma root_min_eq (m0 s v : num) :
  num_ltb NegInf m0 = true ->
  clamp NegInf m0 s = clamp NegInf m0 v ->
  num_ltb s m0 = num_ltb v m0 /\ num_min m0 s = num_min m0 v.
Proof. num_crush. Qed.

Lemma pickMax_PosInf cands best :
  pickMax cands PosInf best = mkResult best PosInf.
Proof.
  induction cands as [|[m v] rest IH]; cbn [pickMax]; [done|].
  destruct v; exact IH.
Qed.

Lemma pickMin_NegInf cands best :
  pickMin cands NegInf best = mkResult best NegInf.
Proof.
  induction cands as [|[m v] rest IH]; cbn [pickMin]; [done|].
  destruct v; exact IH.
Qed.

Lemma root_max_cut (m0 v : num) :
  num_ltb m0 PosInf = true -> num_leb PosInf (num_max m0 v) = true ->
  v = PosInf.
Proof. num_crush. Qed.

Lemma root_min_cut (m0 v : num) :
  num_ltb NegInf m0 = true -> num_leb (num_min m0 v) NegInf = true ->
  v = NegInf.
Proof. num_crush. Qed.

Lemma pickMax_step m v rest m0 best :
  pickMax ((m, v) :: rest) m0 best
  = pickMax rest (num_max m0 v) (if num_ltb m0 v then Some m else best).
Proof.
  cbn [pickMax]. destruct (num_ltb m0 v) eqn:Hlt; f_equal; num_crush.
Qed.

Lemma pickMin_step m v rest m0 best :
  pickMin ((m, v) :: rest) m0 best
  = pickMin rest (num_min m0 v) (if num_ltb v m0 then Some m else best).
Proof.
  cbn [pickMin]. destruct (num_ltb v m0) eqn:Hlt; f_equal; num_crush.
Qed.

Lemma loopMax_root (d : nat) (g : Chess) :
  forall ms, (forall m, m ∈ ms -> m ∈ game_moves g) ->
  forall m0 best,
    num_ltb m0 PosInf = true ->
    exists vs,
      mapM (childValue d g true) ms = Some vs
      /\ loopMax (minimax d) ms g m0 PosInf m0 best
         = Some (pickMax (zip ms vs) m0 best, g).
Proof.
  induction ms as [|m rest IH]; intros Hin m0 best Hm0.
  - exists []. done.
  - destruct (move_undo g m) as (g1 & Hmv & Hun); [apply Hin; left|].
    destruct (minimax_sound d g1 m0 PosInf false Hm0)
      as (r1 & v1 & Hrec & Hex & Hcl).
    apply root_max_eq in Hcl as [Hlt Hmax].
    assert (Hin' : forall m', m' ∈ rest -> m' ∈ game_moves g)
      by (intros; apply Hin; right; done).
    assert (Hcv : childValue d g true m = Some v1)
      by (unfold childValue; rewrite Hmv; simpl; exact Hex).
    cbn [loopMax]. rewrite Hmv. cbn [mbind option_bind]. rewrite Hrec.
    cbn [mbind option_bind]. rewrite Hun. rewrite !update_max, Hlt, Hmax.
    destruct (num_leb PosInf (num_max m0 v1)) eqn:Hcut.
    + destruct (IH Hin' m0 best Hm0) as (vs & Hvs & _).
      exists (v1 :: vs). split; [cbn [mapM]; rewrite Hcv, Hvs; reflexivity|].
      cbn [zip zip_with]. rewrite pickMax_step.
      pose proof (root_max_cut _ _ Hm0 Hcut) as ->.
      rewrite num_max_PosInf_r, pickMax_PosInf. done.
    + destruct (IH Hin' (num_max m0 v1)
                   (if num_ltb m0 v1 then Some m else best)) as (vs & Hvs & Hl).
      { apply max_window in Hcut. done. }
      exists (v1 :: vs). split; [cbn [mapM]; rewrite Hcv, Hvs; reflexivity|].
      cbn [zip zip_with]. rewrite pickMax_step. exact Hl.
Qed.

Lemma loopMin_root (d : nat) (g : Chess) :
  forall ms, (forall m, m ∈ ms -> m ∈ game_moves g) ->
  forall m0 best,
    num_ltb NegInf m0 = true ->
    exists vs,
      mapM (childValue d g false) ms = Some vs
      /\ loopMin (minimax d) ms g NegInf m0 m0 best
         = Some (pickMin (zip ms vs) m0 best, g).
Proof.
  induction ms as [|m rest IH]; intros Hin m0 best Hm0.
  - exists []. done.
  - destruct (move_undo g m) as (g1 & Hmv & Hun); [apply Hin; left|].
    destruct (minimax_sound d g1 NegInf m0 true Hm0)
      as (r1 & v1 & Hrec & Hex & Hcl).
    apply root_min_eq in Hcl as [Hlt Hmin]; [|done].
    assert (Hin' : forall m', m' ∈ rest -> m' ∈ game_moves g)
      by (intros; apply Hin; right; done).
    assert (Hcv : childValue d g false m = Some v1)
      by (unfold childValue; rewrite Hmv; simpl; exact Hex).
    cbn [loopMin]. rewrite Hmv. cbn [mbind option_bind]. rewrite Hrec.
    cbn [mbind option_bind]. rewrite Hun. rewrite !update_min, Hlt, Hmin.
    destruct (num_leb (num_min m0 v1) NegInf) eqn:Hcut.
    + destruct (IH Hin' m0 best Hm0) as (vs & Hvs & _).
      exists (v1 :: vs). split; [cbn [mapM]; rewrite Hcv, Hvs; reflexivity|].
      cbn [zip zip_with]. rewrite pickMin_step.
      pose proof (root_min_cut _ _ Hm0 Hcut) as ->.
      rewrite num_min_NegInf_r, pickMin_NegInf. done.
    + destruct (IH Hin' (num_min m0 v1)
                   (if num_ltb v1 m0 then Some m else best)) as (vs & Hvs & Hl).
      { apply min_window in Hcut. done. }
      exists (v1 :: vs). split; [cbn [mapM]; rewrite Hcv, Hvs; reflexivity|].
      cbn [zip zip_with]. rewrite pickMin_step. exact Hl.
Qed.

(** The search at the root, when the game is not over, is [rootChoice]. *)
Lemma minimax_root (d : nat) (g : Chess) (mx : bool) :
  game_isGameOver g = false ->
  exists r,
    rootChoice d g mx = Some r
    /\ minimax (S d) g NegInf PosInf mx = Some (r, g).
Proof.
  intros Hover. cbn [minimax]. rewrite Hover. unfold rootChoice.
  assert (Hin : forall m, m ∈ sortMoves (game_moves g) -> m ∈ game_moves g)
    by (intros m; rewrite sortMoves_Permutation; done).
  destruct mx.
  - destruct (loopMax_root d g _ Hin NegInf None eq_refl) as (vs & -> & Hl).
    eexists. split; [reflexivity|exact Hl].
  - destruct (loopMin_root d g _ Hin PosInf None eq_refl) as (vs & -> & Hl).
    eexists. split; [reflexivity|exact Hl].
Qed.

(** *** Every exit path restores the position *)

Lemma loopMax_restores (d : nat) (g : Chess) :
  restores_at d ->
  forall ms, (forall m, m ∈ ms -> m ∈ game_moves g) ->
  forall a b m0 best,
    exists r, loopMax (minimax d) ms g a b m0 best = Some (r, g).
Proof.
  intros Hd. induction ms as [|m rest IH]; intros Hin a b m0 best.
  - eexists. reflexivity.
  - destruct (move_undo g m) as (g1 & Hmv & Hun); [apply Hin; left|].
    destruct (Hd g1 a b false) as (r1 & Hrec).
    cbn [loopMax]. rewrite Hmv. cbn [mbind option_bind]. rewrite Hrec.
    cbn [mbind option_bind]. rewrite Hun.
    destruct (num_leb b (num_max a (bestScore r1))).
    + eexists. reflexivity.
    + apply IH. intros; apply Hin; right; done.
Qed.

Lemma loopMin_restores (d : nat) (g : Chess) :
  restores_at d ->
  forall ms, (forall m, m ∈ ms -> m ∈ game_moves g) ->
  forall a b m0 best,
    exists r, loopMin (minimax d) ms g a b m0 best = Some (r, g).
Proof.
  intros Hd. induction ms as [|m rest IH]; intros Hin a b m0 best.
  - eexists. reflexivity.
  - destruct (move_undo g m) as (g1 & Hmv & Hun); [apply Hin; left|].
    destruct (Hd g1 a b true) as (r1 & Hrec).
    cbn [loopMin]. rewrite Hmv. cbn [mbind option_bind]. rewrite Hrec.
    cbn [mbind option_bind]. rewrite Hun.
    destruct (num_leb (num_min b (bestScore r1)) a).
    + eexists. reflexivity.
    + apply IH. intros; apply Hin; right; done.
Qed.

Lemma minimax_restores (d : nat) : restores_at d.
Proof.
  induction d as [|d IH]; intros g a b mx.
  - destruct (leaf_static g) as (z & _ & Hl & _). eexists. exact Hl.
  - cbn [minimax]. destruct (game_isGameOver g).
    { destruct (leaf_static g) as (z & _ & Hl & _). eexists. exact Hl. }
    assert (Hin : forall m, m ∈ sortMoves (game_moves g) -> m ∈ game_moves g)
      by (intros m; rewrite sortMoves_Permutation; done).
    destruct mx; [apply loopMax_restores|apply loopMin_restores]; done.
Qed.

(** *** What the first-best scan returns *)

Lemma pickMax_score cands m0 best :
  bestScore (pickMax cands m0 best) = num_max m0 (maximum (map snd cands)).
Proof.
  revert m0 best. induction cands as [|[m v] rest IH]; intros m0 best.
  - cbn. by rewrite num_max_NegInf_r.
  - rewrite pickMax_step, IH. cbn [map snd maximum foldr].
    by rewrite num_max_assoc.
Qed.

Lemma pickMin_score cands m0 best :
  bestScore (pickMin cands m0 best) = num_min m0 (minimum (map snd cands)).
Proof.
  revert m0 best. induction cands as [|[m v] rest IH]; intros m0 best.
  - cbn. by rewrite num_min_PosInf_r.
  - rewrite pickMin_step, IH. cbn [map snd minimum foldr].
    by rewrite num_min_assoc.
Qed.

(** The move kept is one of the candidates, and its value is the score. *)
Lemma pickMax_move cands m0 best m :
  bestMove (pickMax cands m0 best) = Some m ->
  (best = Some m /\ bestScore (pickMax cands m0 best) = m0)
  \/ (m, bestScore (pickMax cands m0 best)) ∈ cands.
Proof.
  revert m0 best. induction cands as [|[m' v] rest IH]; intros m0 best Hm.
  - left. cbn in *. done.
  - cbn [pickMax] in *. destruct (num_ltb m0 v) eqn:Hlt.
    + destruct (IH _ _ Hm) as [[[= ->] Hs]|Hin].
      * right. rewrite Hs. left.
      * right. by right.
    + destruct (IH _ _ Hm) as [Hl|Hin]; [by left|right; by right].
Qed.

Lemma pickMin_move cands m0 best m :
  bestMove (pickMin cands m0 best) = Some m ->
  (best = Some m /\ bestScore (pickMin cands m0 best) = m0)
  \/ (m, bestScore (pickMin cands m0 best)) ∈ cands.
Proof.
  revert m0 best. induction cands as [|[m' v] rest IH]; intros m0 best Hm.
  - left. cbn in *. done.
  - cbn [pickMin] in *. destruct (num_ltb v m0) eqn:Hlt.
    + destruct (IH _ _ Hm) as [[[= ->] Hs]|Hin].
      * right. rewrite Hs. left.
      * right. by right.
    + destruct (IH _ _ Hm) as [Hl|Hin]; [by left|right; by right].
Qed.

(** A score above [-Infinity] comes with a move. *)
Lemma pickMax_some cands m0 best :
  (m0 <> NegInf -> best <> None) ->
  bestScore (pickMax cands m0 best) <> NegInf ->
  bestMove (pickMax cands m0 best) <> None.
Proof.
  revert m0 best. induction cands as [|[m v] rest IH]; intros m0 best Hinv.
  - cbn. exact Hinv.
  - cbn [pickMax]. destruct (num_ltb m0 v) eqn:Hlt; apply IH; done.
Qed.

Lemma pickMin_some cands m0 best :
  (m0 <> PosInf -> best <> None) ->
  bestScore (pickMin cands m0 best) <> PosInf ->
  bestMove (pickMin cands m0 best) <> None.
Proof.
  revert m0 best. induction cands as [|[m v] rest IH]; intros m0 best Hinv.
  - cbn. exact Hinv.
  - cbn [pickMin]. destruct (num_ltb v m0) eqn:Hlt; apply IH; done.
Qed.

Lemma mapM_zip_elem {A B : Type} (f : A -> option B) (l : list A)
    (vs : list B) (x : A) (y : B) :
  mapM f l = Some vs -> (x, y) ∈ zip l vs -> x ∈ l /\ f x = Some y.
Proof.
  revert vs. induction l as [|a l IH]; intros vs Hm Hin.
  - cbn in Hin. by apply elem_of_nil in Hin.
  - simpl in Hm. destruct (f a) as [b|] eqn:Hfa; [|done]. simpl in Hm.
    destruct (mapM f l) as [k|] eqn:Hk; [|done]. simpl in Hm.
    injection Hm as <-. cbn [zip zip_with] in Hin.
    apply elem_of_cons in Hin as [[= -> ->]|Hin].
    + split; [left|done].
    + destruct (IH k eq_refl Hin) as [? ?]. split; [by right|done].
Qed.

Lemma mapM_length {A B : Type} (f : A -> option B) (l : list A) (vs : list B) :
  mapM f l = Some vs -> length vs = length l.
Proof.
  revert vs. induction l as [|a l IH]; intros vs Hm; simpl in Hm.
  - by injection Hm as <-.
  - destruct (f a) as [b|]; [|done]. simpl in Hm.
    destruct (mapM f l) as [k|] eqn:Hk; [|done]. simpl in Hm.
    injection Hm as <-. cbn. f_equal. by apply IH.
Qed.

(** The move chosen at the root attains the exhaustive value of the
    position, and that value is the score returned. *)
Lemma rootChoice_optimal (d : nat) (g : Chess) (mx : bool) (r : MinimaxResult) :
  game_isGameOver g = false ->
  rootChoice d g mx = Some r ->
  exhaustive (S d) g mx = Some (bestScore r)
  /\ forall m, bestMove r = Some m ->
       m ∈ game_moves g /\ childValue d g mx m = Some (bestScore r).
Proof.
  intros Hover. unfold rootChoice.
  destruct (mapM _ (sortMoves _)) as [vs|] eqn:Hvs; [|done].
  cbn [mbind option_bind]. intros [= <-].
  destruct (mapM_Permutation _ _ _ (sortMoves_Permutation (game_moves g)) vs Hvs)
    as (vs' & Hvs' & Hp).
  assert (Hsnd : map snd (zip (sortMoves (game_moves g)) vs) = vs).
  { apply snd_zip. apply mapM_length in Hvs. lia. }
  split.
  - rewrite exhaustive_unfold, Hover, Hvs'. cbn [mbind option_bind]. f_equal.
    destruct mx.
    + rewrite pickMax_score, Hsnd. cbn [num_max num_leb].
      symmetry. by apply maximum_Permutation.
    + rewrite pickMin_score, Hsnd, num_min_comm, num_min_PosInf_r.
      symmetry. by apply minimum_Permutation.
  - intros m Hm. destruct mx.
    + apply pickMax_move in Hm as [[? _]|Hin]; [done|].
      destruct (mapM_zip_elem _ _ _ _ _ Hvs Hin) as [Hel Hcv].
      split; [|done]. by rewrite <- (sortMoves_Permutation (game_moves g)).
    + apply pickMin_move in Hm as [[? _]|Hin]; [done|].
      destruct (mapM_zip_elem _ _ _ _ _ Hvs Hin) as [Hel Hcv].
      split; [|done]. by rewrite <- (sortMoves_Permutation (game_moves g)).
Qed.

End SearchCorrect.

(** ** The small rules engine keeps the contract *)

Module MiniChessLaws.
Import MiniChess.

Lemma optPiece_eqb_refl x : optPiece_eqb x x = true.
Proof. destruct x as [[]|]; reflexivity. Qed.

Lemma sameMove_toMove b s mv : sameMove (toMove b s mv) mv = true.
Proof.
  unfold sameMove, toMove. cbn [from to promotion].
  rewrite !String.eqb_refl, optPiece_eqb_refl. reflexivity.
Qed.

Lemma move_undo (g : State) (m : Move) :
  m ∈ moves g -> exists g', move g m = Some g' /\ undo g' = g.
Proof.
  unfold moves, move. intros (mv & -> & Hmv)%list_elem_of_fmap.
  destruct (List.find _ _) as [mv'|] eqn:Hfind.
  - eexists. split; [reflexivity|]. destruct g; reflexivity.
  - apply list_elem_of_In in Hmv.
    pose proof (find_none _ _ Hfind _ Hmv) as Hno.
    by rewrite sameMove_toMove in Hno.
Qed.

Lemma view_wf (g : State) : wf_board (view g).
Proof.
  unfold view, normalize. split; [reflexivity|].
  unfold rows8. repeat constructor.
Qed.

#[export] Instance laws : EngineLaws engine.
Proof. split; [exact move_undo|exact view_wf]. Qed.

Lemma noMovesIsOver : NoMovesIsOver engine.
Proof.
  intros g. cbn [game_isGameOver game_moves engine].
  unfold isGameOver, moves.
  destruct (legalMvs (view g) (side g)); [done|]. intros _. done.
Qed.

End MiniChessLaws.

(** ** The engine with the half-move clock keeps the contract too *)

Module ClockChessLaws.
Import ClockChess.

Lemma clock_move_undo (g : State) (m : Move) :
  m ∈ moves g -> exists g', move g m = Some g' /\ undo g' = g.
Proof.
  unfold moves, move. intros Hm.
  destruct (MiniChessLaws.move_undo (pos g) m Hm) as (p & -> & Hp).
  cbn [mbind option_bind]. eexists. split; [reflexivity|].
  unfold undo. cbn [clocks pos]. rewrite Hp. by destruct g.
Qed.

Lemma clock_laws : EngineLaws engine.
Proof.
  split; [exact clock_move_undo|]. intros g. apply MiniChessLaws.view_wf.
Qed.

(** Two positions that differ in their clocks only agree as deep as neither
    clock can reach 100. *)
Lemma agree_clock (d : nat) :
  forall (p : MiniChess.State) (c1 c2 : Z) (cs1 cs2 : list Z),
    0 <= c1 -> 0 <= c2 ->
    c1 + Z.of_nat d < 100 -> c2 + Z.of_nat d < 100 ->
    agree (E := engine) d (mkState p c1 cs1) (mkState p c2 cs2).
Proof.
  induction d as [|d IH]; intros p c1 c2 cs1 cs2 H1 H2 Hd1 Hd2;
    cbn [agree game_board game_turn game_isGameOver game_moves game_move engine];
    unfold isGameOver, moves; cbn [pos halfMoves].
  - split_and!; try done.
    destruct (Z.leb_spec 100 c1), (Z.leb_spec 100 c2); try lia. done.
  - split_and!; try done.
    { destruct (Z.leb_spec 100 c1), (Z.leb_spec 100 c2); try lia. done. }
    intros m g1' g2' _. unfold move. cbn [pos halfMoves clocks].
    destruct (MiniChess.move p m) as [p'|]; [|done].
    cbn [mbind option_bind]. intros [= <-] [= <-].
    apply IH; destruct (resets m); lia.
Qed.

End ClockChessLaws.

(** ** Stability of the move ordering *)

Lemma insertMove_filter (k : Z) (m : Move) (l : list Move) :
  List.filter (fun x => getMoveScore x =? k) (insertMove m l)
  = List.filter (fun x => getMoveScore x =? k) (m :: l).
Proof.
  induction l as [|x l IH]; [done|].
  cbn [insertMove]. destruct (Z.leb_spec (getMoveScore x) (getMoveScore m)); [done|].
  cbn [List.filter] in *. rewrite IH.
  destruct (Z.eqb_spec (getMoveScore x) k), (Z.eqb_spec (getMoveScore m) k);
    try done; lia.
Qed.

Lemma sortMoves_filter (k : Z) (l : list Move) :
  List.filter (fun x => getMoveScore x =? k) (sortMoves l)
  = List.filter (fun x => getMoveScore x =? k) l.
Proof.
  induction l as [|x l IH]; [done|].
  cbn [sortMoves foldr]. fold (sortMoves l).
  rewrite insertMove_filter. cbn [List.filter]. by rewrite IH.
Qed.

Lemma insertMove_descending (m : Move) (l : list Move) :
  descending l -> descending (insertMove m l).
Proof.
  unfold descending. induction 1 as [|x l Hs IH Hx]; cbn [insertMove].
  - repeat constructor.
  - destruct (Z.leb_spec (getMoveScore x) (getMoveScore m)).
    + constructor; [by constructor|]. constructor; [done|].
      eapply Forall_impl; [exact Hx|]. cbn. intros; lia.
    + constructor; [done|].
      rewrite insertMove_Permutation. constructor; [lia|done].
Qed.

Lemma sortMoves_descending (l : list Move) : descending (sortMoves l).
Proof.
  induction l as [|x l IH]; cbn [sortMoves foldr]; [constructor|].
  by apply insertMove_descending.
Qed.

(** ** The random index of the Easy tier

    The product of the random number and the number of moves is rounded to
    binary64 before [Math.floor] is taken. *)

Lemma pow2_pos (e : Z) : (0 < pow2 e)%Q.
Proof. apply Qpower_0_lt. reflexivity. Qed.

Lemma pow2_add (a b : Z) : (pow2 (a + b) == pow2 a * pow2 b)%Q.
Proof. apply Qpower_plus. discriminate. Qed.

Lemma pow2_Z (k : Z) : 0 <= k -> (pow2 k == inject_Z (2 ^ k))%Q.
Proof. intros Hk. symmetry. apply (Zpower_Qpower 2 k Hk). Qed.

Lemma pow2_le (a b : Z) : a <= b -> (pow2 a <= pow2 b)%Q.
Proof. intros H. apply Qpower_le_compat_l; [done|]. discriminate. Qed.

Lemma roundEven_near (y : Q) :
  (inject_Z (roundEven y) - y <= 1 # 2)%Q /\ (y - inject_Z (roundEven y) <= 1 # 2)%Q.
Proof.
  unfold roundEven.
  pose proof (Qfloor_le y) as Hlo. pose proof (Qlt_floor y) as Hhi.
  rewrite inject_Z_plus in Hhi. change (inject_Z 1) with 1%Q in Hhi.
  destruct (Qcompare_spec (y - inject_Z (Qfloor y)) (1 # 2)) as [He|Hl|Hg].
  - destruct (Z.even (Qfloor y)); rewrite ?inject_Z_plus;
      change (inject_Z 1) with 1%Q; split; lra.
  - split; lra.
  - rewrite inject_Z_plus. change (inject_Z 1) with 1%Q. split; lra.
Qed.

Lemma roundEven_nonneg (y : Q) : (0 <= y)%Q -> 0 <= roundEven y.
Proof.
  intros Hy. pose proof (Qfloor_resp_le 0 y Hy) as Hf.
  change (Qfloor 0) with 0 in Hf. unfold roundEven.
  destruct (_ ?= _)%Q; [destruct (Z.even _)|..]; lia.
Qed.

Lemma Qlog2_le (x : Q) : (0 < x)%Q -> (pow2 (Qlog2 x) <= x)%Q.
Proof.
  intros Hx. unfold Qlog2.
  destruct (Qle_bool _ x) eqn:Hb; [by apply Qle_bool_iff|]. clear Hb.
  destruct x as [a b]. cbn [Qnum Qden].
  assert (Ha : 0 < a) by (unfold Qlt in Hx; cbn in Hx; lia).
  pose proof (Z.log2_spec a Ha) as [Hla _].
  pose proof (Z.log2_spec (Zpos b) ltac:(lia)) as [_ Hlb].
  pose proof (Z.log2_nonneg a) as Hna.
  pose proof (Z.log2_nonneg (Zpos b)) as Hnb.
  set (la := Z.log2 a) in *. set (lb := Z.log2 (Zpos b)) in *.
  assert (Hpa : (pow2 la <= inject_Z a)%Q).
  { rewrite pow2_Z by done. by rewrite <- Zle_Qle. }
  assert (Hpb : (inject_Z (Zpos b) < pow2 (lb + 1))%Q).
  { rewrite pow2_Z by lia. rewrite <- Zlt_Qlt. by replace (lb + 1) with (Z.succ lb) by lia. }
  assert (Hsplit : (pow2 la == pow2 (la - lb - 1) * pow2 (lb + 1))%Q).
  { rewrite <- pow2_add. by replace (la - lb - 1 + (lb + 1)) with la by lia. }
  pose proof (pow2_pos (la - lb - 1)) as Hp.
  rewrite (Qmake_Qdiv a b). apply Qle_shift_div_l; [reflexivity|].
  set (B := inject_Z (Zpos b)) in *. set (P := pow2 (la - lb - 1)) in *.
  assert (P * B <= P * pow2 (lb + 1))%Q.
  { apply Qmult_le_l; [done|]. by apply Qlt_le_weak. }
  lra.
Qed.

Lemma toDouble_close (x N : Q) :
  (0 <= x)%Q -> (x < N)%Q -> (1 <= N)%Q -> (N <= pow2 1023)%Q ->
  exists r,
    toDouble x = Some r
    /\ (0 <= r)%Q
    /\ (x - N * pow2 (-53) < r)%Q
    /\ (r < x + N * pow2 (-53))%Q.
Proof.
  intros H0 HN H1 Hmax. unfold toDouble.
  change (pow2 (-53)) with (1 # 9007199254740992)%Q.
  destruct (Qeq_bool x 0) eqn:Hz.
  { apply Qeq_bool_iff in Hz. exists 0%Q. split; [done|]. lra. }
  assert (Hx : (0 < x)%Q).
  { destruct (Qlt_le_dec 0 x) as [|Hle]; [done|].
    assert (x == 0)%Q as He by lra. apply Qeq_bool_iff in He. congruence. }
  clear Hz.
  assert (Habs : Qabs x = x).
  { destruct x as [a b]. unfold Qle in H0. cbn in H0. cbn.
    by rewrite Z.abs_eq by lia. }
  rewrite Habs. pose proof (Qlog2_le x Hx) as Hlog.
  set (e := Qlog2 x) in *. set (q := Z.max (e - 52) (-1074)).
  pose proof (pow2_pos q) as Hq.
  assert (Hquant : (pow2 q < N * (1 # 4503599627370496))%Q).
  { unfold q. destruct (Z.max_spec (e - 52) (-1074)) as [[_ ->]|[_ ->]].
    - assert (pow2 (-1074) < 1 # 4503599627370496)%Q by reflexivity. lra.
    - replace (e - 52) with (e + -52) by lia. rewrite pow2_add.
      change (pow2 (-52)) with (1 # 4503599627370496)%Q. lra. }
  set (D := pow2 q) in *. set (y := (x / D)%Q).
  assert (Hy : (y * D == x)%Q).
  { unfold y. field. lra. }
  assert (Hy0 : (0 <= y)%Q).
  { unfold y. apply Qle_shift_div_l; [done|]. lra. }
  pose proof (roundEven_near y) as [Hup Hdown].
  pose proof (roundEven_nonneg y Hy0) as Hk.
  rewrite Zle_Qle in Hk. change (inject_Z 0) with 0%Q in Hk.
  set (K := inject_Z (roundEven y)) in *.
  assert (Hup' : ((K - y) * D <= (1 # 2) * D)%Q)
    by (apply Qmult_le_compat_r; lra).
  assert (Hdown' : ((y - K) * D <= (1 # 2) * D)%Q)
    by (apply Qmult_le_compat_r; lra).
  assert (Hr0 : (0 <= K * D)%Q) by (apply Qmult_le_0_compat; lra).
  assert (Hlo : (x - N * (1 # 9007199254740992) < K * D)%Q) by lra.
  assert (Hhi : (K * D < x + N * (1 # 9007199254740992))%Q) by lra.
  destruct (Qle_bool (pow2 1024) (Qabs (K * D))) eqn:Hover.
  { apply Qle_bool_iff in Hover. rewrite (Qabs_pos _ Hr0) in Hover.
    assert (pow2 1024 == 2 * pow2 1023)%Q by reflexivity. lra. }
  exists (K * D)%Q. done.
Qed.

Lemma double_below_one (r : Q) :
  isDouble r -> (r < 1)%Q -> (r <= 1 - pow2 (-53))%Q.
Proof.
  intros (m & e & Hm & He & Hr) Hlt. pose proof (pow2_pos e) as Hp.
  change (pow2 (-53)) with (1 # 9007199254740992)%Q.
  destruct (Z.le_gt_cases m 0) as [Hneg|Hpos].
  { rewrite Zle_Qle in Hneg. change (inject_Z 0) with 0%Q in Hneg.
    assert (inject_Z m * pow2 e <= 0 * pow2 e)%Q
      by (apply Qmult_le_compat_r; lra). lra. }
  destruct (Z.le_gt_cases 0 e) as [He0|He0].
  { rewrite (pow2_Z e He0), <- inject_Z_mult in Hr.
    assert (1 <= m * 2 ^ e) as Hge by (pose proof (Z.pow_pos_nonneg 2 e); nia).
    rewrite Zle_Qle in Hge. change (inject_Z 1) with 1%Q in Hge. lra. }
  set (k := - e). assert (Hk : 0 < k) by lia.
  assert (Hinv : (pow2 e * inject_Z (2 ^ k) == 1)%Q).
  { rewrite <- (pow2_Z k) by lia. rewrite <- pow2_add.
    replace (e + k) with 0 by lia. reflexivity. }
  assert (Hpk : 0 < 2 ^ k) by (apply Z.pow_pos_nonneg; lia).
  assert (HrP : (r * inject_Z (2 ^ k) == inject_Z m)%Q).
  { rewrite Hr, <- Qmult_assoc, Hinv. ring. }
  assert (HmP : m < 2 ^ k).
  { rewrite Zlt_Qlt. rewrite <- HrP.
    rewrite <- (Qmult_1_l (inject_Z (2 ^ k))) at 2.
    apply Qmult_lt_compat_r; [|done].
    change 0%Q with (inject_Z 0). by rewrite <- Zlt_Qlt. }
  assert (Hgoal : m * 2 ^ 53 <= 2 ^ k * (2 ^ 53 - 1)).
  { destruct (Z.le_gt_cases 53 k) as [Hk53|Hk53].
    - assert (2 ^ 53 <= 2 ^ k) by (apply Z.pow_le_mono_r; lia). nia.
    - assert (2 ^ k <= 2 ^ 53) by (apply Z.pow_le_mono_r; lia). nia. }
  rewrite Zle_Qle in Hgoal. rewrite !inject_Z_mult, <- HrP in Hgoal.
  assert (HP : (0 < inject_Z (2 ^ k))%Q).
  { change 0%Q with (inject_Z 0). by rewrite <- Zlt_Qlt. }
  set (P := inject_Z (2 ^ k)) in *.
  change (inject_Z (2 ^ 53)) with (9007199254740992%Q) in Hgoal.
  change (inject_Z (2 ^ 53 - 1)) with (9007199254740991%Q) in Hgoal.
  apply (Qmult_le_r _ _ (P * 9007199254740992)%Q); [nra|].
  lra.
Qed.

(** [Math.floor (random * n)] for [n] the length of an array: the rounded
    product stays below [n]. *)
Lemma randomIndex_range (random : Q) (n : Z) :
  isDouble random -> (0 <= random)%Q -> (random < 1)%Q ->
  0 < n < 2 ^ 32 ->
  exists r,
    toDouble (random * inject_Z n) = Some r /\ 0 <= Qfloor r < n.
Proof.
  intros Hd H0 H1 Hn. pose proof (double_below_one random Hd H1) as Hb.
  change (pow2 (-53)) with (1 # 9007199254740992)%Q in Hb.
  assert (HN : (1 <= inject_Z n)%Q).
  { change 1%Q with (inject_Z 1). rewrite <- Zle_Qle. lia. }
  assert (HN' : (inject_Z n <= pow2 1023)%Q).
  { assert (inject_Z n <= inject_Z (2 ^ 32))%Q by (rewrite <- Zle_Qle; lia).
    assert (inject_Z (2 ^ 32) <= pow2 1023)%Q by (vm_compute; discriminate).
    lra. }
  set (N := inject_Z n) in *.
  assert (Hx0 : (0 <= random * N)%Q) by (apply Qmult_le_0_compat; lra).
  assert (Hx1 : (random * N <= (1 - (1 # 9007199254740992)) * N)%Q)
    by (apply Qmult_le_compat_r; lra).
  destruct (toDouble_close (random * N) N Hx0 ltac:(lra) HN HN')
    as (r & Hr & Hr0 & _ & Hhi).
  change (pow2 (-53)) with (1 # 9007199254740992)%Q in Hhi.
  exists r. split; [done|]. split.
  - change 0 with (Qfloor 0). by apply Qfloor_resp_le.
  - rewrite Zlt_Qlt. eapply Qle_lt_trans; [apply Qfloor_le|]. fold N. lra.
Qed.

Lemma floor_between (x : Q) (i : Z) :
  (inject_Z i <= x)%Q -> (x < inject_Z i + 1)%Q -> Qfloor x = i.
Proof.
  intros Hlo Hhi.
  assert (i <= Qfloor x).
  { rewrite <- (Qfloor_Z i). by apply Qfloor_resp_le. }
  assert (Qfloor x < i + 1).
  { rewrite Zlt_Qlt, inject_Z_plus. change (inject_Z 1) with 1%Q.
    eapply Qle_lt_trans; [apply Qfloor_le|done]. }
  lia.
Qed.

Lemma randomIndex_interior (x : Q) (n i : Z) :
  0 <= i < n -> n < 2 ^ 32 ->
  (inject_Z i + inject_Z n * pow2 (-53) <= x)%Q ->
  (x <= inject_Z i + 1 - inject_Z n * pow2 (-53))%Q ->
  exists r, toDouble x = Some r /\ Qfloor r = i.
Proof.
  intros Hi Hn Hlo Hhi.
  change (pow2 (-53)) with (1 # 9007199254740992)%Q in Hlo, Hhi.
  assert (HN : (1 <= inject_Z n)%Q).
  { change 1%Q with (inject_Z 1). rewrite <- Zle_Qle. lia. }
  assert (HN' : (inject_Z n <= pow2 1023)%Q).
  { assert (inject_Z n <= inject_Z (2 ^ 32))%Q by (rewrite <- Zle_Qle; lia).
    assert (inject_Z (2 ^ 32) <= pow2 1023)%Q by (vm_compute; discriminate).
    lra. }
  assert (Hi0 : (0 <= inject_Z i)%Q).
  { change 0%Q with (inject_Z 0). rewrite <- Zle_Qle. lia. }
  assert (Hi1 : (inject_Z i + 1 <= inject_Z n)%Q).
  { change 1%Q with (inject_Z 1). rewrite <- inject_Z_plus, <- Zle_Qle. lia. }
  set (N := inject_Z n) in *. set (I := inject_Z i) in *.
  destruct (toDouble_close x N ltac:(lra) ltac:(lra) HN HN')
    as (r & Hr & _ & Hrlo & Hrhi).
  change (pow2 (-53)) with (1 # 9007199254740992)%Q in Hrlo, Hrhi.
  exists r. split; [done|]. apply floor_between; fold I; lra.
Qed.

Lemma randomIndex_onto (n i : Z) :
  0 <= i < n -> n < 2 ^ 32 ->
  exists random r,
    isDouble random /\ (0 <= random)%Q /\ (random < 1)%Q
    /\ toDouble (random * inject_Z n) = Some r /\ Qfloor r = i.
Proof.
  intros Hi Hn. set (j := (2 * i + 1) * 2 ^ 51 / n).
  assert (Hj1 : n * j <= (2 * i + 1) * 2 ^ 51) by (apply Z.mul_div_le; lia).
  assert (Hj2 : (2 * i + 1) * 2 ^ 51 < n * Z.succ j)
    by (apply Z.mul_succ_div_gt; lia).
  assert (Hj0 : 0 <= j) by (apply Z.div_pos; lia).
  assert (Hj3 : j < 2 ^ 52) by (apply Z.div_lt_upper_bound; lia).
  assert (Hlo : i * 2 ^ 53 + n <= 2 * (n * j)) by lia.
  assert (Hhi : 2 * (n * j) + n <= (i + 1) * 2 ^ 53) by lia.
  assert (Habs : Z.abs j < 2 ^ 53) by lia.
  clear Hj1 Hj2.
  rewrite Zle_Qle in Hlo, Hhi, Hj0. rewrite Zlt_Qlt in Hj3.
  repeat (rewrite inject_Z_plus in Hlo || rewrite inject_Z_mult in Hlo).
  repeat (rewrite inject_Z_plus in Hhi || rewrite inject_Z_mult in Hhi).
  change (inject_Z 2) with 2%Q in *. change (inject_Z 1) with 1%Q in *.
  change (inject_Z 0) with 0%Q in *.
  change (inject_Z (2 ^ 53)) with 9007199254740992%Q in *.
  change (inject_Z (2 ^ 52)) with 4503599627370496%Q in *.
  exists (inject_Z j * pow2 (-52))%Q.
  change (pow2 (-52)) with (1 # 4503599627370496)%Q.
  assert (HT : (inject_Z j * (1 # 4503599627370496) * inject_Z n
                == inject_Z n * inject_Z j * (1 # 4503599627370496))%Q) by ring.
  set (T := (inject_Z n * inject_Z j)%Q) in *.
  destruct (randomIndex_interior
              (inject_Z j * (1 # 4503599627370496) * inject_Z n) n i Hi Hn)
    as (r & Hr & Hf).
  - change (pow2 (-53)) with (1 # 9007199254740992)%Q. rewrite HT. lra.
  - change (pow2 (-53)) with (1 # 9007199254740992)%Q. rewrite HT. lra.
  - exists r. split; [|split; [|split]]; try done.
    + exists j, (-52). split; [done|]. split; [lia|]. reflexivity.
    + lra.
    + lra.
Qed.


(** ** Finite scores *)

Section Finite.
Context {E : RulesEngine} {L : EngineLaws E}.
Hypothesis Hno : NoMovesIsOver E.

Lemma maximum_finite (vs : list num) :
  vs <> [] -> Forall finite vs -> finite (maximum vs).
Proof.
  induction 2 as [|v vs [z ->] Hvs IH]; [done|].
  cbn [maximum foldr]. fold (maximum vs).
  destruct vs as [|v' vs']; [by exists z|].
  destruct IH as [z' ->]; [done|]. unfold num_max. cbn.
  destruct (z <=? z'); eexists; done.
Qed.

Lemma minimum_finite (vs : list num) :
  vs <> [] -> Forall finite vs -> finite (minimum vs).
Proof.
  induction 2 as [|v vs [z ->] Hvs IH]; [done|].
  cbn [minimum foldr]. fold (minimum vs).
  destruct vs as [|v' vs']; [by exists z|].
  destruct IH as [z' ->]; [done|]. unfold num_min. cbn.
  destruct (z <=? z'); eexists; done.
Qed.

Lemma exhaustive_finite (d : nat) (g : Chess) (mx : bool) (v : num) :
  exhaustive d g mx = Some v -> finite v.
Proof.
  revert g mx v. induction d as [|d IH]; intros g mx v.
  - cbn [exhaustive]. destruct (leaf_static g) as (z & _ & _ & ->).
    intros [= <-]. by exists z.
  - rewrite exhaustive_unfold. destruct (game_isGameOver g) eqn:Hover.
    { destruct (leaf_static g) as (z & _ & _ & ->). intros [= <-]. by exists z. }
    destruct (mapM _ _) as [vs|] eqn:Hvs; [|done].
    cbn [mbind option_bind]. intros [= <-].
    assert (Hne : vs <> []).
    { intros ->. apply mapM_length in Hvs. apply (Hno g Hover).
      by apply length_zero_iff_nil. }
    assert (Hfin : Forall finite vs).
    { apply mapM_Some in Hvs. clear Hne.
      induction Hvs as [|m w ms ws Hmw _ IHf]; constructor; [|done].
      unfold childValue in Hmw. destruct (game_move g m); [|done].
      by apply IH in Hmw. }
    destruct mx; [by apply maximum_finite|by apply minimum_finite].
Qed.

(** When the game is not over the root keeps a move. *)
Lemma rootChoice_some (d : nat) (g : Chess) (mx : bool) (r : MinimaxResult) :
  game_isGameOver g = false ->
  rootChoice d g mx = Some r -> bestMove r <> None.
Proof.
  intros Hover Hr.
  destruct (rootChoice_optimal d g mx r Hover Hr) as [Hex _].
  apply exhaustive_finite in Hex as [z Hz].
  unfold rootChoice in Hr.
  destruct (mapM _ _) as [vs|]; [|done]. cbn [mbind option_bind] in Hr.
  injection Hr as <-. destruct mx.
  - apply pickMax_some; [done|]. by rewrite Hz.
  - apply pickMin_some; [done|]. by rewrite Hz.
Qed.

End Finite.

(** ** The shape of [getBestMove] *)

Section GetBestMove.
Context {E : RulesEngine} {L : EngineLaws E}.

Lemma getBestMove_none (random : Q) (g : Chess) (difficulty : Difficulty) :
  game_moves g = [] -> getBestMove random g difficulty = Some (None, g).
Proof. intros Hm. unfold getBestMove. by rewrite Hm. Qed.

Lemma getBestMove_search (random : Q) (g : Chess) (difficulty : Difficulty) :
  game_moves g <> [] -> difficulty <> Easy ->
  exists r,
    minimax (depthOf difficulty) g NegInf PosInf
            (Color_eqb (game_turn g) White) = Some (r, g)
    /\ getBestMove random g difficulty
       = Some (match bestMove r with
               | Some m => Some m
               | None => head (game_moves g)
               end, g).
Proof.
  intros Hm Hd.
  destruct (minimax_restores (depthOf difficulty) g NegInf PosInf
              (Color_eqb (game_turn g) White)) as (r & Hr).
  exists r. split; [done|]. unfold getBestMove.
  destruct (game_moves g) as [|m0 ms] eqn:Hms; [done|].
  cbn [length Nat.eqb].
  destruct difficulty; [done| |]; cbn [depthOf] in *; rewrite Hr; done.
Qed.

Lemma getBestMove_easy (random : Q) (g : Chess) :
  game_moves g <> [] ->
  getBestMove random g Easy
  = Some ((Qfloor <$> toDouble (random
                                * inject_Z (Z.of_nat (length (game_moves g)))))
          ≫= moveAt (game_moves g),
          g).
Proof.
  intros Hm. unfold getBestMove.
  destruct (game_moves g) as [|m0 ms]; [done|]. done.
Qed.

(** At Easy a move of the list is returned: the rounded product is a
    number of [0, length). *)
Lemma getBestMove_easy_index (random : Q) (g : Chess) :
  isDouble random -> (0 <= random)%Q -> (random < 1)%Q ->
  game_moves g <> [] -> Z.of_nat (length (game_moves g)) < 2 ^ 32 ->
  exists (product : Q) (i : nat) (m : Move),
    toDouble (random * inject_Z (Z.of_nat (length (game_moves g))))
    = Some product
    /\ Z.of_nat i = Qfloor product
    /\ game_moves g !! i = Some m
    /\ getBestMove random g Easy = Some (Some m, g).
Proof.
  intros Hd H0 H1 Hm Hlen. rewrite getBestMove_easy by done.
  destruct (randomIndex_range random (Z.of_nat (length (game_moves g))) Hd H0 H1)
    as (product & Hp & Hi).
  { split; [|done]. destruct (game_moves g); [done|]. cbn [length]. lia. }
  rewrite Hp. cbn [fmap option_fmap option_map mbind option_bind].
  unfold moveAt. destruct (0 <=? Qfloor product) eqn:Hi0; [|lia].
  destruct (lookup_lt_is_Some_2 (game_moves g) (Z.to_nat (Qfloor product)))
    as [m Hmi]; [lia|].
  exists product, (Z.to_nat (Qfloor product)), m.
  split; [done|]. split; [lia|]. split; [done|]. by rewrite Hmi.
Qed.

(** The move a search over a position returns was generated for it. *)
Lemma minimax_move_legal (d : nat) (g : Chess) (r : MinimaxResult) (m : Move) :
  minimax d g NegInf PosInf (Color_eqb (game_turn g) White) = Some (r, g) ->
  bestMove r = Some m -> m ∈ game_moves g.
Proof.
  intros Hr Hm. destruct d as [|d].
  - cbn [minimax] in Hr. destruct (leaf_static g) as (z & _ & Hl & _).
    rewrite Hl in Hr. injection Hr as <-. done.
  - destruct (game_isGameOver g) eqn:Hover.
    + cbn [minimax] in Hr. rewrite Hover in Hr.
      destruct (leaf_static g) as (z & _ & Hl & _).
      rewrite Hl in Hr. injection Hr as <-. done.
    + destruct (minimax_root d g (Color_eqb (game_turn g) White) Hover)
        as (r' & Hroot & Hmm).
      rewrite Hmm in Hr. injection Hr as <-.
      by apply (rootChoice_optimal d g _ r' Hover Hroot).
Qed.

End GetBestMove.

(** ** Positions that agree are searched alike *)

Section Agree.
Context {E : RulesEngine} {L : EngineLaws E}.

Lemma loopMax_agree (d : nat) (g1 g2 : Chess) :
  (forall g1' g2' a b mx,
      agree d g1' g2' ->
      exists r, minimax d g1' a b mx = Some (r, g1')
                /\ minimax d g2' a b mx = Some (r, g2')) ->
  agree (S d) g1 g2 ->
  forall ms a b m0 best,
    (forall m, m ∈ ms -> m ∈ game_moves g1) ->
    exists r, loopMax (minimax d) ms g1 a b m0 best = Some (r, g1)
              /\ loopMax (minimax d) ms g2 a b m0 best = Some (r, g2).
Proof.
  intros Hd (_ & _ & _ & Hmoves & Hnext).
  induction ms as [|m rest IH]; intros a b m0 best Hin.
  - eexists. done.
  - cbn [loopMax].
    assert (Hm : m ∈ game_moves g1) by (apply Hin; left).
    destruct (move_undo g1 m Hm) as (g1' & Hmv1 & Hun1).
    destruct (move_undo g2 m ltac:(by rewrite <- Hmoves)) as (g2' & Hmv2 & Hun2).
    rewrite Hmv1, Hmv2. cbn [mbind option_bind].
    destruct (Hd g1' g2' a b false (Hnext m g1' g2' Hm Hmv1 Hmv2))
      as (r & -> & ->).
    cbn [mbind option_bind]. rewrite Hun1, Hun2.
    destruct (num_leb b (num_max a (bestScore r))); [eexists; done|].
    apply IH. intros; apply Hin; by right.
Qed.

Lemma loopMin_agree (d : nat) (g1 g2 : Chess) :
  (forall g1' g2' a b mx,
      agree d g1' g2' ->
      exists r, minimax d g1' a b mx = Some (r, g1')
                /\ minimax d g2' a b mx = Some (r, g2')) ->
  agree (S d) g1 g2 ->
  forall ms a b m0 best,
    (forall m, m ∈ ms -> m ∈ game_moves g1) ->
    exists r, loopMin (minimax d) ms g1 a b m0 best = Some (r, g1)
              /\ loopMin (minimax d) ms g2 a b m0 best = Some (r, g2).
Proof.
  intros Hd (_ & _ & _ & Hmoves & Hnext).
  induction ms as [|m rest IH]; intros a b m0 best Hin.
  - eexists. done.
  - cbn [loopMin].
    assert (Hm : m ∈ game_moves g1) by (apply Hin; left).
    destruct (move_undo g1 m Hm) as (g1' & Hmv1 & Hun1).
    destruct (move_undo g2 m ltac:(by rewrite <- Hmoves)) as (g2' & Hmv2 & Hun2).
    rewrite Hmv1, Hmv2. cbn [mbind option_bind].
    destruct (Hd g1' g2' a b true (Hnext m g1' g2' Hm Hmv1 Hmv2))
      as (r & -> & ->).
    cbn [mbind option_bind]. rewrite Hun1, Hun2.
    destruct (num_leb (num_min b (bestScore r)) a); [eexists; done|].
    apply IH. intros; apply Hin; by right.
Qed.

Lemma minimax_agree (d : nat) :
  forall g1 g2 a b mx,
    agree d g1 g2 ->
    exists r, minimax d g1 a b mx = Some (r, g1)
              /\ minimax d g2 a b mx = Some (r, g2).
Proof.
  induction d as [|d IH]; intros g1 g2 a b mx Hag.
  - destruct Hag as (Hb & _). cbn [minimax]. unfold leaf. rewrite <- Hb.
    destruct (leaf_static g1) as (z & Hz & _). rewrite Hz.
    cbn [mbind option_bind]. eexists. done.
  - pose proof Hag as (Hb & _ & Hover & Hmoves & _).
    cbn [minimax]. rewrite <- Hover, <- Hmoves.
    destruct (game_isGameOver g1).
    { unfold leaf. rewrite <- Hb.
      destruct (leaf_static g1) as (z & Hz & _). rewrite Hz.
      cbn [mbind option_bind]. eexists. done. }
    assert (Hin : forall m, m ∈ sortMoves (game_moves g1) -> m ∈ game_moves g1)
      by (intros m; rewrite sortMoves_Permutation; done).
    destruct mx; [by apply loopMax_agree|by apply loopMin_agree].
Qed.

Lemma getBestMove_agree (random1 random2 : Q) (g1 g2 : Chess)
    (difficulty : Difficulty) :
  difficulty <> Easy -> agree (depthOf difficulty) g1 g2 ->
  exists om,
    getBestMove random1 g1 difficulty = Some (om, g1)
    /\ getBestMove random2 g2 difficulty = Some (om, g2).
Proof.
  intros Hd Hag.
  assert (Hturn : game_turn g1 = game_turn g2 /\ game_moves g1 = game_moves g2).
  { destruct (depthOf difficulty); by destruct Hag as (_ & ? & _ & ? & _). }
  destruct Hturn as [Hturn Hmoves].
  unfold getBestMove. rewrite <- Hmoves, <- Hturn.
  destruct (length (game_moves g1) =? 0)%nat; [eexists; done|].
  destruct (minimax_agree (depthOf difficulty) g1 g2 NegInf PosInf
              (Color_eqb (game_turn g1) White) Hag) as (r & Hr1 & Hr2).
  destruct difficulty; [done|..]; rewrite Hr1, Hr2;
    cbn [mbind option_bind]; eexists; done.
Qed.

End Agree.

(** ** The claims *)

(** C1. For every position and every depth, [minimax] called with the
    window (-Infinity, +Infinity) returns, and its score is the value of the
    exhaustive, non-pruned minimax of the same depth over the same move
    generator and evaluator: the cut-offs never change the root score. *)
Theorem alpha_beta_equals_exhaustive (E : RulesEngine) (L : EngineLaws E)
    (d : nat) (g : Chess) (mx : bool) :
  exists r,
    minimax d g NegInf PosInf mx = Some (r, g)
    /\ exhaustive d g mx = Some (bestScore r).
Proof.
  destruct (minimax_sound d g NegInf PosInf mx eq_refl) as (r & v & Hr & Hv & Hcl).
  rewrite !clamp_full in Hcl. exists r. by rewrite Hcl.
Qed.

Lemma alpha_beta_equals_exhaustive_witness :
  EngineLaws MiniChess.engine
  /\ exists r,
       minimax (E := MiniChess.engine) 2 mateOrKnight NegInf PosInf true
       = Some (r, mateOrKnight)
       /\ exhaustive (E := MiniChess.engine) 2 mateOrKnight true = Some (bestScore r).
Proof.
  split; [exact MiniChessLaws.laws|].
  exact (alpha_beta_equals_exhaustive MiniChess.engine MiniChessLaws.laws
           2%nat mateOrKnight true).
Defined.

(** C2. Every call of [minimax], for any depth, window and side, and every
    call of [getBestMove], at any difficulty, returns with the position in
    the state it was in on entry: each move applied is undone on every exit
    path, the cut-offs included. *)
Theorem search_restores_position (E : RulesEngine) (L : EngineLaws E) :
  (forall (d : nat) (g : Chess) (a b : num) (mx : bool),
      exists r, minimax d g a b mx = Some (r, g))
  /\ (forall (random : Q) (g : Chess) (difficulty : Difficulty),
         exists om, getBestMove random g difficulty = Some (om, g)).
Proof.
  split.
  - intros d g a b mx. apply minimax_restores.
  - intros random g difficulty.
    destruct (game_moves g) as [|m0 ms] eqn:Hm.
    { eexists. by apply getBestMove_none. }
    assert (Hne : game_moves g <> []) by (by rewrite Hm).
    destruct difficulty.
    + eexists. by apply getBestMove_easy.
    + destruct (getBestMove_search random g Medium Hne) as (r & _ & ->);
        [done|by eexists].
    + destruct (getBestMove_search random g Hard Hne) as (r & _ & ->);
        [done|by eexists].
Qed.

Lemma search_restores_position_witness :
  EngineLaws MiniChess.engine
  /\ (exists r, minimax (E := MiniChess.engine) 2 mateOrKnight (Fin 0) (Fin 10) true
                = Some (r, mateOrKnight))
  /\ (exists om, getBestMove (E := MiniChess.engine) 0 mateOrKnight Hard
                 = Some (om, mateOrKnight)).
Proof.
  split; [exact MiniChessLaws.laws|].
  pose proof (search_restores_position MiniChess.engine MiniChessLaws.laws)
    as [Hmm Hbest].
  split.
  - exact (Hmm 2%nat mateOrKnight (Fin 0) (Fin 10) true).
  - exact (Hbest 0%Q mateOrKnight Hard).
Defined.

(** C3 (as amended). A position in which the game is over, checkmate
    included, is a leaf that [minimax] scores with the static evaluator
    alone, at any depth and in any window; and in a position in which the
    game is not over [getBestMove] at Medium and Hard returns a legal move
    whose exhaustive minimax value, for the side to move, is the value of
    the position.  A mate gets no priority beyond its static evaluation. *)
Theorem search_selects_minimax_best (E : RulesEngine) (L : EngineLaws E)
    (random : Q) (g : Chess) (difficulty : Difficulty) :
  NoMovesIsOver E ->
  difficulty <> Easy ->
  (forall (g' : Chess) (d : nat) (a b : num) (mx : bool),
      game_isGameOver g' = true ->
      exists z,
        Evaluation.evaluateBoard (game_board g') = Some z
        /\ minimax d g' a b mx = Some (mkResult None (Fin z), g'))
  /\ (game_isGameOver g = false ->
      exists m v,
        getBestMove random g difficulty = Some (Some m, g)
        /\ m ∈ game_moves g
        /\ exhaustive (depthOf difficulty) g (Color_eqb (game_turn g) White)
           = Some v
        /\ childValue (pred (depthOf difficulty)) g
                      (Color_eqb (game_turn g) White) m
           = Some v).
Proof.
  intros Hno Hd. split.
  - intros g' d a b mx Hover.
    destruct (leaf_static g') as (z & Hz & Hl & _). exists z. split; [done|].
    destruct d; cbn [minimax]; by rewrite ?Hover.
  - intros Hover. pose proof (Hno g Hover) as Hm.
    destruct (getBestMove_search random g difficulty Hm Hd) as (r & Hr & Hb).
    assert (exists d, depthOf difficulty = S d) as [d Hdep]
      by (destruct difficulty; eexists; reflexivity).
    rewrite Hdep in *. cbn [pred].
    destruct (minimax_root d g (Color_eqb (game_turn g) White) Hover)
      as (r' & Hroot & Hmm).
    rewrite Hmm in Hr. injection Hr as <-.
    pose proof (rootChoice_some Hno d g _ r' Hover Hroot) as Hsome.
    destruct (rootChoice_optimal d g _ r' Hover Hroot) as [Hex Hbest].
    destruct (bestMove r') as [m|] eqn:Hbm; [|done].
    destruct (Hbest m eq_refl) as [Hin Hcv].
    exists m, (bestScore r'). done.
Qed.

Lemma search_selects_minimax_best_witness :
  EngineLaws MiniChess.engine
  /\ NoMovesIsOver MiniChess.engine
  /\ Medium <> Easy
  /\ @game_isGameOver MiniChess.engine mateOrKnight = false
  /\ exists m v,
       getBestMove (E := MiniChess.engine) 0 mateOrKnight Medium
       = Some (Some m, mateOrKnight)
       /\ exhaustive (E := MiniChess.engine) 2 mateOrKnight true = Some v
       /\ childValue (E := MiniChess.engine) 1 mateOrKnight true m = Some v.
Proof.
  assert (H1 : Medium <> Easy) by discriminate.
  assert (H2 : @game_isGameOver MiniChess.engine mateOrKnight = false)
    by (vm_compute; reflexivity).
  split; [exact MiniChessLaws.laws|].
  split; [exact MiniChessLaws.noMovesIsOver|]. do 2 (split; [assumption|]).
  destruct (search_selects_minimax_best MiniChess.engine MiniChessLaws.laws
              0%Q mateOrKnight Medium MiniChessLaws.noMovesIsOver H1)
    as [_ Hsel].
  destruct (Hsel H2) as (m & v & Hb & _ & Hex & Hcv).
  exists m, v. split; [exact Hb|]. split; [exact Hex|exact Hcv].
Defined.

(** C3, the claim as stated, fails.  In [mateOrKnight] White mates in one
    with g7; the mated position is scored -205 by the evaluator (both kings
    are on the board, so their values cancel), and at Medium and at Hard
    [getBestMove] returns gxh7, which does not mate. *)
Lemma mate_in_one_not_selected :
  exists m m' g1 g2,
    m ∈ @game_moves MiniChess.engine mateOrKnight
    /\ san m = "g7#"%string
    /\ @game_move MiniChess.engine mateOrKnight m = Some g1
    /\ MiniChess.isCheckmate g1 = true
    /\ Evaluation.evaluateBoard (@game_board MiniChess.engine g1)
       = Some (-205)
    /\ getBestMove (E := MiniChess.engine) 0 mateOrKnight Medium
       = Some (Some m', mateOrKnight)
    /\ getBestMove (E := MiniChess.engine) 0 mateOrKnight Hard
       = Some (Some m', mateOrKnight)
    /\ san m' = "gxh7"%string
    /\ @game_move MiniChess.engine mateOrKnight m' = Some g2
    /\ MiniChess.isCheckmate g2 = false.
Proof.
  pose (ms := @game_moves MiniChess.engine mateOrKnight).
  pose (m := default (mkMove EmptyString EmptyString Pawn None None
                             EmptyString EmptyString) (ms !! 3%nat)).
  pose (m' := default m (ms !! 4%nat)).
  pose (g1 := default mateOrKnight (MiniChess.move mateOrKnight m)).
  pose (g2 := default mateOrKnight (MiniChess.move mateOrKnight m')).
  exists m, m', g1, g2.
  split; [apply (list_elem_of_lookup_2 _ 3%nat); vm_compute; reflexivity|].
  repeat split; vm_compute; reflexivity.
Qed.

(** The other half of the same behaviour: in [backRankTrap] the search
    takes the knight with Rxa7, at Medium and at Hard, and Black then mates
    with Re1; after h3 instead no reply of Black mates. *)
Example search_walks_into_mate :
  exists m m' g1 g2 m0 g0,
    getBestMove (E := MiniChess.engine) 0 backRankTrap Medium
    = Some (Some m, backRankTrap)
    /\ getBestMove (E := MiniChess.engine) 0 backRankTrap Hard
       = Some (Some m, backRankTrap)
    /\ san m = "Rxa7"%string
    /\ MiniChess.move backRankTrap m = Some g1
    /\ m' ∈ MiniChess.moves g1
    /\ san m' = "Re1#"%string
    /\ MiniChess.move g1 m' = Some g2
    /\ MiniChess.isCheckmate g2 = true
    /\ m0 ∈ MiniChess.moves backRankTrap
    /\ san m0 = "h3"%string
    /\ MiniChess.move backRankTrap m0 = Some g0
    /\ forallb (fun x => match MiniChess.move g0 x with
                         | Some g' => negb (MiniChess.isCheckmate g')
                         | None => true
                         end) (MiniChess.moves g0) = true.
Proof.
  pose (none := mkMove EmptyString EmptyString Pawn None None
                       EmptyString EmptyString).
  pose (pick := fun (g : MiniChess.State) (n : string) =>
          default none (List.find (fun x => String.eqb (san x) n)
                                  (MiniChess.moves g))).
  pose (after := fun (g : MiniChess.State) (x : Move) =>
          default g (MiniChess.move g x)).
  pose (m := pick backRankTrap "Rxa7"%string).
  pose (g1 := after backRankTrap m).
  pose (m' := pick g1 "Re1#"%string).
  pose (m0 := pick backRankTrap "h3"%string).
  exists m, m', g1, (after g1 m'), m0, (after backRankTrap m0).
  split_and!; try (vm_compute; reflexivity).
  - apply list_elem_of_In. vm_compute. tauto.
  - apply list_elem_of_In. vm_compute. tauto.
Qed.

(** C4. [getBestMove] returns none exactly when the position has no legal
    move, at every difficulty; otherwise it returns a move of the legal-move
    list: at Easy the element at the random index, which is the floor of the
    product of the random number and the number of moves as binary64
    arithmetic rounds it, at Medium and Hard the move the search returns or
    else the first generated move.  It never throws.  The random number is a
    binary64 value of [0, 1) and the list has fewer than [2 ^ 32] elements,
    as every array has. *)
Theorem getBestMove_none_iff_no_moves (E : RulesEngine) (L : EngineLaws E)
    (random : Q) (g : Chess) (difficulty : Difficulty) :
  isDouble random -> (0 <= random)%Q -> (random < 1)%Q ->
  Z.of_nat (length (game_moves g)) < 2 ^ 32 ->
  exists om,
    getBestMove random g difficulty = Some (om, g)
    /\ (om = None <-> game_moves g = [])
    /\ (forall m, om = Some m -> m ∈ game_moves g)
    /\ (difficulty = Easy -> game_moves g <> [] ->
        exists (product : Q) (i : nat),
          toDouble (random * inject_Z (Z.of_nat (length (game_moves g))))
          = Some product
          /\ (i < length (game_moves g))%nat
          /\ Z.of_nat i = Qfloor product
          /\ om = game_moves g !! i)
    /\ (difficulty <> Easy -> game_moves g <> [] ->
        exists r,
          minimax (depthOf difficulty) g NegInf PosInf
                  (Color_eqb (game_turn g) White) = Some (r, g)
          /\ om = match bestMove r with
                  | Some m => Some m
                  | None => head (game_moves g)
                  end).
Proof.
  intros Hdbl H0 H1 Hlen.
  destruct (game_moves g) as [|m0 ms] eqn:Hm.
  { exists None. rewrite getBestMove_none by done. by split_and!. }
  assert (Hne : game_moves g <> []) by (by rewrite Hm).
  assert (difficulty = Easy \/ difficulty <> Easy) as [->|Hd]
    by (destruct difficulty; auto; right; discriminate).
  - destruct (getBestMove_easy_index random g Hdbl H0 H1 Hne)
      as (product & i & m & Hp & Hi & Hmi & Hb); [by rewrite Hm|].
    rewrite Hm in Hp, Hmi. exists (Some m). split; [exact Hb|].
    split_and!; try done.
    + intros m1 [= <-]. eapply list_elem_of_lookup_2. exact Hmi.
    + intros _ _. exists product, i. split; [done|].
      split; [by eapply lookup_lt_Some|]. done.
  - destruct (getBestMove_search random g difficulty Hne Hd) as (r & Hr & ->).
    rewrite Hm in *. eexists. split; [reflexivity|]. split_and!.
    + split; [|done]. by destruct (bestMove r).
    + intros m. destruct (bestMove r) as [m1|] eqn:Hbm.
      * intros [= <-]. rewrite <- Hm. by eapply minimax_move_legal.
      * cbn. intros [= <-]. left.
    + done.
    + intros _ _. by exists r.
Qed.

Lemma getBestMove_none_iff_no_moves_witness :
  EngineLaws MiniChess.engine
  /\ isDouble (1 # 2)
  /\ (0 <= 1 # 2)%Q /\ (1 # 2 < 1)%Q
  /\ Z.of_nat (length (@game_moves MiniChess.engine mateOrKnight)) < 2 ^ 32
  /\ @game_moves MiniChess.engine mateOrKnight <> []
  /\ exists om,
       getBestMove (E := MiniChess.engine) (1 # 2) mateOrKnight Easy
       = Some (om, mateOrKnight)
       /\ (om = None <-> @game_moves MiniChess.engine mateOrKnight = [])
       /\ (forall m, om = Some m -> m ∈ @game_moves MiniChess.engine mateOrKnight)
       /\ exists i : nat,
            (i < length (@game_moves MiniChess.engine mateOrKnight))%nat
            /\ om = @game_moves MiniChess.engine mateOrKnight !! i.
Proof.
  assert (Hd : isDouble (1 # 2)).
  { exists 1, (-1). split; [reflexivity|]. split; [lia|reflexivity]. }
  assert (H0 : (0 <= 1 # 2)%Q) by (vm_compute; discriminate).
  assert (H1 : (1 # 2 < 1)%Q) by reflexivity.
  assert (Hl : Z.of_nat (length (@game_moves MiniChess.engine mateOrKnight))
               < 2 ^ 32) by (vm_compute; reflexivity).
  assert (H2 : @game_moves MiniChess.engine mateOrKnight <> [])
    by (vm_compute; discriminate).
  split; [exact MiniChessLaws.laws|]. do 5 (split; [assumption|]).
  destruct (getBestMove_none_iff_no_moves MiniChess.engine MiniChessLaws.laws
              (1 # 2)%Q mateOrKnight Easy Hd H0 H1 Hl)
    as (om & Hb & Hn & Hin & Heasy & _).
  destruct (Heasy eq_refl H2) as (product & i & _ & Hi & _ & Hom).
  exists om. split; [exact Hb|]. split; [exact Hn|]. split; [exact Hin|].
  exists i. split; [exact Hi|exact Hom].
Defined.

(** C8 (as amended). For every position that has a legal move, at Medium
    and Hard: when the game is not over, the top-level [minimax] call of
    [getBestMove] returns a best move, a legal one, and [getBestMove] returns
    it, so that the fallback is not taken; when the game is over (a draw by
    rule with moves left), [minimax] returns no move and [getBestMove]
    falls back to the first generated move. *)
Theorem root_search_keeps_a_move (E : RulesEngine) (L : EngineLaws E)
    (random : Q) (g : Chess) (difficulty : Difficulty) :
  NoMovesIsOver E ->
  difficulty <> Easy -> game_moves g <> [] ->
  (game_isGameOver g = false ->
   exists r m,
     minimax (depthOf difficulty) g NegInf PosInf
             (Color_eqb (game_turn g) White) = Some (r, g)
     /\ bestMove r = Some m
     /\ m ∈ game_moves g
     /\ getBestMove random g difficulty = Some (Some m, g))
  /\ (game_isGameOver g = true ->
      exists r,
        minimax (depthOf difficulty) g NegInf PosInf
                (Color_eqb (game_turn g) White) = Some (r, g)
        /\ bestMove r = None
        /\ getBestMove random g difficulty = Some (head (game_moves g), g)).
Proof.
  intros Hno Hd Hm.
  destruct (getBestMove_search random g difficulty Hm Hd) as (r & Hr & Hb).
  assert (exists d, depthOf difficulty = S d) as [d Hdep]
    by (destruct difficulty; eexists; reflexivity).
  rewrite Hdep in *. split; intros Hover.
  - destruct (minimax_root d g (Color_eqb (game_turn g) White) Hover)
      as (r' & Hroot & Hmm).
    pose proof Hr as Hr'. rewrite Hmm in Hr'. injection Hr' as <-.
    pose proof (rootChoice_some Hno d g _ r' Hover Hroot) as Hsome.
    destruct (bestMove r') as [m|] eqn:Hbm; [|done].
    exists r', m. split_and!; try done.
    by apply (rootChoice_optimal d g _ r' Hover Hroot).
  - destruct (leaf_static g) as (z & _ & Hl & _).
    pose proof Hr as Hr'. cbn [minimax] in Hr'. rewrite Hover, Hl in Hr'.
    injection Hr' as <-. exists (mkResult None (Fin z)). done.
Qed.

Lemma root_search_keeps_a_move_witness :
  EngineLaws MiniChess.engine
  /\ NoMovesIsOver MiniChess.engine
  /\ Hard <> Easy
  /\ @game_moves MiniChess.engine mateOrKnight <> []
  /\ @game_isGameOver MiniChess.engine mateOrKnight = false
  /\ exists r m,
       minimax (E := MiniChess.engine) 3 mateOrKnight NegInf PosInf true
       = Some (r, mateOrKnight)
       /\ bestMove r = Some m
       /\ getBestMove (E := MiniChess.engine) 0 mateOrKnight Hard
          = Some (Some m, mateOrKnight).
Proof.
  assert (H1 : Hard <> Easy) by discriminate.
  assert (H2 : @game_moves MiniChess.engine mateOrKnight <> [])
    by (vm_compute; discriminate).
  assert (H3 : @game_isGameOver MiniChess.engine mateOrKnight = false)
    by (vm_compute; reflexivity).
  split; [exact MiniChessLaws.laws|].
  split; [exact MiniChessLaws.noMovesIsOver|]. do 3 (split; [assumption|]).
  destruct (root_search_keeps_a_move MiniChess.engine MiniChessLaws.laws
              0%Q mateOrKnight Hard MiniChessLaws.noMovesIsOver H1 H2)
    as [Hlive _].
  destruct (Hlive H3) as (r & m & Hr & Hb & _ & Hg).
  exists r, m. split; [exact Hr|]. split; [exact Hb|exact Hg].
Defined.

(** C8, the claim as stated, fails.  With the bare kings of [bareKings] the
    game is over (insufficient material) though White has legal moves: the
    top-level [minimax] returns no best move and [getBestMove] falls back to
    the first generated move. *)
Lemma fallback_reached_when_drawn :
  @game_moves MiniChess.engine bareKings <> []
  /\ @game_isGameOver MiniChess.engine bareKings = true
  /\ minimax (E := MiniChess.engine) (depthOf Medium) bareKings NegInf PosInf
             (Color_eqb (@game_turn MiniChess.engine bareKings) White)
     = Some (mkResult None (Fin 0), bareKings)
  /\ getBestMove (E := MiniChess.engine) 0 bareKings Medium
     = Some (head (@game_moves MiniChess.engine bareKings), bareKings)
  /\ head (@game_moves MiniChess.engine bareKings) <> None.
Proof.
  split; [vm_compute; discriminate|].
  split; [vm_compute; reflexivity|].
  split; [vm_compute; reflexivity|].
  split; [vm_compute; reflexivity|vm_compute; discriminate].
Qed.

(** C9 (as amended). At Medium and Hard [getBestMove] does not consult the
    random source and is a function of what the rules engine reports: two
    calls, on positions for which the engine reports the same board, turn,
    game-over status and legal moves, at once and after every line of legal
    moves as deep as the search goes, return the same move.  The order of
    search is fixed, moves of equal ordering score keeping their generation
    order in a descending list, and at the root of a game that is not over
    the search returns the first move, in that order, of strictly best
    exhaustive value. *)
Theorem search_tiers_deterministic (E : RulesEngine) (L : EngineLaws E)
    (random1 random2 : Q) (g1 g2 : Chess) (difficulty : Difficulty)
    (l : list Move) (k : Z) :
  difficulty <> Easy ->
  agree (depthOf difficulty) g1 g2 ->
  (exists om,
      getBestMove random1 g1 difficulty = Some (om, g1)
      /\ getBestMove random2 g2 difficulty = Some (om, g2))
  /\ List.filter (fun m => getMoveScore m =? k) (sortMoves l)
     = List.filter (fun m => getMoveScore m =? k) l
  /\ descending (sortMoves l)
  /\ (game_isGameOver g1 = false ->
      exists r,
        rootChoice (pred (depthOf difficulty)) g1 (Color_eqb (game_turn g1) White)
        = Some r
        /\ minimax (depthOf difficulty) g1 NegInf PosInf
                   (Color_eqb (game_turn g1) White) = Some (r, g1)).
Proof.
  intros Hd Hag. split_and!.
  - by apply getBestMove_agree.
  - apply sortMoves_filter.
  - apply sortMoves_descending.
  - intros Hover.
    assert (exists d, depthOf difficulty = S d) as [d Hdep]
      by (destruct difficulty; eexists; reflexivity).
    rewrite Hdep. cbn [pred]. by apply minimax_root.
Qed.

Lemma search_tiers_deterministic_witness :
  Medium <> Easy
  /\ EngineLaws ClockChess.engine
  /\ agree (E := ClockChess.engine) (depthOf Medium) (withClock 0) (withClock 7)
  /\ exists om,
       getBestMove (E := ClockChess.engine) (1 # 3) (withClock 0) Medium
       = Some (om, withClock 0)
       /\ getBestMove (E := ClockChess.engine) (2 # 3) (withClock 7) Medium
          = Some (om, withClock 7).
Proof.
  assert (H1 : Medium <> Easy) by discriminate.
  assert (H2 : agree (E := ClockChess.engine) (depthOf Medium)
                 (withClock 0) (withClock 7))
    by (apply ClockChessLaws.agree_clock; cbn; lia).
  split; [assumption|]. split; [exact ClockChessLaws.clock_laws|].
  split; [assumption|].
  destruct (search_tiers_deterministic ClockChess.engine
              ClockChessLaws.clock_laws (1 # 3)%Q (2 # 3)%Q
              (withClock 0) (withClock 7) Medium [] 0 H1 H2)
    as (Hdet & _).
  exact Hdet.
Defined.

(** C9 as first stated fails: board, turn and history do not determine what
    the rules engine reports.  The same position, with no move made, loaded
    once with a half-move clock of 0 and once of 100, has the same board,
    turn, history and legal moves; with the clock at 100 the game is drawn
    and over, the root of the search returns no move and [getBestMove] falls
    back to the first generated move, a king move, where the search
    otherwise returns the capture gxh7. *)
Lemma same_board_turn_history_other_move :
  @game_board ClockChess.engine (withClock 0)
  = @game_board ClockChess.engine (withClock 100)
  /\ @game_turn ClockChess.engine (withClock 0)
     = @game_turn ClockChess.engine (withClock 100)
  /\ ClockChess.history (withClock 0) = ClockChess.history (withClock 100)
  /\ @game_moves ClockChess.engine (withClock 0)
     = @game_moves ClockChess.engine (withClock 100)
  /\ exists m1 m2,
       getBestMove (E := ClockChess.engine) (1 # 2) (withClock 0) Medium
       = Some (Some m1, withClock 0)
       /\ getBestMove (E := ClockChess.engine) (1 # 2) (withClock 100) Medium
          = Some (Some m2, withClock 100)
       /\ san m1 = "gxh7"%string
       /\ head (@game_moves ClockChess.engine (withClock 100)) = Some m2
       /\ piece m2 = King
       /\ m1 <> m2.
Proof.
  split_and!; try reflexivity.
  eexists _, _. split; [vm_compute; reflexivity|].
  split; [vm_compute; reflexivity|].
  split_and!; try reflexivity. discriminate.
Qed.

(** C6. The move-ordering score is the sum of four terms: for a capture,
    10000 + 10 * value(captured piece) - value(moving piece); for a
    promotion, 9000 to a queen and 4000 to any other piece; 2000 when the
    notation has a check or mate marker; 500 for castling on either side.
    Hence a pawn capturing a queen scores strictly higher than a queen
    capturing a pawn. *)
Theorem getMoveScore_terms (m m1 m2 : Move) :
  wf_move m2 ->
  piece m1 = Pawn -> captured m1 = Some Queen ->
  piece m2 = Queen -> captured m2 = Some Pawn ->
  getMoveScore m = captureTerm m + promotionTerm m + checkTerm m + castleTerm m
  /\ getMoveScore m2 < getMoveScore m1.
Proof.
  assert (Hterms : forall x, getMoveScore x
            = captureTerm x + promotionTerm x + checkTerm x + castleTerm x).
  { intros x. unfold getMoveScore, captureTerm, promotionTerm, checkTerm,
      castleTerm, hasCheckMarker, isCastle.
    destruct (captured x) as [v|], (promotion x) as [pr|],
      (includes (san x) "+" || includes (san x) "#"),
      (includes (flags x) "k" || includes (flags x) "q");
      try destruct v; try destruct pr; destruct (piece x); cbn; lia. }
  intros [Hprom Hcastle] Hp1 Hc1 Hp2 Hc2. split; [apply Hterms|].
  rewrite !Hterms. unfold captureTerm. rewrite Hp1, Hc1, Hp2, Hc2.
  assert (promotion m2 = None) as Hnp.
  { destruct (promotion m2); [|done]. rewrite Hprom in Hp2; done. }
  assert (isCastle m2 = false) as Hnc.
  { destruct (isCastle m2); [|done]. rewrite Hcastle in Hp2; done. }
  unfold promotionTerm, checkTerm, castleTerm. rewrite Hnp, Hnc.
  destruct (promotion m1) as [[]|], (hasCheckMarker m1), (hasCheckMarker m2),
    (isCastle m1); cbn; lia.
Qed.

Lemma getMoveScore_terms_witness :
  wf_move queenTakesPawn
  /\ getMoveScore queenTakesPawn = 12100
  /\ getMoveScore pawnTakesQueen = 18900
  /\ getMoveScore queenTakesPawn < getMoveScore pawnTakesQueen.
Proof.
  assert (Hwf : wf_move queenTakesPawn).
  { split; [intros H; exfalso; apply H; reflexivity|].
    vm_compute. discriminate. }
  split; [exact Hwf|]. split; [reflexivity|]. split; [reflexivity|].
  exact (proj2 (getMoveScore_terms pawnTakesQueen pawnTakesQueen queenTakesPawn
                  Hwf eq_refl eq_refl eq_refl eq_refl)).
Defined.

Section EvaluatorClaims.
Import Evaluation Terms.

(** C5 (as amended). The king-safety term is computed only when the king
    is on its own back rank, which is rank 1 (row 7 of the board) for White
    and rank 8 (row 0) for Black: over the files from king-file - 1 to
    king-file + 1 that exist, the square one rank towards the centre gives
    +20 for a friendly pawn and -25 when empty ([shield]); the term is added
    for White and subtracted for Black. *)
Theorem kingSafety_on_own_back_rank (board : Board) (r c : Z) (isWhite : bool) :
  wf_board board ->
  evaluateKingSafety board r c isWhite
  = Some (shield board (if isWhite then White else Black) r c)
  /\ (rankOf r <> (if isWhite then 1 else 8) ->
      evaluateKingSafety board r c isWhite = Some 0)
  /\ evaluateBoard board
     = Some (material board + pst board + mobility board + rookFiles board
             + bishopPair board
             + kingSafety board White - kingSafety board Black).
Proof.
  intros Hwf. split_and!.
  - by apply evaluateKingSafety_shield.
  - unfold rankOf, evaluateKingSafety. intros Hr.
    destruct isWhite.
    + destruct (Z.eqb_spec r 7); [lia|done].
    + destruct (Z.eqb_spec r 0); [lia|done].
  - by apply evaluateBoard_terms.
Qed.

Lemma startBoard_wf : wf_board startBoard.
Proof. split; [reflexivity|]. repeat constructor. Qed.

Lemma kingSafety_on_own_back_rank_witness :
  wf_board startBoard
  /\ rankOf 4 <> 1
  /\ evaluateKingSafety startBoard 7 4 true = Some 60
  /\ evaluateKingSafety startBoard 0 4 false = Some 60
  /\ evaluateKingSafety startBoard 4 4 true = Some 0
  /\ evaluateBoard startBoard
     = Some (material startBoard + pst startBoard + mobility startBoard
             + rookFiles startBoard + bishopPair startBoard
             + kingSafety startBoard White - kingSafety startBoard Black).
Proof.
  assert (Hr : rankOf 4 <> 1) by (vm_compute; discriminate).
  split; [exact startBoard_wf|]. split; [exact Hr|].
  pose proof (kingSafety_on_own_back_rank startBoard 7 4 true startBoard_wf)
    as (Hw & _ & Hev).
  pose proof (kingSafety_on_own_back_rank startBoard 0 4 false startBoard_wf)
    as (Hb & _ & _).
  pose proof (kingSafety_on_own_back_rank startBoard 4 4 true startBoard_wf)
    as (_ & Hoff & _).
  split; [exact Hw|]. split; [exact Hb|]. split; [exact (Hoff Hr)|exact Hev].
Defined.

(** C5, the claim as stated, fails: with the white king on e1, which is
    rank 1, behind its three pawns the code scores a shield of 60, where a
    term computed for White on rank 8 only would be 0; and with a white king
    on e8, which is rank 8, the code scores nothing. *)
Lemma kingSafety_not_on_rank_8_for_white :
  rankOf 7 = 1 /\ rankOf 0 = 8
  /\ evaluateKingSafety startBoard 7 4 true = Some 60
  /\ shield_as_specified startBoard White 7 4 = 0
  /\ evaluateKingSafety (place [(0, 4, W King)]) 0 4 true = Some 0
  /\ shield_as_specified (place [(0, 4, W King)]) White 0 4 = -75.
Proof. repeat split; vm_compute; reflexivity. Qed.

(** C7. The mobility term counts knights, bishops, rooks and queens only:
    for a knight the destinations among its eight offsets that are on the
    board and not held by a friendly piece; for a sliding piece, along each
    of its directions, every empty square up to the first occupied square or
    the edge, and that occupied square too when an enemy holds it
    ([reach]).  The count is multiplied by 5 and enters the evaluation with
    the sign of the piece's colour. *)
Theorem mobility_counts_reach (board : Board) (r c : Z) (t : PieceSymbol)
    (col : Color) :
  wf_board board -> isValidSquare r c = true ->
  getPieceMobility board r c t col = Some (reach board r c t col)
  /\ getPieceMobility board r c Pawn col = Some 0
  /\ getPieceMobility board r c King col = Some 0
  /\ mobilityAt board r c (mkPiece t col)
     = reach board r c t col * 5 * (match col with White => 1 | Black => -1 end)
  /\ evaluateBoard board
     = Some (material board + pst board
             + sumOver board (mobilityAt board) squares
             + rookFiles board + bishopPair board
             + kingSafety board White - kingSafety board Black).
Proof.
  intros Hwf Hv. split_and!.
  - by apply getPieceMobility_reach.
  - reflexivity.
  - reflexivity.
  - reflexivity.
  - by apply evaluateBoard_terms.
Qed.

Lemma mobilityBoard_wf : wf_board mobilityBoard.
Proof. split; [reflexivity|]. repeat constructor. Qed.

Lemma mobility_counts_reach_witness :
  wf_board mobilityBoard
  /\ isValidSquare 0 0 = true
  /\ getPieceMobility mobilityBoard 0 0 Rook Black = Some 13
  /\ mobilityAt mobilityBoard 0 0 (mkPiece Rook Black) = -65.
Proof.
  split; [exact mobilityBoard_wf|]. split; [reflexivity|].
  pose proof (mobility_counts_reach mobilityBoard 0 0 Rook Black
                mobilityBoard_wf eq_refl) as (Hm & _ & _ & Hat & _).
  split; [exact Hm|exact Hat].
Defined.

Lemma hasKing_lastKing (board : Board) (col : Color) (l : list (Z * Z)) :
  existsb (fun '(r, c) => isPieceAt board King col r c) l = false ->
  lastKing board col l = None.
Proof.
  induction l as [|[r c] l IH]; [done|]. cbn [existsb lastKing].
  intros [H1 H2]%orb_false_iff. by rewrite IH, H1.
Qed.

(** C10. [evaluateBoard] returns a score on every 8x8 board, without a read
    outside the board, also when a king is missing: the tracker of a colour
    without king keeps the sentinel (-1, -1) and that colour's king-safety
    term is left out. *)
Theorem evaluateBoard_total (board : Board) :
  wf_board board ->
  (exists z, evaluateBoard board = Some z)
  /\ (exists t,
        foldlM (visit board) initTrackers squares = Some t
        /\ (hasKing board White = false -> whiteKingPos t = (-1, -1))
        /\ (hasKing board Black = false -> blackKingPos t = (-1, -1)))
  /\ (hasKing board White = false ->
      evaluateBoard board
      = Some (material board + pst board + mobility board + rookFiles board
              + bishopPair board - kingSafety board Black))
  /\ (hasKing board Black = false ->
      evaluateBoard board
      = Some (material board + pst board + mobility board + rookFiles board
              + bishopPair board + kingSafety board White)).
Proof.
  intros Hwf. pose proof (evaluateBoard_terms board Hwf) as Hev. split_and!.
  - eexists. exact Hev.
  - destruct (pass1_ok board squares Hwf squares_valid initTrackers
                eq_refl eq_refl) as (t & Ht & _ & Hwk & Hbk & _).
    exists t. split; [done|]. unfold hasKing.
    split; intros Hk%hasKing_lastKing.
    + by rewrite Hwk, Hk.
    + by rewrite Hbk, Hk.
  - intros Hk%hasKing_lastKing. rewrite Hev. unfold kingSafety at 1.
    rewrite Hk. f_equal. lia.
  - intros Hk%hasKing_lastKing. rewrite Hev. unfold kingSafety at 2.
    rewrite Hk. f_equal. lia.
Qed.

Lemma noWhiteKing_wf : wf_board noWhiteKing.
Proof. split; [reflexivity|]. repeat constructor. Qed.

Lemma evaluateBoard_total_witness :
  wf_board noWhiteKing
  /\ hasKing noWhiteKing White = false
  /\ (exists z, evaluateBoard noWhiteKing = Some z)
  /\ evaluateBoard noWhiteKing
     = Some (material noWhiteKing + pst noWhiteKing + mobility noWhiteKing
             + rookFiles noWhiteKing + bishopPair noWhiteKing
             - kingSafety noWhiteKing Black).
Proof.
  split; [exact noWhiteKing_wf|]. split; [reflexivity|].
  pose proof (evaluateBoard_total noWhiteKing noWhiteKing_wf)
    as (Hz & _ & Hw & _).
  split; [exact Hz|exact (Hw eq_refl)].
Defined.

End EvaluatorClaims.

(** ** Further properties of the move ordering *)

Lemma sortMoves_fixed (l : list Move) : descending l -> sortMoves l = l.
Proof.
  unfold descending. induction 1 as [|x l Hs IH Hx]; [done|].
  cbn [sortMoves foldr]. fold (sortMoves l). rewrite IH.
  destruct l as [|y l']; [done|]. cbn [insertMove].
  apply Forall_cons in Hx as [Hy _].
  destruct (Z.leb_spec (getMoveScore y) (getMoveScore x)); [done|lia].
Qed.

(** X1. Sorting the moves loses and duplicates none, puts a move of the
    highest ordering score first, and sorting again changes nothing. *)
Theorem sortMoves_best_first (l : list Move) :
  sortMoves l ≡ₚ l
  /\ length (sortMoves l) = length l
  /\ (forall m0 rest, sortMoves l = m0 :: rest ->
        m0 ∈ l /\ forall m, m ∈ l -> getMoveScore m <= getMoveScore m0)
  /\ sortMoves (sortMoves l) = sortMoves l.
Proof.
  pose proof (sortMoves_Permutation l) as Hp. split_and!.
  - done.
  - by rewrite Hp.
  - intros m0 rest Heq. split.
    + rewrite <- Hp, Heq. left.
    + intros m Hm. rewrite <- Hp, Heq in Hm.
      pose proof (sortMoves_descending l) as Hd. unfold descending in Hd.
      rewrite Heq in Hd. apply StronglySorted_inv in Hd as [_ Hall].
      apply elem_of_cons in Hm as [->|Hm]; [lia|].
      rewrite Forall_forall in Hall. by apply Hall.
  - apply sortMoves_fixed, sortMoves_descending.
Qed.

(** X2. A capture by a piece other than the king scores at least 10100,
    above every move that neither captures nor promotes (at most 2500); a
    capture by the king of anything but a king, without check marker, scores
    below zero, so it is searched after every quiet move. *)
Theorem capture_ordering (m quiet : Move) (victim : PieceSymbol) :
  captured m = Some victim ->
  captured quiet = None -> promotion quiet = None ->
  (piece m <> King -> 10100 <= getMoveScore m /\ getMoveScore quiet < getMoveScore m)
  /\ (piece m = King -> victim <> King -> promotion m = None ->
      hasCheckMarker m = false -> isCastle m = false ->
      getMoveScore m = 10 * PIECE_VALUES victim - 10000
      /\ getMoveScore m < 0 /\ getMoveScore m < getMoveScore quiet).
Proof.
  intros Hc Hq1 Hq2.
  assert (Hquiet : 0 <= getMoveScore quiet <= 2500).
  { unfold getMoveScore. rewrite Hq1, Hq2.
    destruct (includes (san quiet) "+" || includes (san quiet) "#"),
      (includes (flags quiet) "k" || includes (flags quiet) "q"); lia. }
  set (q := getMoveScore quiet) in *. clearbody q.
  split.
  - intros Hk. unfold getMoveScore. rewrite Hc.
    destruct (promotion m) as [pr|];
      try destruct (PieceSymbol_eqb pr Queen);
      destruct (includes (san m) "+" || includes (san m) "#"),
        (includes (flags m) "k" || includes (flags m) "q");
      destruct victim, (piece m); cbn; try congruence; lia.
  - intros Hk Hv Hp Hch Hca. unfold hasCheckMarker, isCastle in *.
    unfold getMoveScore. rewrite Hc, Hk, Hp, Hch, Hca.
    destruct victim; cbn; try congruence; lia.
Qed.

Lemma capture_ordering_witness :
  captured (mkMove "e1" "e2" King (Some Rook) None "c" "Kxe2") = Some Rook
  /\ captured (mkMove "a2" "a3" Pawn None None "n" "a3") = None
  /\ promotion (mkMove "a2" "a3" Pawn None None "n" "a3") = None
  /\ getMoveScore (mkMove "e1" "e2" King (Some Rook) None "c" "Kxe2") = -5000
  /\ getMoveScore (mkMove "e1" "e2" King (Some Rook) None "c" "Kxe2")
     < getMoveScore (mkMove "a2" "a3" Pawn None None "n" "a3").
Proof.
  split; [reflexivity|]. split; [reflexivity|]. split; [reflexivity|].
  destruct (capture_ordering
              (mkMove "e1" "e2" King (Some Rook) None "c" "Kxe2")
              (mkMove "a2" "a3" Pawn None None "n" "a3") Rook
              eq_refl eq_refl eq_refl) as [_ Hking].
  destruct (Hking eq_refl ltac:(discriminate) eq_refl eq_refl eq_refl)
    as (Hs & _ & Hlt).
  split; [exact Hs|exact Hlt].
Defined.

(** ** Ranges of the evaluator's helpers *)

Section Ranges.
Import Evaluation Terms.

Lemma shieldAt_range board col row f : -25 <= shieldAt board col row f <= 20.
Proof.
  unfold shieldAt, KING_SHIELD_BONUS, KING_OPEN_FILE_PENALTY.
  destruct ((0 <=? f) && (f <? 8)); [|lia].
  destruct (pieceAt board row f) as [pc|]; [|lia].
  destruct (_ && _); lia.
Qed.

Lemma shieldAt_off board col row f : ~ 0 <= f < 8 -> shieldAt board col row f = 0.
Proof.
  intros Hf. unfold shieldAt.
  destruct ((0 <=? f) && (f <? 8)) eqn:Hb; [lia|done].
Qed.

(** X3. The king-safety score of a king lies between -75 and 60; for a king
    on the a-file or the h-file, where one of the three files is off the
    board, between -50 and 40. *)
Theorem evaluateKingSafety_range (board : Board) (r c : Z) (isWhite : bool) :
  wf_board board ->
  exists z,
    evaluateKingSafety board r c isWhite = Some z
    /\ -75 <= z <= 60
    /\ (c = 0 \/ c = 7 -> -50 <= z <= 40).
Proof.
  intros Hwf. rewrite evaluateKingSafety_shield by done.
  eexists. split; [reflexivity|].
  assert (Hsum : forall col row,
            -75 <= sumZ (map (shieldAt board col row) [c - 1; c; c + 1]) <= 60
            /\ (c = 0 \/ c = 7 ->
                -50 <= sumZ (map (shieldAt board col row) [c - 1; c; c + 1]) <= 40)).
  { intros col row. unfold sumZ. cbn [map foldr].
    pose proof (shieldAt_range board col row (c - 1)).
    pose proof (shieldAt_range board col row c).
    pose proof (shieldAt_range board col row (c + 1)).
    split; [lia|]. intros [-> | ->].
    - rewrite (shieldAt_off board col row (0 - 1)) by lia. lia.
    - rewrite (shieldAt_off board col row (7 + 1)) by lia. lia. }
  unfold shield. destruct isWhite.
  - destruct (r =? 7); [apply Hsum|lia].
  - destruct (r =? 0); [apply Hsum|lia].
Qed.

Lemma evaluateKingSafety_range_witness :
  wf_board startBoard
  /\ exists z, evaluateKingSafety startBoard 7 4 true = Some z /\ -75 <= z <= 60.
Proof.
  split; [exact startBoard_wf|].
  destruct (evaluateKingSafety_range startBoard 7 4 true startBoard_wf)
    as (z & Hz & Hr & _).
  exists z. split; [exact Hz|exact Hr].
Defined.

Lemma rayCount_nonneg board col sqs : 0 <= rayCount board col sqs.
Proof.
  induction sqs as [|[nr nc] rest IH]; cbn [rayCount]; [lia|].
  destruct (isValidSquare nr nc); [|lia].
  destruct (pieceAt board nr nc) as [t|]; [|lia].
  destruct (Color_eqb _ _); lia.
Qed.

(** A ray cannot count more squares than lie between its start and the edge
    it runs to. *)
Lemma rayCount_edge board col (n : nat) (nr nc dr dc : Z) :
  (dr = 1 -> rayCount board col (rayFrom n nr nc dr dc) <= Z.max 0 (8 - nr))
  /\ (dr = -1 -> rayCount board col (rayFrom n nr nc dr dc) <= Z.max 0 (nr + 1))
  /\ (dc = 1 -> rayCount board col (rayFrom n nr nc dr dc) <= Z.max 0 (8 - nc))
  /\ (dc = -1 -> rayCount board col (rayFrom n nr nc dr dc) <= Z.max 0 (nc + 1)).
Proof.
  revert nr nc. induction n as [|n IH]; intros nr nc; cbn [rayFrom rayCount].
  { split_and!; lia. }
  destruct (isValidSquare nr nc) eqn:Hv; [|split_and!; lia].
  apply isValidSquare_spec in Hv.
  destruct (pieceAt board nr nc) as [t|].
  { destruct (Color_eqb _ _); split_and!; lia. }
  destruct (IH (nr + dr) (nc + dc)) as (H1 & H2 & H3 & H4).
  split_and!; intros Hd; [specialize (H1 Hd)|specialize (H2 Hd)
                          |specialize (H3 Hd)|specialize (H4 Hd)]; lia.
Qed.

Lemma hopCount_range board col sq : 0 <= hopCount board col sq <= 1.
Proof.
  destruct sq as [nr nc]. unfold hopCount.
  destruct (isValidSquare nr nc); [|lia].
  destruct (pieceAt board nr nc) as [t|]; [|lia].
  destruct (Color_eqb _ _); lia.
Qed.

(** X4. On a square of the board the mobility count is never negative and
    at most 8 for a knight, 13 for a bishop, 14 for a rook and 27 for a
    queen (0 for a pawn or a king). *)
Theorem getPieceMobility_range (board : Board) (r c : Z) (t : PieceSymbol)
    (col : Color) :
  wf_board board -> isValidSquare r c = true ->
  exists n,
    getPieceMobility board r c t col = Some n
    /\ 0 <= n
    /\ n <= match t with
            | Knight => 8 | Bishop => 13 | Rook => 14 | Queen => 27
            | Pawn | King => 0
            end.
Proof.
  intros Hwf Hv. rewrite getPieceMobility_reach by done.
  eexists. split; [reflexivity|].
  apply isValidSquare_spec in Hv.
  assert (Hray : forall dr dc,
            0 <= rayCount board col (rayFrom 7 (r + dr) (c + dc) dr dc)
            /\ (dr = 1 -> rayCount board col (rayFrom 7 (r + dr) (c + dc) dr dc) <= 7 - r)
            /\ (dr = -1 -> rayCount board col (rayFrom 7 (r + dr) (c + dc) dr dc) <= r)
            /\ (dc = 1 -> rayCount board col (rayFrom 7 (r + dr) (c + dc) dr dc) <= 7 - c)
            /\ (dc = -1 -> rayCount board col (rayFrom 7 (r + dr) (c + dc) dr dc) <= c)).
  { intros dr dc.
    destruct (rayCount_edge board col 7 (r + dr) (c + dc) dr dc)
      as (H1 & H2 & H3 & H4).
    split; [apply rayCount_nonneg|].
    split_and!; intros Hd; [specialize (H1 Hd)|specialize (H2 Hd)
                            |specialize (H3 Hd)|specialize (H4 Hd)]; lia. }
  pose proof (Hray 1 0) as (? & ? & _). pose proof (Hray (-1) 0) as (? & _ & ? & _).
  pose proof (Hray 0 1) as (? & _ & _ & ? & _).
  pose proof (Hray 0 (-1)) as (? & _ & _ & _ & ?).
  pose proof (Hray 1 1) as (? & ? & _ & ? & _).
  pose proof (Hray 1 (-1)) as (? & ? & _ & _ & ?).
  pose proof (Hray (-1) 1) as (? & _ & ? & ? & _).
  pose proof (Hray (-1) (-1)) as (? & _ & ? & _ & ?).
  repeat match goal with H : ?a = ?a -> _ |- _ => specialize (H eq_refl) end.
  destruct t; unfold reach, slidingCount, sumZ, rookDirs, bishopDirs, knightDirs;
    cbn [map foldr app]; try lia.
  repeat match goal with
         | |- context [hopCount board col ?sq] =>
             let H := fresh in
             pose proof (hopCount_range board col sq) as H;
             generalize dependent (hopCount board col sq); intros
         end.
  lia.
Qed.

Lemma getPieceMobility_range_witness :
  wf_board mobilityBoard /\ isValidSquare 0 0 = true
  /\ exists n, getPieceMobility mobilityBoard 0 0 Rook Black = Some n
               /\ 0 <= n /\ n <= 14.
Proof.
  split; [exact mobilityBoard_wf|]. split; [reflexivity|].
  exact (getPieceMobility_range mobilityBoard 0 0 Rook Black
           mobilityBoard_wf eq_refl).
Defined.

End Ranges.

(** ** Further properties of the search *)

Lemma clamp_window (a b s v : num) :
  num_ltb a b = true -> clamp a b s = clamp a b v ->
  (num_ltb a v = true -> num_ltb v b = true -> s = v)
  /\ (num_leb v a = true -> num_leb s a = true)
  /\ (num_leb b v = true -> num_leb b s = true).
Proof.
  intros Hab Hcl. split_and!; intros; revert Hab Hcl; num_crush.
Qed.

(** X5. Alpha-beta within any window: for [alpha < beta], [minimax]
    returns the exhaustive value exactly when that value lies strictly
    inside the window, a score of at most [alpha] when the value is at most
    [alpha], and a score of at least [beta] when the value is at least
    [beta]. *)
Theorem alpha_beta_window (E : RulesEngine) (L : EngineLaws E)
    (d : nat) (g : Chess) (a b : num) (mx : bool) :
  num_ltb a b = true ->
  exists r v,
    minimax d g a b mx = Some (r, g)
    /\ exhaustive d g mx = Some v
    /\ (num_ltb a v = true -> num_ltb v b = true -> bestScore r = v)
    /\ (num_leb v a = true -> num_leb (bestScore r) a = true)
    /\ (num_leb b v = true -> num_leb b (bestScore r) = true).
Proof.
  intros Hab.
  destruct (minimax_sound d g a b mx Hab) as (r & v & Hr & Hv & Hcl).
  exists r, v. split; [done|]. split; [done|]. by apply clamp_window.
Qed.

Lemma alpha_beta_window_witness :
  EngineLaws MiniChess.engine
  /\ num_ltb (Fin (-100)) (Fin 0) = true
  /\ exists r v,
       minimax (E := MiniChess.engine) 2 mateOrKnight (Fin (-100)) (Fin 0) true
       = Some (r, mateOrKnight)
       /\ exhaustive (E := MiniChess.engine) 2 mateOrKnight true = Some v
       /\ (num_ltb (Fin (-100)) v = true -> num_ltb v (Fin 0) = true ->
           bestScore r = v).
Proof.
  split; [exact MiniChessLaws.laws|]. split; [reflexivity|].
  destruct (alpha_beta_window MiniChess.engine MiniChessLaws.laws 2%nat
              mateOrKnight (Fin (-100)) (Fin 0) true eq_refl)
    as (r & v & Hr & Hv & Hin & _).
  exists r, v. split; [exact Hr|]. split; [exact Hv|exact Hin].
Defined.

Section AnyWindow.
Context {E : RulesEngine} {L : EngineLaws E}.
Hypothesis Hno : NoMovesIsOver E.

Lemma num_max_finite (x : num) (z : Z) :
  x = NegInf \/ finite x -> finite (num_max x (Fin z)).
Proof. intros [->|[y ->]]; unfold num_max; cbn; [|destruct (y <=? z)]; by eexists. Qed.

Lemma num_min_finite (x : num) (z : Z) :
  x = PosInf \/ finite x -> finite (num_min x (Fin z)).
Proof. intros [->|[y ->]]; unfold num_min; cbn; [|destruct (y <=? z)]; by eexists. Qed.

Lemma loopMax_keeps (d : nat) (g0 : Chess) :
  (forall (g : Chess) (a b : num) (mx : bool) (r : MinimaxResult) (g' : Chess),
      minimax d g a b mx = Some (r, g') -> finite (bestScore r)) ->
  forall ms g a b m0 best r g',
    (forall m, m ∈ ms -> m ∈ game_moves g0) ->
    loopMax (minimax d) ms g a b m0 best = Some (r, g') ->
    (m0 = NegInf /\ best = None /\ ms <> []
     \/ finite m0 /\ exists m, best = Some m /\ m ∈ game_moves g0) ->
    finite (bestScore r) /\ exists m, bestMove r = Some m /\ m ∈ game_moves g0.
Proof.
  intros Hd. induction ms as [|m rest IH]; intros g a b m0 best r g' Hin Hl Hinv.
  - cbn in Hl. injection Hl as <- <-. cbn.
    destruct Hinv as [(_ & _ & ?)|?]; done.
  - cbn [loopMax] in Hl.
    destruct (game_move g m) as [g1|]; [|done]. cbn [mbind option_bind] in Hl.
    destruct (minimax d g1 a b false) as [[r1 g2]|] eqn:Hrec; [|done].
    cbn [mbind option_bind] in Hl.
    destruct (Hd _ _ _ _ _ _ Hrec) as [z Hz]. rewrite Hz in Hl.
    rewrite !update_max in Hl.
    assert (Hnext : finite (num_max m0 (Fin z))
              /\ exists m', (if num_ltb m0 (Fin z) then Some m else best) = Some m'
                            /\ m' ∈ game_moves g0).
    { destruct Hinv as [(-> & -> & _)|([y ->] & m' & -> & Hm')].
      - split; [by eexists|]. exists m. split; [done|]. apply Hin. left.
      - split; [apply num_max_finite; right; by eexists|].
        destruct (num_ltb (Fin y) (Fin z)); eexists; split; try done.
        apply Hin. left. }
    destruct (num_leb b (num_max a (Fin z))).
    + injection Hl as <- <-. cbn. exact Hnext.
    + eapply IH; [|exact Hl|right; exact Hnext].
      intros; apply Hin; by right.
Qed.

Lemma loopMin_keeps (d : nat) (g0 : Chess) :
  (forall (g : Chess) (a b : num) (mx : bool) (r : MinimaxResult) (g' : Chess),
      minimax d g a b mx = Some (r, g') -> finite (bestScore r)) ->
  forall ms g a b m0 best r g',
    (forall m, m ∈ ms -> m ∈ game_moves g0) ->
    loopMin (minimax d) ms g a b m0 best = Some (r, g') ->
    (m0 = PosInf /\ best = None /\ ms <> []
     \/ finite m0 /\ exists m, best = Some m /\ m ∈ game_moves g0) ->
    finite (bestScore r) /\ exists m, bestMove r = Some m /\ m ∈ game_moves g0.
Proof.
  intros Hd. induction ms as [|m rest IH]; intros g a b m0 best r g' Hin Hl Hinv.
  - cbn in Hl. injection Hl as <- <-. cbn.
    destruct Hinv as [(_ & _ & ?)|?]; done.
  - cbn [loopMin] in Hl.
    destruct (game_move g m) as [g1|]; [|done]. cbn [mbind option_bind] in Hl.
    destruct (minimax d g1 a b true) as [[r1 g2]|] eqn:Hrec; [|done].
    cbn [mbind option_bind] in Hl.
    destruct (Hd _ _ _ _ _ _ Hrec) as [z Hz]. rewrite Hz in Hl.
    rewrite !update_min in Hl.
    assert (Hnext : finite (num_min m0 (Fin z))
              /\ exists m', (if num_ltb (Fin z) m0 then Some m else best) = Some m'
                            /\ m' ∈ game_moves g0).
    { destruct Hinv as [(-> & -> & _)|([y ->] & m' & -> & Hm')].
      - split; [by eexists|]. exists m. split; [done|]. apply Hin. left.
      - split; [apply num_min_finite; right; by eexists|].
        destruct (num_ltb (Fin z) (Fin y)); eexists; split; try done.
        apply Hin. left. }
    destruct (num_leb (num_min b (Fin z)) a).
    + injection Hl as <- <-. cbn. exact Hnext.
    + eapply IH; [|exact Hl|right; exact Hnext].
      intros; apply Hin; by right.
Qed.

Lemma minimax_node (d : nat) (g : Chess) (a b : num) (mx : bool)
    (r : MinimaxResult) (g' : Chess) :
  minimax d g a b mx = Some (r, g') ->
  finite (bestScore r)
  /\ (d = 0%nat \/ game_isGameOver g = true -> bestMove r = None)
  /\ (d <> 0%nat -> game_isGameOver g = false ->
      exists m, bestMove r = Some m /\ m ∈ game_moves g).
Proof.
  revert g a b mx r g'. induction d as [|d IH]; intros g a b mx r g' Hr.
  - cbn [minimax] in Hr. destruct (leaf_static g) as (z & _ & Hl & _).
    rewrite Hl in Hr. injection Hr as <- <-. cbn.
    split; [by eexists|]. split; [done|]. intros Hd0 _. by destruct Hd0.
  - cbn [minimax] in Hr. destruct (game_isGameOver g) eqn:Hover.
    { destruct (leaf_static g) as (z & _ & Hl & _).
      rewrite Hl in Hr. injection Hr as <- <-. cbn.
      split; [by eexists|]. split; [done|]. intros; done. }
    assert (Hd : forall g a b mx r g',
              minimax d g a b mx = Some (r, g') -> finite (bestScore r))
      by (intros ? ? ? ? ? ? H; apply IH in H as [? _]; done).
    assert (Hin : forall m, m ∈ sortMoves (game_moves g) -> m ∈ game_moves g)
      by (intros m; rewrite sortMoves_Permutation; done).
    assert (Hne : sortMoves (game_moves g) <> []).
    { intros Hnil. apply (Hno g Hover).
      apply Permutation_nil_r. rewrite <- Hnil.
      symmetry. apply sortMoves_Permutation. }
    assert (Hres : finite (bestScore r)
              /\ exists m, bestMove r = Some m /\ m ∈ game_moves g).
    { destruct mx.
      - eapply (loopMax_keeps d g Hd); [exact Hin|exact Hr|]. left. done.
      - eapply (loopMin_keeps d g Hd); [exact Hin|exact Hr|]. left. done. }
    destruct Hres as [Hf (m & Hm & Hmin)].
    split; [done|]. split.
    + intros [?|?]; done.
    + intros _ _. by exists m.
Qed.

End AnyWindow.

(** X6. In any window, empty ones included, the score [minimax] returns is
    an integer, never an infinity; it returns no move exactly at a leaf
    (depth 0 or game over) and otherwise a move of the legal-move list. *)
Theorem minimax_move_iff_inner_node (E : RulesEngine) (L : EngineLaws E)
    (d : nat) (g : Chess) (a b : num) (mx : bool) :
  NoMovesIsOver E ->
  exists r z,
    minimax d g a b mx = Some (r, g)
    /\ bestScore r = Fin z
    /\ (bestMove r = None <-> d = 0%nat \/ game_isGameOver g = true)
    /\ (forall m, bestMove r = Some m -> m ∈ game_moves g).
Proof.
  intros Hno. destruct (minimax_restores d g a b mx) as (r & Hr).
  destruct (minimax_node Hno d g a b mx r g Hr) as ([z Hz] & Hleaf & Hinner).
  exists r, z. split; [done|]. split; [done|]. split.
  - split; [|exact Hleaf]. intros Hnone.
    destruct d as [|d]; [by left|]. right.
    destruct (game_isGameOver g) eqn:Hover; [done|].
    destruct (Hinner ltac:(done) eq_refl) as (m & Hm & _). congruence.
  - intros m Hm. destruct d as [|d].
    { rewrite Hleaf in Hm by (by left). done. }
    destruct (game_isGameOver g) eqn:Hover.
    { rewrite Hleaf in Hm by (by right). done. }
    destruct (Hinner ltac:(done) eq_refl) as (m' & Hm' & Hin). congruence.
Qed.

Lemma minimax_move_iff_inner_node_witness :
  EngineLaws MiniChess.engine
  /\ NoMovesIsOver MiniChess.engine
  /\ exists r z,
       minimax (E := MiniChess.engine) 2 mateOrKnight (Fin 5) (Fin 5) true
       = Some (r, mateOrKnight)
       /\ bestScore r = Fin z
       /\ (bestMove r = None <->
           2%nat = 0%nat \/ @game_isGameOver MiniChess.engine mateOrKnight = true).
Proof.
  split; [exact MiniChessLaws.laws|].
  split; [exact MiniChessLaws.noMovesIsOver|].
  destruct (minimax_move_iff_inner_node MiniChess.engine MiniChessLaws.laws
              2%nat mateOrKnight (Fin 5) (Fin 5) true
              MiniChessLaws.noMovesIsOver) as (r & z & Hr & Hz & Hiff & _).
  exists r, z. split; [exact Hr|]. split; [exact Hz|exact Hiff].
Defined.

(** ** The Easy tier *)

(** X7. At Easy the unit interval of the random value is cut into as many
    equal parts as there are legal moves, up to the rounding of the product:
    with [n] moves, a value with
    [i + n * 2 ^ -53 <= random * n <= i + 1 - n * 2 ^ -53] returns the move of
    index [i] (nearer to a boundary the rounded product may fall on either
    side of it), and every legal move is returned for some binary64 value
    of [0, 1). *)
Theorem easy_picks_by_interval (E : RulesEngine) (random : Q) (g : Chess)
    (i : nat) (m : Move) :
  game_moves g !! i = Some m ->
  Z.of_nat (length (game_moves g)) < 2 ^ 32 ->
  ((inject_Z (Z.of_nat i)
    + inject_Z (Z.of_nat (length (game_moves g))) * pow2 (-53)
    <= random * inject_Z (Z.of_nat (length (game_moves g))))%Q ->
   (random * inject_Z (Z.of_nat (length (game_moves g)))
    <= inject_Z (Z.of_nat i) + 1
       - inject_Z (Z.of_nat (length (game_moves g))) * pow2 (-53))%Q ->
   getBestMove random g Easy = Some (Some m, g))
  /\ exists random0,
       isDouble random0 /\ (0 <= random0)%Q /\ (random0 < 1)%Q
       /\ getBestMove random0 g Easy = Some (Some m, g).
Proof.
  intros Hi Hn. pose proof (lookup_lt_Some _ _ _ Hi) as Hlen.
  assert (Hne : game_moves g <> []) by (destruct (game_moves g); [cbn in Hlen; lia|done]).
  assert (Hpick : forall q r,
            toDouble (q * inject_Z (Z.of_nat (length (game_moves g)))) = Some r ->
            Qfloor r = Z.of_nat i ->
            getBestMove q g Easy = Some (Some m, g)).
  { intros q r Hr Hf. rewrite getBestMove_easy by done. rewrite Hr.
    cbn [fmap option_fmap option_map mbind option_bind]. rewrite Hf.
    unfold moveAt. destruct (0 <=? Z.of_nat i) eqn:Hp; [|lia].
    by rewrite Nat2Z.id, Hi. }
  split.
  - intros Hlo Hhi.
    destruct (randomIndex_interior _ (Z.of_nat (length (game_moves g)))
                (Z.of_nat i) ltac:(lia) Hn Hlo Hhi) as (r & Hr & Hf).
    by apply (Hpick random r).
  - destruct (randomIndex_onto (Z.of_nat (length (game_moves g))) (Z.of_nat i)
                ltac:(lia) Hn) as (random0 & r & Hd & H0 & H1 & Hr & Hf).
    exists random0. split; [done|]. split; [done|]. split; [done|].
    by apply (Hpick random0 r).
Qed.

Lemma easy_picks_by_interval_witness :
  exists m,
    @game_moves MiniChess.engine mateOrKnight !! 2%nat = Some m
    /\ Z.of_nat (length (@game_moves MiniChess.engine mateOrKnight)) < 2 ^ 32
    /\ (inject_Z (Z.of_nat 2)
        + inject_Z (Z.of_nat (length (@game_moves MiniChess.engine mateOrKnight)))
          * pow2 (-53)
        <= (1 # 2) * inject_Z (Z.of_nat
              (length (@game_moves MiniChess.engine mateOrKnight))))%Q
    /\ ((1 # 2) * inject_Z (Z.of_nat
              (length (@game_moves MiniChess.engine mateOrKnight)))
        <= inject_Z (Z.of_nat 2) + 1
           - inject_Z (Z.of_nat (length (@game_moves MiniChess.engine mateOrKnight)))
             * pow2 (-53))%Q
    /\ getBestMove (E := MiniChess.engine) (1 # 2) mateOrKnight Easy
       = Some (Some m, mateOrKnight).
Proof.
  pose (m := default (mkMove EmptyString EmptyString Pawn None None
                             EmptyString EmptyString)
                     (@game_moves MiniChess.engine mateOrKnight !! 2%nat)).
  assert (H1 : @game_moves MiniChess.engine mateOrKnight !! 2%nat = Some m)
    by (vm_compute; reflexivity).
  assert (H0 : Z.of_nat (length (@game_moves MiniChess.engine mateOrKnight))
               < 2 ^ 32) by (vm_compute; reflexivity).
  assert (H2 : (inject_Z (Z.of_nat 2)
        + inject_Z (Z.of_nat (length (@game_moves MiniChess.engine mateOrKnight)))
          * pow2 (-53)
        <= (1 # 2) * inject_Z (Z.of_nat
              (length (@game_moves MiniChess.engine mateOrKnight))))%Q)
    by (vm_compute; discriminate).
  assert (H3 : ((1 # 2) * inject_Z (Z.of_nat
              (length (@game_moves MiniChess.engine mateOrKnight)))
        <= inject_Z (Z.of_nat 2) + 1
           - inject_Z (Z.of_nat (length (@game_moves MiniChess.engine mateOrKnight)))
             * pow2 (-53))%Q)
    by (vm_compute; discriminate).
  exists m. split; [exact H1|]. split; [exact H0|].
  split; [exact H2|]. split; [exact H3|].
  exact (proj1 (easy_picks_by_interval MiniChess.engine (1 # 2)%Q mateOrKnight
                  2%nat m H1 H0) H2 H3).
Defined.

(** ** What the two passes of the evaluator gather *)

Section Passes.
Import Evaluation Terms.

Lemma countOver_app board t col l1 l2 :
  countOver board t col (l1 ++ l2)
  = countOver board t col l1 + countOver board t col l2.
Proof.
  induction l1 as [|sq l1 IH]; [unfold countOver, sumZ; cbn; lia|].
  cbn [app]. rewrite (countOver_cons _ _ _ sq (l1 ++ l2)),
    (countOver_cons _ _ _ sq l1), IH. lia.
Qed.

(** Over squares of the board, the pawns of the eight files add up to the
    pawns of the board. *)
Lemma pawnsOnFile_total board col (l : list (Z * Z)) :
  Forall (fun sq => isValidSquare (fst sq) (snd sq) = true) l ->
  sumZ (map (fun f => pawnsOnFile board col f l) [0; 1; 2; 3; 4; 5; 6; 7])
  = countOver board Pawn col l.
Proof.
  induction 1 as [|[r c] l Hv _ IH].
  - unfold pawnsOnFile, countOver, sumZ. cbn. lia.
  - rewrite (countOver_cons _ _ _ (r, c) l), <- IH, countOver_single.
    cbn [fst snd] in Hv. apply isValidSquare_spec in Hv.
    unfold sumZ. cbn [map foldr].
    rewrite !(pawnsOnFile_cons _ _ _ (r, c) l), !pawnsOnFile_single.
    assert (c = 0 \/ c = 1 \/ c = 2 \/ c = 3 \/ c = 4 \/ c = 5 \/ c = 6 \/ c = 7)
      as Hc by lia.
    destruct (isPieceAt board Pawn col r c);
      destruct Hc as [->|[->|[->|[->|[->|[->|[->| ->]]]]]]]; cbn; lia.
Qed.

(** X8. The first pass leaves in its trackers the sum of the material,
    piece-square and mobility terms, the number of bishops of each colour,
    and for each file the number of pawns of each colour on it; the entries of
    a pawn array add up to the pawns of that colour on the board. *)
Theorem first_pass_gathers (board : Board) :
  wf_board board ->
  exists t,
    foldlM (visit board) initTrackers squares = Some t
    /\ totalEvaluation t = material board + pst board + mobility board
    /\ whiteBishopCount t = countOver board Bishop White squares
    /\ blackBishopCount t = countOver board Bishop Black squares
    /\ whitePawnsPerFile t
       = map (fun f => pawnsOnFile board White f squares) [0; 1; 2; 3; 4; 5; 6; 7]
    /\ blackPawnsPerFile t
       = map (fun f => pawnsOnFile board Black f squares) [0; 1; 2; 3; 4; 5; 6; 7]
    /\ sumZ (whitePawnsPerFile t) = countOver board Pawn White squares
    /\ sumZ (blackPawnsPerFile t) = countOver board Pawn Black squares.
Proof.
  intros Hwf.
  destruct (pass1_ok board squares Hwf squares_valid initTrackers eq_refl eq_refl)
    as (t & Ht & Htot & _ & _ & Hwb & Hbb & [Hlw Hfw] & [Hlb Hfb]).
  cbn [initTrackers totalEvaluation whiteBishopCount blackBishopCount
       whitePawnsPerFile blackPawnsPerFile] in *.
  assert (Harr : forall col arr,
            length arr = 8%nat ->
            (forall f x, readAt (replicate 8 0) f = Some x ->
                         readAt arr f = Some (x + pawnsOnFile board col f squares)) ->
            arr = map (fun f => pawnsOnFile board col f squares)
                      [0; 1; 2; 3; 4; 5; 6; 7]).
  { intros col arr Hl Hf.
    assert (Hrd : forall f, 0 <= f < 8 ->
              arr !! Z.to_nat f = Some (pawnsOnFile board col f squares)).
    { intros f Hr. specialize (Hf f 0 (readAt_zeros f Hr)).
      unfold readAt in Hf. destruct (0 <=? f) eqn:H0; [|lia].
      rewrite Hf. f_equal; lia. }
    destruct arr as [|z [|z0 [|z1 [|z2 [|z3 [|z4 [|z5 [|z6 [|z7 arr]]]]]]]]];
      try discriminate Hl.
    pose proof (Hrd 0 ltac:(lia)) as H0. pose proof (Hrd 1 ltac:(lia)) as H1.
    pose proof (Hrd 2 ltac:(lia)) as H2. pose proof (Hrd 3 ltac:(lia)) as H3.
    pose proof (Hrd 4 ltac:(lia)) as H4. pose proof (Hrd 5 ltac:(lia)) as H5.
    pose proof (Hrd 6 ltac:(lia)) as H6. pose proof (Hrd 7 ltac:(lia)) as H7.
    apply (f_equal (default 0)) in H0, H1, H2, H3, H4, H5, H6, H7.
    cbn [map].
    change (z = pawnsOnFile board col 0 squares) in H0.
    change (z0 = pawnsOnFile board col 1 squares) in H1.
    change (z1 = pawnsOnFile board col 2 squares) in H2.
    change (z2 = pawnsOnFile board col 3 squares) in H3.
    change (z3 = pawnsOnFile board col 4 squares) in H4.
    change (z4 = pawnsOnFile board col 5 squares) in H5.
    change (z5 = pawnsOnFile board col 6 squares) in H6.
    change (z6 = pawnsOnFile board col 7 squares) in H7.
    congruence. }
  rewrite length_replicate in Hlw, Hlb.
  pose proof (Harr White _ Hlw Hfw) as Hw.
  pose proof (Harr Black _ Hlb Hfb) as Hb.
  exists t. split; [done|]. split; [unfold material, pst, mobility; lia|].
  split; [lia|]. split; [lia|]. split; [done|]. split; [done|].
  rewrite Hw, Hb. split; apply pawnsOnFile_total, squares_valid.
Qed.

Lemma first_pass_gathers_witness :
  wf_board startBoard
  /\ exists t,
       foldlM (visit startBoard) initTrackers squares = Some t
       /\ whitePawnsPerFile t = [1; 1; 1; 1; 1; 1; 1; 1]
       /\ whiteBishopCount t = 2.
Proof.
  split; [exact startBoard_wf|].
  destruct (first_pass_gathers startBoard startBoard_wf)
    as (t & Ht & _ & Hwb & _ & Hw & _).
  exists t. split; [exact Ht|]. split; [exact Hw|exact Hwb].
Defined.

Lemma rookAt_range board l r c pc :
  -25 <= rookAt board l r c pc <= 25.
Proof.
  unfold rookAt, sign, ROOK_OPEN_FILE_BONUS, ROOK_SEMI_OPEN_FILE_BONUS.
  destruct (type pc); try lia.
  destruct (_ =? 0); [|lia]. destruct (_ =? 0), (color pc); lia.
Qed.

Lemma sumOver_bound board f (l : list (Z * Z)) (k : Z) (t : PieceSymbol) :
  0 <= k ->
  (forall r c pc, - k <= f r c pc <= k) ->
  (forall r c pc, type pc <> t -> f r c pc = 0) ->
  - (k * (countOver board t White l + countOver board t Black l))
  <= sumOver board f l
  <= k * (countOver board t White l + countOver board t Black l).
Proof.
  intros Hk Hrange Hzero. induction l as [|[r c] l IH].
  - unfold sumOver, countOver, sumZ. cbn. lia.
  - rewrite (sumOver_cons _ _ (r, c) l), !(countOver_cons _ _ _ (r, c) l),
      sumOver_single, !countOver_single.
    unfold isPieceAt. destruct (pieceAt board r c) as [[ty col]|]; [|lia].
    cbn [type color]. pose proof (Hrange r c (mkPiece ty col)).
    pose proof (Hzero r c (mkPiece ty col)) as Hz. cbn [type] in Hz.
    destruct ty, t, col; cbn [PieceSymbol_eqb Color_eqb andb];
      try (rewrite Hz by discriminate); lia.
Qed.

(** X9. The second pass adds, for every rook, 25 when no pawn at all stands
    on its file, 10 when only pawns of the other colour do, and nothing when
    a pawn of its own colour does, wherever on the file the pawns are; the
    amounts count for White and against Black, so that the whole term is at
    most 25 times the number of rooks in absolute value. *)
Theorem second_pass_rook_files (board : Board) (total : Z) :
  wf_board board ->
  exists t,
    foldlM (visit board) initTrackers squares = Some t
    /\ foldlM (visitRook board (whitePawnsPerFile t) (blackPawnsPerFile t))
              total squares
       = Some (total + sumOver board (rookAt board squares) squares)
    /\ (forall r c col,
          rookAt board squares r c (mkPiece Rook col)
          = (if pawnsOnFile board col c squares =? 0
             then if pawnsOnFile board (MiniChess.opp col) c squares =? 0
                  then 25 else 10
             else 0) * sign col)
    /\ Z.abs (sumOver board (rookAt board squares) squares)
       <= 25 * (countOver board Rook White squares
                + countOver board Rook Black squares).
Proof.
  intros Hwf.
  destruct (pass1_ok board squares Hwf squares_valid initTrackers eq_refl eq_refl)
    as (t & Ht & _ & _ & _ & _ & _ & [Hlw Hfw] & [Hlb Hfb]).
  cbn [initTrackers whitePawnsPerFile blackPawnsPerFile] in *.
  exists t. split; [done|]. split_and!.
  - rewrite (foldlM_add _ (fun sq =>
       match pieceAt board (fst sq) (snd sq) with
       | Some pc => rookAt board squares (fst sq) (snd sq) pc
       | None => 0
       end)).
    + apply (f_equal (fun x => Some (total + x))). unfold sumOver.
      apply (f_equal sumZ), map_ext. by intros [r c].
    + intros [r c] acc Hin. cbn [fst snd].
      pose proof squares_valid as Hall. rewrite Forall_forall in Hall.
      specialize (Hall _ Hin). cbn [fst snd] in Hall.
      pose proof Hall as Hb. apply isValidSquare_spec in Hb.
      apply visitRook_rookAt; [done..| |].
      * rewrite (Hfw c 0) by (apply readAt_zeros; lia). f_equal; lia.
      * rewrite (Hfb c 0) by (apply readAt_zeros; lia). f_equal; lia.
  - intros r c col. unfold rookAt. cbn [type color].
    unfold ROOK_OPEN_FILE_BONUS, ROOK_SEMI_OPEN_FILE_BONUS.
    destruct col; cbn [MiniChess.opp];
      repeat match goal with |- context [?x =? 0] => destruct (x =? 0) end; lia.
  - pose proof (sumOver_bound board (rookAt board squares) squares 25 Rook
                  ltac:(lia) (rookAt_range board squares)) as Hb.
    apply Z.abs_le. apply Hb.
    intros r c pc Hty. unfold rookAt. by destruct (type pc).
Qed.

Lemma second_pass_rook_files_witness :
  wf_board mobilityBoard
  /\ exists t,
       foldlM (visit mobilityBoard) initTrackers squares = Some t
       /\ foldlM (visitRook mobilityBoard (whitePawnsPerFile t)
                            (blackPawnsPerFile t)) 0 squares
          = Some (-10).
Proof.
  split; [exact mobilityBoard_wf|].
  destruct (second_pass_rook_files mobilityBoard 0 mobilityBoard_wf)
    as (t & Ht & Hr & _).
  exists t. split; [exact Ht|exact Hr].
Defined.

End Passes.

(** ** The line of play behind a score *)

Section PrincipalLine.
Context {E : RulesEngine} {L : EngineLaws E}.
Hypothesis Hno : NoMovesIsOver E.

Lemma loopMax_line (d : nat) (g : Chess) :
  (forall g1 a b mx r g2,
      minimax d g1 a b mx = Some (r, g2) ->
      g2 = g1
      /\ exists gl s, horizon d g1 (bestMove r) gl
                      /\ Evaluation.evaluateBoard (game_board gl) = Some s
                      /\ bestScore r = Fin s) ->
  game_isGameOver g = false ->
  forall ms a b m0 best r g',
    (forall m, m ∈ ms -> m ∈ game_moves g) ->
    loopMax (minimax d) ms g a b m0 best = Some (r, g') ->
    (m0 = NegInf /\ best = None /\ ms <> []
     \/ exists m gl s, best = Some m /\ horizon (S d) g (Some m) gl
                       /\ Evaluation.evaluateBoard (game_board gl) = Some s
                       /\ m0 = Fin s) ->
    g' = g
    /\ exists m gl s, bestMove r = Some m /\ horizon (S d) g (Some m) gl
                      /\ Evaluation.evaluateBoard (game_board gl) = Some s
                      /\ bestScore r = Fin s.
Proof.
  intros Hd Hover. induction ms as [|m rest IH]; intros a b m0 best r g' Hin Hl Hinv.
  - cbn in Hl. injection Hl as <- <-. cbn.
    destruct Hinv as [(_ & _ & ?)|?]; done.
  - cbn [loopMax] in Hl.
    destruct (move_undo g m) as (g1 & Hmv & Hun); [apply Hin; left|].
    rewrite Hmv in Hl. cbn [mbind option_bind] in Hl.
    destruct (minimax d g1 a b false) as [[r1 g2]|] eqn:Hrec; [|done].
    cbn [mbind option_bind] in Hl.
    destruct (Hd _ _ _ _ _ _ Hrec) as (-> & gl1 & s1 & Hline1 & Hev1 & Hs1).
    rewrite Hun, Hs1 in Hl.
    assert (Hnext : exists m' gl s,
              (if num_ltb m0 (Fin s1) then Some m else best) = Some m'
              /\ horizon (S d) g (Some m') gl
              /\ Evaluation.evaluateBoard (game_board gl) = Some s
              /\ (if num_ltb m0 (Fin s1) then Fin s1 else m0) = Fin s).
    { assert (Hnew : horizon (S d) g (Some m) gl1).
      { eapply horizon_step; [done| |done|done]. apply Hin. left. }
      destruct Hinv as [(-> & -> & _)|(m' & gl & s & -> & Hline & Hev & ->)].
      - exists m, gl1, s1. done.
      - destruct (num_ltb (Fin s) (Fin s1)).
        + exists m, gl1, s1. done.
        + exists m', gl, s. done. }
    destruct (num_leb b (num_max a (Fin s1))).
    + injection Hl as <- <-. cbn. split; [done|exact Hnext].
    + eapply IH; [|exact Hl|right; exact Hnext].
      intros; apply Hin; by right.
Qed.

Lemma loopMin_line (d : nat) (g : Chess) :
  (forall g1 a b mx r g2,
      minimax d g1 a b mx = Some (r, g2) ->
      g2 = g1
      /\ exists gl s, horizon d g1 (bestMove r) gl
                      /\ Evaluation.evaluateBoard (game_board gl) = Some s
                      /\ bestScore r = Fin s) ->
  game_isGameOver g = false ->
  forall ms a b m0 best r g',
    (forall m, m ∈ ms -> m ∈ game_moves g) ->
    loopMin (minimax d) ms g a b m0 best = Some (r, g') ->
    (m0 = PosInf /\ best = None /\ ms <> []
     \/ exists m gl s, best = Some m /\ horizon (S d) g (Some m) gl
                       /\ Evaluation.evaluateBoard (game_board gl) = Some s
                       /\ m0 = Fin s) ->
    g' = g
    /\ exists m gl s, bestMove r = Some m /\ horizon (S d) g (Some m) gl
                      /\ Evaluation.evaluateBoard (game_board gl) = Some s
                      /\ bestScore r = Fin s.
Proof.
  intros Hd Hover. induction ms as [|m rest IH]; intros a b m0 best r g' Hin Hl Hinv.
  - cbn in Hl. injection Hl as <- <-. cbn.
    destruct Hinv as [(_ & _ & ?)|?]; done.
  - cbn [loopMin] in Hl.
    destruct (move_undo g m) as (g1 & Hmv & Hun); [apply Hin; left|].
    rewrite Hmv in Hl. cbn [mbind option_bind] in Hl.
    destruct (minimax d g1 a b true) as [[r1 g2]|] eqn:Hrec; [|done].
    cbn [mbind option_bind] in Hl.
    destruct (Hd _ _ _ _ _ _ Hrec) as (-> & gl1 & s1 & Hline1 & Hev1 & Hs1).
    rewrite Hun, Hs1 in Hl.
    assert (Hnext : exists m' gl s,
              (if num_ltb (Fin s1) m0 then Some m else best) = Some m'
              /\ horizon (S d) g (Some m') gl
              /\ Evaluation.evaluateBoard (game_board gl) = Some s
              /\ (if num_ltb (Fin s1) m0 then Fin s1 else m0) = Fin s).
    { assert (Hnew : horizon (S d) g (Some m) gl1).
      { eapply horizon_step; [done| |done|done]. apply Hin. left. }
      destruct Hinv as [(-> & -> & _)|(m' & gl & s & -> & Hline & Hev & ->)].
      - exists m, gl1, s1. done.
      - destruct (num_ltb (Fin s1) (Fin s)).
        + exists m, gl1, s1. done.
        + exists m', gl, s. done. }
    destruct (num_leb (num_min b (Fin s1)) a).
    + injection Hl as <- <-. cbn. split; [done|exact Hnext].
    + eapply IH; [|exact Hl|right; exact Hnext].
      intros; apply Hin; by right.
Qed.

Lemma minimax_line (d : nat) :
  forall (g : Chess) (a b : num) (mx : bool) (r : MinimaxResult) (g' : Chess),
    minimax d g a b mx = Some (r, g') ->
    g' = g
    /\ exists gl s, horizon d g (bestMove r) gl
                    /\ Evaluation.evaluateBoard (game_board gl) = Some s
                    /\ bestScore r = Fin s.
Proof.
  induction d as [|d IH]; intros g a b mx r g' Hr.
  - cbn [minimax] in Hr. destruct (leaf_static g) as (z & Hz & Hl & _).
    rewrite Hl in Hr. injection Hr as <- <-. cbn.
    split; [done|]. exists g, z. split; [|done]. constructor. by left.
  - cbn [minimax] in Hr. destruct (game_isGameOver g) eqn:Hover.
    { destruct (leaf_static g) as (z & Hz & Hl & _).
      rewrite Hl in Hr. injection Hr as <- <-. cbn.
      split; [done|]. exists g, z. split; [|done]. constructor. by right. }
    assert (Hin : forall m, m ∈ sortMoves (game_moves g) -> m ∈ game_moves g)
      by (intros m; rewrite sortMoves_Permutation; done).
    assert (Hne : sortMoves (game_moves g) <> []).
    { intros Hnil. apply (Hno g Hover).
      apply Permutation_nil_r. rewrite <- Hnil.
      symmetry. apply sortMoves_Permutation. }
    assert (Hres : g' = g
              /\ exists m gl s, bestMove r = Some m
                   /\ horizon (S d) g (Some m) gl
                   /\ Evaluation.evaluateBoard (game_board gl) = Some s
                   /\ bestScore r = Fin s).
    { destruct mx.
      - eapply (loopMax_line d g IH Hover); [exact Hin|exact Hr|]. left. done.
      - eapply (loopMin_line d g IH Hover); [exact Hin|exact Hr|]. left. done. }
    destruct Hres as (-> & m & gl & s & Hm & Hline & Hev & Hs).
    split; [done|]. exists gl, s. by rewrite Hm.
Qed.

End PrincipalLine.

(** X10. The score [minimax] returns, in any window and with or without
    cut-offs, is the static evaluation of a position at which the search
    stops (depth exhausted or game over), and that position is reached from
    the root by a line of legal moves whose first move is the returned
    [bestMove]. *)
Theorem minimax_score_of_line (E : RulesEngine) (L : EngineLaws E)
    (d : nat) (g : Chess) (a b : num) (mx : bool) :
  NoMovesIsOver E ->
  exists r gl s,
    minimax d g a b mx = Some (r, g)
    /\ horizon d g (bestMove r) gl
    /\ Evaluation.evaluateBoard (game_board gl) = Some s
    /\ bestScore r = Fin s.
Proof.
  intros Hno. destruct (minimax_restores d g a b mx) as (r & Hr).
  destruct (minimax_line Hno d g a b mx r g Hr) as (_ & gl & s & Hline & Hev & Hs).
  by exists r, gl, s.
Qed.

Lemma minimax_score_of_line_witness :
  EngineLaws MiniChess.engine
  /\ NoMovesIsOver MiniChess.engine
  /\ exists r gl s,
       minimax (E := MiniChess.engine) 2 backRankTrap NegInf PosInf true
       = Some (r, backRankTrap)
       /\ horizon (E := MiniChess.engine) 2 backRankTrap (bestMove r) gl
       /\ Evaluation.evaluateBoard (@game_board MiniChess.engine gl) = Some s
       /\ bestScore r = Fin s.
Proof.
  split; [exact MiniChessLaws.laws|].
  split; [exact MiniChessLaws.noMovesIsOver|].
  exact (minimax_score_of_line MiniChess.engine MiniChessLaws.laws 2%nat
           backRankTrap NegInf PosInf true MiniChessLaws.noMovesIsOver).
Defined.

(** ** The caller of [getBestMove] *)

(** X11. The effect of [App] that plays the computer's move, for a random
    number that is a binary64 value of [0, 1) and a list of fewer than
    [2 ^ 32] moves: it leaves [game] as it found it; it stays idle exactly
    when the game is over or drawn, a promotion choice is open, or it is the
    player's turn; otherwise it plays a legal move, [getBestMove] never
    handing it [null] (at Easy the rounded product of the random number and
    the number of moves stays below that number); and at Medium and Hard
    that move is the [bestMove] of the top-level [minimax] call, never the
    first generated move taken as a fallback. *)
Theorem aiMoveEffect_plays_search_move (E : RulesEngine) (L : EngineLaws E)
    (game_isDraw : Chess -> bool) (random : Q) (g : Chess)
    (difficulty : Difficulty) (playerColor : Color) (pendingPromotion : bool) :
  NoMovesIsOver E ->
  isDouble random -> (0 <= random)%Q -> (random < 1)%Q ->
  Z.of_nat (length (game_moves g)) < 2 ^ 32 ->
  exists act,
    aiMoveEffect game_isDraw random g difficulty playerColor pendingPromotion
    = Some (act, g)
    /\ act <> Skip
    /\ (act = Idle <->
        game_isGameOver g = true \/ game_isDraw g = true
        \/ pendingPromotion = true \/ game_turn g = playerColor)
    /\ (forall m, act = Play m ->
          m ∈ game_moves g
          /\ (difficulty <> Easy ->
              exists r,
                minimax (depthOf difficulty) g NegInf PosInf
                        (Color_eqb (game_turn g) White) = Some (r, g)
                /\ bestMove r = Some m)).
Proof.
  intros Hno Hdbl H0 H1 Hlen. unfold aiMoveEffect.
  destruct (game_isGameOver g) eqn:Hover; cbn [orb].
  { exists Idle. split; [done|]. split; [done|]. split; [|done].
    split; [by left|done]. }
  destruct (game_isDraw g) eqn:Hdraw; cbn [orb].
  { exists Idle. split; [done|]. split; [done|]. split; [|done].
    split; [by right; left|done]. }
  destruct pendingPromotion; cbn [orb].
  { exists Idle. split; [done|]. split; [done|]. split; [|done].
    split; [by right; right; left|done]. }
  assert (Hturn : Color_eqb (game_turn g) playerColor = true
                  <-> game_turn g = playerColor)
    by (destruct (game_turn g), playerColor; done).
  destruct (Color_eqb (game_turn g) playerColor) eqn:Hc; cbn [negb].
  { exists Idle. split; [done|]. split; [done|]. split; [|done].
    split; [|done]. intros _. right; right; right. by apply Hturn. }
  assert (Hidle : ~ (false = true \/ false = true \/ false = true
                     \/ game_turn g = playerColor)).
  { intros [?|[?|[?|Ht]]]; try done. apply Hturn in Ht. done. }
  pose proof (Hno g Hover) as Hne.
  assert (Heasy : difficulty = Easy \/ difficulty <> Easy)
    by (destruct difficulty; [by left|by right..]).
  destruct Heasy as [->|Hd].
  - destruct (getBestMove_easy_index random g Hdbl H0 H1 Hne Hlen)
      as (product & i & m & _ & _ & Hm & ->).
    cbn [mbind option_bind].
    exists (Play m). split; [done|]. split; [done|].
    split; [split; [done|intros H; by destruct (Hidle H)]|].
    intros m' [= <-]. split; [|done]. by eapply list_elem_of_lookup_2.
  - destruct (getBestMove_search random g difficulty Hne Hd) as (r & Hr & ->).
    cbn [mbind option_bind].
    destruct (minimax_node Hno _ _ _ _ _ _ _ Hr) as (_ & _ & Hinner).
    destruct Hinner as (m & Hm & Hin); [by destruct difficulty|done|].
    rewrite Hm. exists (Play m). split; [done|]. split; [done|].
    split; [split; [done|intros H; by destruct (Hidle H)]|].
    intros m' [= <-]. split; [done|]. intros _. by exists r.
Qed.

Lemma aiMoveEffect_plays_search_move_witness :
  EngineLaws MiniChess.engine
  /\ NoMovesIsOver MiniChess.engine
  /\ isDouble (1 # 2)
  /\ (0 <= 1 # 2)%Q /\ (1 # 2 < 1)%Q
  /\ Z.of_nat (length (@game_moves MiniChess.engine mateOrKnight)) < 2 ^ 32
  /\ exists act,
       aiMoveEffect (E := MiniChess.engine)
         (fun g => MiniChess.insufficientMaterial (MiniChess.view g))
         (1 # 2) mateOrKnight Easy Black false
       = Some (act, mateOrKnight)
       /\ act <> Skip.
Proof.
  split; [exact MiniChessLaws.laws|].
  split; [exact MiniChessLaws.noMovesIsOver|].
  assert (Hd : isDouble (1 # 2)).
  { exists 1, (-1). split; [reflexivity|]. split; [lia|reflexivity]. }
  assert (H0 : (0 <= 1 # 2)%Q) by (vm_compute; discriminate).
  assert (H1 : (1 # 2 < 1)%Q) by reflexivity.
  assert (Hl : Z.of_nat (length (@game_moves MiniChess.engine mateOrKnight))
               < 2 ^ 32) by (vm_compute; reflexivity).
  do 4 (split; [assumption|]).
  destruct (aiMoveEffect_plays_search_move MiniChess.engine MiniChessLaws.laws
              (fun g => MiniChess.insufficientMaterial (MiniChess.view g))
              (1 # 2) mateOrKnight Easy Black false
              MiniChessLaws.noMovesIsOver Hd H0 H1 Hl)
    as (act & Hact & Hskip & _).
  exists act. split; [exact Hact|exact Hskip].
Defined.

(** ** The table of moves *)

Section MovePairs.
Import MoveHistory.

Lemma orEmpty_default (s : option string) : orEmpty s = default EmptyString s.
Proof.
  destruct s as [s|]; [|done]. cbn.
  destruct (String.eqb_spec s EmptyString) as [->|]; done.
Qed.

Lemma movePairsLoop_rows (history : list string) (fuel : nat) :
  forall (i : nat) (acc : list MovePair),
    (1 <= fuel)%nat -> (length history + 2 <= i + 2 * fuel)%nat ->
    exists rows,
      movePairsLoop fuel history i acc = Some (acc ++ rows)
      /\ length rows = ((length history - i + 1) / 2)%nat
      /\ (forall k p, rows !! k = Some p ->
            number p = Z.of_nat (i + 2 * k) / 2 + 1
            /\ white p = history !! (i + 2 * k)%nat
            /\ is_Some (white p)
            /\ black p = default EmptyString (history !! (i + 2 * k + 1)%nat))
      /\ (Forall (fun s => s <> EmptyString) history ->
          concat (map cells rows) = drop i history).
Proof.
  induction fuel as [|fuel IH]; intros i acc Hf Hlen; [lia|].
  cbn [movePairsLoop]. destruct (Nat.ltb_spec i (length history)) as [Hi|Hi].
  - destruct (IH (i + 2)%nat
                (acc ++ [ {| white := history !! i;
                             black := orEmpty (history !! (i + 1)%nat);
                             number := Z.of_nat i / 2 + 1 |} ]))
      as (rows & -> & Hl & Hrows & Hcat); [lia..|].
    eexists (_ :: rows). split; [by rewrite <- app_assoc|].
    destruct (lookup_lt_is_Some_2 history i Hi) as [w Hw].
    split; [|split].
    + cbn [length]. rewrite Hl.
      destruct (decide (length history = S i)) as [Heq|Hneq].
      * replace (length history - (i + 2) + 1)%nat with 1%nat by lia.
        replace (length history - i + 1)%nat with 2%nat by lia. done.
      * replace (length history - i + 1)%nat
          with (1 * 2 + (length history - (i + 2) + 1))%nat by lia.
        rewrite Nat.div_add_l by done. lia.
    + intros [|k] p Hp.
      * injection Hp as <-. cbn [number white black].
        rewrite Nat.mul_0_r, Nat.add_0_r, orEmpty_default. rewrite Hw. done.
      * cbn [lookup list_lookup] in Hp. destruct (Hrows k p Hp) as (Hn & Hwh & Hs & Hb).
        replace (i + 2 * S k)%nat with (i + 2 + 2 * k)%nat by lia. done.
    + intros Hall. cbn [map concat]. rewrite (Hcat Hall).
      unfold cells at 1. cbn [white black]. rewrite Hw, orEmpty_default.
      rewrite (drop_S _ _ _ Hw).
      destruct (history !! (i + 1)%nat) as [b|] eqn:Hb;
        cbn [default from_option id].
      * assert (b <> EmptyString) as Hne.
        { rewrite Forall_forall in Hall. apply Hall.
          by eapply list_elem_of_lookup_2. }
        destruct (String.eqb_spec b EmptyString) as [->|_]; [done|].
        replace (S i) with (i + 1)%nat by lia. rewrite (drop_S _ _ _ Hb).
        replace (S (i + 1)) with (i + 2)%nat by lia. done.
      * apply lookup_ge_None in Hb.
        rewrite !drop_ge by lia. done.
  - exists []. split; [by rewrite app_nil_r|]. split; [|split].
    + cbn [length]. symmetry. apply Nat.div_small. lia.
    + intros k p Hp. done.
    + intros _. by rewrite drop_ge.
Qed.

End MovePairs.

(** X12. The rows of the move table: the loop ends, and for a history of
    [n] moves it makes [ceil (n / 2)] rows; row [k] carries the number
    [k + 1], the move of index [2 k] as White's move and the move of index
    [2 k + 1] as Black's move, or the empty string when the history ends on a
    move of White; when no move is written as the empty string, the cells of
    the rows read in order are the history. *)
Theorem movePairs_rows (history : list string) :
  exists rows,
    MoveHistory.movePairs history = Some rows
    /\ length rows = ((length history + 1) / 2)%nat
    /\ (forall k p, rows !! k = Some p ->
          MoveHistory.number p = Z.of_nat k + 1
          /\ MoveHistory.white p = history !! (2 * k)%nat
          /\ is_Some (MoveHistory.white p)
          /\ MoveHistory.black p
             = default EmptyString (history !! (2 * k + 1)%nat))
    /\ (Forall (fun s => s <> EmptyString) history ->
        concat (map MoveHistory.cells rows) = history).
Proof.
  destruct (movePairsLoop_rows history (S (length history)) 0 [])
    as (rows & Hr & Hl & Hrows & Hcat); [lia..|].
  exists rows. split; [exact Hr|]. split; [by rewrite Nat.sub_0_r in Hl|].
  split; [|exact Hcat].
  intros k p Hp. destruct (Hrows k p Hp) as (Hn & Hw & Hs & Hb).
  cbn [Nat.add] in Hn, Hw, Hb. split; [|done].
  rewrite Hn, Nat2Z.inj_mul, Z.mul_comm, Z.div_mul by done. done.
Qed.

(** ** The evaluation from the other side *)

Section Flip.
Import Evaluation Terms.

Lemma flipBoard_wf (board : Board) : wf_board board -> wf_board (flipBoard board).
Proof.
  intros [Hl Hrows]. unfold flipBoard. split.
  - by rewrite length_reverse, length_map.
  - apply Forall_reverse, Forall_map. eapply Forall_impl; [exact Hrows|].
    intros row Hrow. cbn. by rewrite length_reverse, length_map.
Qed.

Lemma pieceAt_flip (board : Board) (r c : Z) :
  wf_board board -> isValidSquare r c = true ->
  pieceAt (flipBoard board) r c = swapPiece <$> pieceAt board (7 - r) (7 - c).
Proof.
  intros [Hl Hrows] Hv. apply isValidSquare_spec in Hv.
  unfold pieceAt, board_at.
  destruct ((0 <=? r) && (0 <=? c)) eqn:Hb; [|lia].
  destruct ((0 <=? 7 - r) && (0 <=? 7 - c)) eqn:Hb'; [|lia].
  unfold flipBoard. rewrite reverse_lookup by (rewrite length_map; lia).
  rewrite length_map, Hl, list_lookup_fmap.
  replace (8 - S (Z.to_nat r))%nat with (Z.to_nat (7 - r)) by lia.
  destruct (lookup_lt_is_Some_2 board (Z.to_nat (7 - r))) as [row Hrow]; [lia|].
  rewrite Hrow. cbn [fmap option_fmap option_map mbind option_bind].
  assert (length row = 8%nat) as Hr.
  { rewrite Forall_forall in Hrows. apply Hrows.
    by eapply list_elem_of_lookup_2. }
  rewrite reverse_lookup by (rewrite length_map; lia).
  rewrite length_map, Hr, list_lookup_fmap.
  replace (8 - S (Z.to_nat c))%nat with (Z.to_nat (7 - c)) by lia.
  destruct (lookup_lt_is_Some_2 row (Z.to_nat (7 - c))) as [x Hx]; [lia|].
  rewrite Hx. done.
Qed.

Lemma swapColor_involutive (col : Color) : swapColor (swapColor col) = col.
Proof. by destruct col. Qed.

Lemma sign_swap (col : Color) : sign (swapColor col) = - sign col.
Proof. by destruct col. Qed.

Lemma Color_eqb_swap (x y : Color) :
  Color_eqb (swapColor x) y = Color_eqb x (swapColor y).
Proof. by destruct x, y. Qed.

Lemma isValidSquare_reflect (r c : Z) :
  isValidSquare (7 - r) (7 - c) = isValidSquare r c.
Proof.
  destruct (isValidSquare r c) eqn:Hv.
  - apply isValidSquare_spec in Hv. apply isValidSquare_spec. lia.
  - destruct (isValidSquare (7 - r) (7 - c)) eqn:Hv'; [|done].
    apply isValidSquare_spec in Hv'.
    assert (isValidSquare r c = true) by (apply isValidSquare_spec; lia).
    congruence.
Qed.

Lemma isPieceAt_flip (board : Board) (t : PieceSymbol) (col : Color) (r c : Z) :
  wf_board board -> isValidSquare r c = true ->
  isPieceAt (flipBoard board) t col r c
  = isPieceAt board t (swapColor col) (7 - r) (7 - c).
Proof.
  intros Hwf Hv. unfold isPieceAt. rewrite pieceAt_flip by done.
  destruct (pieceAt board (7 - r) (7 - c)) as [pc|]; [|done].
  cbn. by rewrite Color_eqb_swap.
Qed.

(** *** Sums over the squares *)

Lemma sumZ_perm (l1 l2 : list Z) : l1 ≡ₚ l2 -> sumZ l1 = sumZ l2.
Proof. unfold sumZ. induction 1; cbn [foldr] in *; lia. Qed.

Lemma sumZ_opp {A : Type} (k : A -> Z) (l : list A) :
  sumZ (map (fun x => - k x) l) = - sumZ (map k l).
Proof. unfold sumZ. induction l; cbn [map foldr] in *; lia. Qed.

Lemma sumZ_map_ext {A : Type} (h1 h2 : A -> Z) (l : list A) :
  Forall (fun x => h1 x = h2 x) l -> sumZ (map h1 l) = sumZ (map h2 l).
Proof. unfold sumZ. induction 1; cbn [map foldr] in *; congruence. Qed.

Lemma squares_reflect :
  map (fun sq : Z * Z => (7 - fst sq, 7 - snd sq)) squares = reverse squares.
Proof. reflexivity. Qed.

Lemma sum_reflect (h : Z * Z -> Z) :
  sumZ (map (fun sq => h (7 - fst sq, 7 - snd sq)) squares) = sumZ (map h squares).
Proof.
  transitivity (sumZ (map h (map (fun sq : Z * Z => (7 - fst sq, 7 - snd sq))
                                squares))).
  - by rewrite map_map.
  - rewrite squares_reflect. apply sumZ_perm, Permutation_map, reverse_Permutation.
Qed.

Lemma sumZ_squares_ext (h1 h2 : Z * Z -> Z) :
  (forall r c, isValidSquare r c = true -> h1 (r, c) = h2 (r, c)) ->
  sumZ (map h1 squares) = sumZ (map h2 squares).
Proof.
  intros Hext. apply sumZ_map_ext.
  eapply Forall_impl; [apply squares_valid|].
  intros [r c] Hv. by apply Hext.
Qed.

Lemma sumOver_flip (board : Board) (f f' : Z -> Z -> Piece -> Z) :
  wf_board board ->
  (forall r c pc, isValidSquare r c = true ->
                  f r c (swapPiece pc) = - f' (7 - r) (7 - c) pc) ->
  sumOver (flipBoard board) f squares = - sumOver board f' squares.
Proof.
  intros Hwf Hf. unfold sumOver.
  rewrite <- (sum_reflect (fun '(r, c) =>
                 match pieceAt board r c with
                 | Some pc => f' r c pc
                 | None => 0
                 end)).
  rewrite <- sumZ_opp. apply sumZ_squares_ext. intros r c Hv. cbn [fst snd].
  rewrite pieceAt_flip by done.
  destruct (pieceAt board (7 - r) (7 - c)) as [pc|]; cbn; [by apply Hf|done].
Qed.

Lemma countOver_flip (board : Board) (t : PieceSymbol) (col : Color) :
  wf_board board ->
  countOver (flipBoard board) t col squares
  = countOver board t (swapColor col) squares.
Proof.
  intros Hwf. unfold countOver.
  rewrite <- (sum_reflect (fun '(r, c) =>
                 if isPieceAt board t (swapColor col) r c then 1 else 0)).
  apply sumZ_squares_ext. intros r c Hv. cbn [fst snd].
  by rewrite isPieceAt_flip.
Qed.

Lemma countOver_filter (board : Board) (t : PieceSymbol) (col : Color)
    (P : Z * Z -> bool) (l : list (Z * Z)) :
  countOver board t col (List.filter P l)
  = sumZ (map (fun sq => if P sq
                         then if isPieceAt board t col (fst sq) (snd sq)
                              then 1 else 0
                         else 0) l).
Proof.
  unfold countOver, sumZ. induction l as [|[r c] l IH]; [done|].
  cbn [List.filter map foldr fst snd]. destruct (P (r, c)).
  - cbn [map foldr]. rewrite IH. done.
  - rewrite IH. lia.
Qed.

Lemma pawnsOnFile_flip (board : Board) (col : Color) (file : Z) :
  wf_board board ->
  pawnsOnFile (flipBoard board) col file squares
  = pawnsOnFile board (swapColor col) (7 - file) squares.
Proof.
  intros Hwf. unfold pawnsOnFile. rewrite !countOver_filter.
  rewrite <- (sum_reflect (fun sq =>
                 if (let '(_, c) := sq in c =? 7 - file)
                 then if isPieceAt board Pawn (swapColor col) (fst sq) (snd sq)
                      then 1 else 0
                 else 0)).
  apply sumZ_squares_ext. intros r c Hv. cbn [fst snd].
  rewrite isPieceAt_flip by done.
  destruct (Z.eqb_spec c file), (Z.eqb_spec (7 - c) (7 - file)); try lia; done.
Qed.

(** *** The terms *)

Lemma materialAt_flip (r c : Z) (pc : Piece) :
  materialAt r c (swapPiece pc) = - materialAt (7 - r) (7 - c) pc.
Proof. unfold materialAt. cbn [type color swapPiece]. rewrite sign_swap. lia. Qed.

Lemma pstAt_flip (r c : Z) (pc : Piece) :
  isValidSquare r c = true ->
  pstAt r c (swapPiece pc) = - pstAt (7 - r) (7 - c) pc.
Proof.
  intros Hv. apply isValidSquare_spec in Hv.
  unfold pstAt. cbn [type color swapPiece]. rewrite sign_swap.
  destruct (color pc); cbn [swapColor].
  - replace (63 - (r * 8 + c)) with ((7 - r) * 8 + (7 - c)) by lia. lia.
  - replace (63 - ((7 - r) * 8 + (7 - c))) with (r * 8 + c) by lia. lia.
Qed.

Lemma rayCount_flip (board : Board) (col : Color) (n : nat) (dr dc : Z) :
  wf_board board ->
  forall nr nc,
    rayCount (flipBoard board) col (rayFrom n nr nc dr dc)
    = rayCount board (swapColor col)
        (rayFrom n (7 - nr) (7 - nc) (- dr) (- dc)).
Proof.
  intros Hwf. induction n as [|n IH]; intros nr nc; [done|].
  cbn [rayFrom rayCount]. rewrite isValidSquare_reflect.
  destruct (isValidSquare nr nc) eqn:Hv; [|done].
  rewrite pieceAt_flip by done.
  destruct (pieceAt board (7 - nr) (7 - nc)) as [t|]; cbn.
  - by rewrite Color_eqb_swap.
  - rewrite IH.
    replace (7 - (nr + dr)) with (7 - nr + - dr) by lia.
    replace (7 - (nc + dc)) with (7 - nc + - dc) by lia. done.
Qed.

Lemma hopCount_flip (board : Board) (col : Color) (nr nc : Z) :
  wf_board board ->
  hopCount (flipBoard board) col (nr, nc)
  = hopCount board (swapColor col) (7 - nr, 7 - nc).
Proof.
  intros Hwf. unfold hopCount. rewrite isValidSquare_reflect.
  destruct (isValidSquare nr nc) eqn:Hv; [|done].
  rewrite pieceAt_flip by done.
  destruct (pieceAt board (7 - nr) (7 - nc)) as [t|]; cbn; [|done].
  by rewrite Color_eqb_swap.
Qed.

Lemma slidingCount_flip (board : Board) (col : Color) (r c : Z)
    (dirs : list (Z * Z)) :
  wf_board board ->
  slidingCount (flipBoard board) col r c dirs
  = sumZ (map (fun '(dr, dc) =>
                 rayCount board (swapColor col)
                   (rayFrom 7 (7 - r + - dr) (7 - c + - dc) (- dr) (- dc)))
              dirs).
Proof.
  intros Hwf. unfold slidingCount. apply sumZ_map_ext, Forall_forall.
  intros [dr dc] _. rewrite rayCount_flip by done.
  replace (7 - (r + dr)) with (7 - r + - dr) by lia.
  replace (7 - (c + dc)) with (7 - c + - dc) by lia. done.
Qed.

Lemma knight_flip (board : Board) (col : Color) (r c : Z) :
  wf_board board ->
  sumZ (map (fun '(dr, dc) => hopCount (flipBoard board) col (r + dr, c + dc))
            knightDirs)
  = sumZ (map (fun '(dr, dc) =>
                 hopCount board (swapColor col) (7 - r + - dr, 7 - c + - dc))
              knightDirs).
Proof.
  intros Hwf. apply sumZ_map_ext, Forall_forall.
  intros [dr dc] _. rewrite hopCount_flip by done.
  replace (7 - (r + dr)) with (7 - r + - dr) by lia.
  replace (7 - (c + dc)) with (7 - c + - dc) by lia. done.
Qed.

Ltac norm_opp :=
  repeat match goal with
    | |- context [Z.opp (Zpos ?p)] => change (Z.opp (Zpos p)) with (Zneg p)
    | |- context [Z.opp (Zneg ?p)] => change (Z.opp (Zneg p)) with (Zpos p)
    | |- context [Z.opp Z0] => change (Z.opp Z0) with Z0
    end.

Lemma reach_flip (board : Board) (r c : Z) (t : PieceSymbol) (col : Color) :
  wf_board board ->
  reach (flipBoard board) r c t col = reach board (7 - r) (7 - c) t (swapColor col).
Proof.
  intros Hwf. unfold reach. destruct t; try done.
  - rewrite knight_flip by done. unfold knightDirs, sumZ.
    cbn [map foldr]. norm_opp. lia.
  - rewrite slidingCount_flip by done. unfold slidingCount, bishopDirs, sumZ.
    cbn [map foldr]. norm_opp. lia.
  - rewrite slidingCount_flip by done. unfold slidingCount, rookDirs, sumZ.
    cbn [map foldr]. norm_opp. lia.
  - rewrite slidingCount_flip by done.
    unfold slidingCount, rookDirs, bishopDirs, sumZ.
    cbn [map foldr app]. norm_opp. lia.
Qed.

Lemma mobilityAt_flip (board : Board) (r c : Z) (pc : Piece) :
  wf_board board ->
  mobilityAt (flipBoard board) r c (swapPiece pc)
  = - mobilityAt board (7 - r) (7 - c) pc.
Proof.
  intros Hwf. unfold mobilityAt. cbn [type color swapPiece].
  rewrite reach_flip, swapColor_involutive, sign_swap by done. lia.
Qed.

Lemma rookAt_flip (board : Board) (r c : Z) (pc : Piece) :
  wf_board board ->
  rookAt (flipBoard board) squares r c (swapPiece pc)
  = - rookAt board squares (7 - r) (7 - c) pc.
Proof.
  intros Hwf. unfold rookAt. cbn [type color swapPiece].
  destruct (type pc); try done.
  rewrite !pawnsOnFile_flip by done. rewrite swapColor_involutive, sign_swap.
  destruct (color pc); cbn [swapColor];
    repeat match goal with |- context [?x =? 0] => destruct (x =? 0) end; lia.
Qed.

(** *** The king *)

Lemma squares_complete (r c : Z) :
  isValidSquare r c = true -> (r, c) ∈ squares.
Proof.
  intros Hv%isValidSquare_spec. unfold squares.
  apply list_elem_of_bind. exists r. split.
  - apply list_elem_of_bind. exists c. split; [left|].
    assert (c = 0 \/ c = 1 \/ c = 2 \/ c = 3 \/ c = 4 \/ c = 5 \/ c = 6 \/ c = 7)
      as Hc by lia.
    rewrite !elem_of_cons. tauto.
  - assert (r = 0 \/ r = 1 \/ r = 2 \/ r = 3 \/ r = 4 \/ r = 5 \/ r = 6 \/ r = 7)
      as Hr by lia.
    rewrite !elem_of_cons. tauto.
Qed.

Lemma lastKing_isPieceAt board col l r c :
  lastKing board col l = Some (r, c) -> isPieceAt board King col r c = true.
Proof.
  induction l as [|[r0 c0] l IH]; cbn [lastKing]; [done|].
  destruct (lastKing board col l) as [p|].
  - intros [= ->]. by apply IH.
  - destruct (isPieceAt board King col r0 c0) eqn:Hk; [|done].
    by intros [= <- <-].
Qed.

Lemma lastKing_none board col l r c :
  lastKing board col l = None -> (r, c) ∈ l ->
  isPieceAt board King col r c = false.
Proof.
  induction l as [|[r0 c0] l IH]; cbn [lastKing]; [by intros _ ?%elem_of_nil|].
  destruct (lastKing board col l) as [p|]; [done|].
  destruct (isPieceAt board King col r0 c0) eqn:Hk; [done|].
  intros _ [[= -> ->]|Hin]%elem_of_cons; [done|by apply IH].
Qed.

Lemma countOver_nonneg board t col l : 0 <= countOver board t col l.
Proof.
  induction l as [|[r c] l IH]; [unfold countOver, sumZ; cbn; lia|].
  rewrite (countOver_cons _ _ _ (r, c) l), countOver_single.
  destruct (isPieceAt board t col r c); lia.
Qed.

Lemma countOver_elem board t col l r c :
  (r, c) ∈ l -> isPieceAt board t col r c = true -> 1 <= countOver board t col l.
Proof.
  induction l as [|[r0 c0] l IH]; [by intros ?%elem_of_nil|].
  intros Hin Hp. rewrite (countOver_cons _ _ _ (r0, c0) l), countOver_single.
  pose proof (countOver_nonneg board t col l).
  apply elem_of_cons in Hin as [[= <- <-]|Hin].
  - rewrite Hp. lia.
  - specialize (IH Hin Hp). destruct (isPieceAt board t col r0 c0); lia.
Qed.

(** With at most one king of a colour among the squares scanned, the tracker
    ends on that king whatever the order of the scan. *)
Lemma lastKing_unique board col l r c :
  countOver board King col l <= 1 ->
  (r, c) ∈ l -> isPieceAt board King col r c = true ->
  lastKing board col l = Some (r, c).
Proof.
  induction l as [|[r0 c0] l IH]; [by intros _ ?%elem_of_nil|].
  intros Hcount Hin Hp.
  rewrite (countOver_cons _ _ _ (r0, c0) l), countOver_single in Hcount.
  pose proof (countOver_nonneg board King col l) as Hnn.
  cbn [lastKing]. destruct (lastKing board col l) as [[r1 c1]|] eqn:Hlast.
  - pose proof (lastKing_elem _ _ _ _ Hlast) as Hin1.
    pose proof (lastKing_isPieceAt _ _ _ _ _ Hlast) as Hp1.
    pose proof (countOver_elem _ _ _ _ _ _ Hin1 Hp1) as H1.
    apply elem_of_cons in Hin as [[= -> ->]|Hin].
    + rewrite Hp in Hcount. lia.
    + apply IH; [|done..].
      destruct (isPieceAt board King col r0 c0); lia.
  - apply elem_of_cons in Hin as [[= -> ->]|Hin].
    + by rewrite Hp.
    + by rewrite (lastKing_none _ _ _ _ _ Hlast Hin) in Hp.
Qed.

Lemma shieldAt_flip (board : Board) (col : Color) (row f : Z) :
  wf_board board -> 0 <= row < 8 ->
  shieldAt (flipBoard board) col row f
  = shieldAt board (swapColor col) (7 - row) (7 - f).
Proof.
  intros Hwf Hrow. unfold shieldAt.
  destruct ((0 <=? f) && (f <? 8)) eqn:Hf;
    destruct ((0 <=? 7 - f) && (7 - f <? 8)) eqn:Hf'; try lia.
  rewrite pieceAt_flip by (done || (apply isValidSquare_spec; lia)).
  destruct (pieceAt board (7 - row) (7 - f)) as [pc|]; [|done].
  cbn. by rewrite Color_eqb_swap.
Qed.

Lemma shield_flip (board : Board) (col : Color) (r c : Z) :
  wf_board board ->
  shield (flipBoard board) col r c = shield board (swapColor col) (7 - r) (7 - c).
Proof.
  intros Hwf. unfold shield.
  destruct col; cbn [swapColor].
  - destruct (Z.eqb_spec r 7), (Z.eqb_spec (7 - r) 0); try lia.
    unfold sumZ. cbn [map foldr]. rewrite !shieldAt_flip by (done || lia).
    cbn [swapColor].
    replace (7 - 6) with 1 by lia.
    replace (7 - (c - 1)) with (7 - c + 1) by lia.
    replace (7 - (c + 1)) with (7 - c - 1) by lia. lia.
  - destruct (Z.eqb_spec r 0), (Z.eqb_spec (7 - r) 7); try lia.
    unfold sumZ. cbn [map foldr]. rewrite !shieldAt_flip by (done || lia).
    cbn [swapColor].
    replace (7 - 1) with 6 by lia.
    replace (7 - (c - 1)) with (7 - c + 1) by lia.
    replace (7 - (c + 1)) with (7 - c - 1) by lia. lia.
Qed.

Lemma kingSafety_flip (board : Board) (col : Color) :
  wf_board board ->
  countOver board King (swapColor col) squares <= 1 ->
  kingSafety (flipBoard board) col = kingSafety board (swapColor col).
Proof.
  intros Hwf Hone. unfold kingSafety.
  destruct (lastKing (flipBoard board) col squares) as [[r c]|] eqn:HF.
  - pose proof (lastKing_elem _ _ _ _ HF) as Hin.
    pose proof (lastKing_isPieceAt _ _ _ _ _ HF) as Hp.
    pose proof squares_valid as Hall. rewrite Forall_forall in Hall.
    specialize (Hall _ Hin). cbn [fst snd] in Hall.
    rewrite isPieceAt_flip in Hp by done.
    rewrite (lastKing_unique board (swapColor col) squares (7 - r) (7 - c));
      [by apply shield_flip|done| |done].
    apply squares_complete. by rewrite isValidSquare_reflect.
  - destruct (lastKing board (swapColor col) squares) as [[r c]|] eqn:HB; [|done].
    pose proof (lastKing_elem _ _ _ _ HB) as Hin.
    pose proof (lastKing_isPieceAt _ _ _ _ _ HB) as Hp.
    pose proof squares_valid as Hall. rewrite Forall_forall in Hall.
    specialize (Hall _ Hin). cbn [fst snd] in Hall.
    assert (isValidSquare (7 - r) (7 - c) = true) as Hv'
      by (by rewrite isValidSquare_reflect).
    pose proof (lastKing_none _ _ _ (7 - r) (7 - c) HF
                  (squares_complete _ _ Hv')) as Hnone.
    rewrite isPieceAt_flip in Hnone by done.
    replace (7 - (7 - r)) with r in Hnone by lia.
    replace (7 - (7 - c)) with c in Hnone by lia. congruence.
Qed.

End Flip.

(** X13. The evaluation is the same game seen from either side: exchanging
    the colours and turning the board by half a turn changes the sign of the
    score and nothing else, on every 8x8 board with at most one king of each
    colour. *)
Theorem evaluateBoard_flip (board : Board) :
  wf_board board ->
  Terms.countOver board King White Evaluation.squares <= 1 ->
  Terms.countOver board King Black Evaluation.squares <= 1 ->
  exists z,
    Evaluation.evaluateBoard board = Some z
    /\ Evaluation.evaluateBoard (flipBoard board) = Some (- z).
Proof.
  intros Hwf HW HB.
  rewrite (evaluateBoard_terms board Hwf),
    (evaluateBoard_terms (flipBoard board) (flipBoard_wf board Hwf)).
  eexists. split; [reflexivity|]. apply (f_equal Some).
  unfold Terms.material, Terms.pst, Terms.mobility, Terms.rookFiles.
  rewrite (sumOver_flip board Terms.materialAt Terms.materialAt Hwf)
    by (intros; apply materialAt_flip).
  rewrite (sumOver_flip board Terms.pstAt Terms.pstAt Hwf)
    by (intros; by apply pstAt_flip).
  rewrite (sumOver_flip board (Terms.mobilityAt (flipBoard board))
             (Terms.mobilityAt board) Hwf)
    by (intros; by apply mobilityAt_flip).
  rewrite (sumOver_flip board (Terms.rookAt (flipBoard board) Evaluation.squares)
             (Terms.rookAt board Evaluation.squares) Hwf)
    by (intros; by apply rookAt_flip).
  rewrite !kingSafety_flip by done. cbn [swapColor].
  unfold Terms.bishopPair. rewrite !countOver_flip by done. cbn [swapColor].
  lia.
Qed.

Lemma evaluateBoard_flip_witness :
  wf_board (MiniChess.view backRankTrap)
  /\ Terms.countOver (MiniChess.view backRankTrap) King White Evaluation.squares <= 1
  /\ Terms.countOver (MiniChess.view backRankTrap) King Black Evaluation.squares <= 1
  /\ exists z,
       Evaluation.evaluateBoard (MiniChess.view backRankTrap) = Some z
       /\ Evaluation.evaluateBoard (flipBoard (MiniChess.view backRankTrap))
          = Some (- z).
Proof.
  assert (Hwf : wf_board (MiniChess.view backRankTrap)).
  { split; [reflexivity|]. vm_compute. repeat constructor. }
  assert (HW : Terms.countOver (MiniChess.view backRankTrap) King White
                 Evaluation.squares <= 1) by (vm_compute; discriminate).
  assert (HB : Terms.countOver (MiniChess.view backRankTrap) King Black
                 Evaluation.squares <= 1) by (vm_compute; discriminate).
  split; [exact Hwf|]. split; [exact HW|]. split; [exact HB|].
  exact (evaluateBoard_flip (MiniChess.view backRankTrap) Hwf HW HB).
Defined.

(** ** Sanity checks of the embedding *)

Example evaluateBoard_start : Evaluation.evaluateBoard startBoard = Some 0.
Proof. vm_compute. reflexivity. Qed.

Example perft_start_1 : MiniChess.perft 1 MiniChess.start = 20%nat.
Proof. vm_compute. reflexivity. Qed.

Example perft_start_2 : MiniChess.perft 2 MiniChess.start = 400%nat.
Proof. vm_compute. reflexivity. Qed.

(** The rounding of the product at work: for this binary64 random number and
    20 moves the exact product lies below 9 and the product as computed is
    9, so that the Easy tier returns the move of index 9. *)
Example easy_index_rounds_up :
  isDouble (2026619832316723 # 4503599627370496)
  /\ Qfloor ((2026619832316723 # 4503599627370496) * 20) = 8
  /\ Qfloor <$> toDouble ((2026619832316723 # 4503599627370496) * 20) = Some 9.
Proof.
  split; [|split; vm_compute; reflexivity].
  exists 2026619832316723, (-52). split; [reflexivity|]. split; [lia|reflexivity].
Qed.

(** Values of [toDouble]: 1/10 becomes 3602879701896397 / 2^55, a tie goes
    to the even significand, and rounding reaches the infinity from
    [2 ^ 1024 - 2 ^ 970] on. *)
Example toDouble_samples :
  Qred <$> toDouble (1 # 10) = Some (3602879701896397 # 36028797018963968)
  /\ Qred <$> toDouble (inject_Z (2 ^ 53 + 1)) = Some (inject_Z (2 ^ 53))
  /\ Qred <$> toDouble (inject_Z (2 ^ 53 + 3)) = Some (inject_Z (2 ^ 53 + 4))
  /\ toDouble (pow2 1024 - pow2 970) = None
  /\ Qred <$> toDouble (pow2 (-1075)) = Some 0%Q.
Proof. split_and!; vm_compute; reflexivity. Qed.

